(** * deepx: random-dot stereogram synthesis

    A shallow embedding of the Go package [deepx] (colour helpers and the
    stereogram engine) together with the properties of it that are stated
    in its specification.

    Conventions of the embedding.
    - Go [int] is a 64-bit two's complement integer: it is a [Z], and the
      arithmetic that can leave the range is wrapped by [wrap64].
    - Go [uint8] is a [Z] in [0, 256); conversions go through [uint8].
    - Go [float64] is IEEE 754 binary64, taken from the Standard Library's
      [spec_float] with precision 53 and maximal exponent 1024; every
      operation rounds on its own (no fused multiply-add).
    - A slice is a list; an index outside of it panics.  Memory has no
      limit: [make] and [image.NewRGBA] succeed at every size that is
      not negative.
    - A panic is the outcome [Panic]; a loop of the source that has no
      bound of its own is run with fuel and [Spin] says the fuel ran out.
    - The rows are drawn by goroutines that share the image and the
      random source of [math/rand]: an execution is a sequence of their
      requests in some order, and a property of the image that is
      returned is proved for every order. *)

From Stdlib Require Import ZArith Lia List Bool String Ascii.
From Stdlib.Floats Require Import SpecFloat.
From stdpp Require Import base list.

Local Open Scope Z_scope.

(** ** 64-bit integers *)

Definition wrap64 (z : Z) : Z := (z + 2 ^ 63) mod 2 ^ 64 - 2 ^ 63.

Definition minInt64 : Z := - 2 ^ 63.

Definition uint8 (z : Z) : Z := z mod 256.

(** ** binary64 *)

Module F64.

Definition t := spec_float.

Definition prec : Z := 53.
Definition emax : Z := 1024.

Definition add : t -> t -> t := SFadd prec emax.
Definition sub : t -> t -> t := SFsub prec emax.
Definition mul : t -> t -> t := SFmul prec emax.
Definition div : t -> t -> t := SFdiv prec emax.
Definition ltb : t -> t -> bool := SFltb.

(** [float64(n)] for an integer [n], rounded to nearest even. *)
Definition of_Z (n : Z) : t := binary_normalize prec emax n 0 false.

(** [math.Ceil]: the special values are returned as they are, and a
    negative fraction above -1 becomes the negative zero. *)
Definition ceil (x : t) : t :=
  match x with
  | S754_finite s m e =>
      if 0 <=? e then x
      else
        let d := 2 ^ (- e) in
        let q := Z.pos m / d in
        if Z.pos m mod d =? 0 then x
        else if s then (if q =? 0 then S754_zero true
                        else binary_normalize prec emax (- q) 0 false)
             else binary_normalize prec emax (q + 1) 0 false
  | _ => x
  end.

(** The integer part, rounded toward zero; [None] when there is none. *)
Definition trunc (x : t) : option Z :=
  match x with
  | S754_zero _ => Some 0
  | S754_finite s m e =>
      let a := if 0 <=? e then Z.pos m * 2 ^ e else Z.pos m / 2 ^ (- e) in
      Some (if s then - a else a)
  | _ => None
  end.

(** [int(x)].  Go leaves the conversion of a value that does not fit
    (and of NaN) to the implementation; the amd64 compiler yields the
    smallest integer, which is what is written here. *)
Definition to_int (x : t) : Z :=
  match trunc x with
  | Some v => if (minInt64 <=? v) && (v <? 2 ^ 63) then v else minInt64
  | None => minInt64
  end.

(** [uint8(x)]: the low byte of the integer conversion. *)
Definition to_uint8 (x : t) : Z := uint8 (to_int x).

Definition zero : t := S754_zero false.
Definition one : t := of_Z 1.
Definition two : t := of_Z 2.

End F64.

(** ** Colours (color.go) *)

(** [type Color color.RGBA]: four 8-bit channels. *)
Record Color : Type := mkColor { R : Z; G : Z; B : Z; A : Z }.

(** The values a [Color] can hold. *)
Definition wfColor (c : Color) : Prop :=
  0 <= R c < 256 /\ 0 <= G c < 256 /\ 0 <= B c < 256 /\ 0 <= A c < 256.

(** The zero value of the type, what [make([]Color, n)] is filled with. *)
Definition zeroColor : Color := mkColor 0 0 0 0.

Definition hexDigit (d : Z) : ascii :=
  if d <? 10 then ascii_of_N (Z.to_N (48 + d))
  else ascii_of_N (Z.to_N (55 + d)).

(** The verb [%.2X] at an 8-bit value: two upper case digits. *)
Definition fmt02X (v : Z) (rest : string) : string :=
  String (hexDigit (v / 16)) (String (hexDigit (v mod 16)) rest).

(** [func (c Color) Hex() string] *)
Definition Hex (c : Color) : string :=
  String "#"%char
    (fmt02X (R c) (fmt02X (G c) (fmt02X (B c) (fmt02X (A c) EmptyString)))).

(** [func (c Color) RGBA() color.RGBA]; [Color] and [color.RGBA] have
    the same four fields and are one type here. *)
Definition Color_RGBA (c : Color) : Color :=
  {| R := R c; G := G c; B := B c; A := A c |}.

(** [func (c Color) Equal(other Color) bool] *)
Definition Equal (c other : Color) : bool :=
  (A c =? A other) && (B c =? B other) && (R c =? R other) && (G c =? G other).

(** *** Parsing the hexadecimal form *)

(** [strings.TrimPrefix] *)
Definition TrimPrefix (s p : string) : string :=
  if String.prefix p s
  then String.substring (String.length p) (String.length s - String.length p) s
  else s.

(** [strings.Repeat] *)
Fixpoint Repeat (s : string) (n : nat) : string :=
  match n with
  | O => EmptyString
  | S n' => String.append s (Repeat s n')
  end.

Inductive NumError : Type := ErrSyntax | ErrRange.

(** The value of one digit in [strconv.ParseUint]: decimal digits, and
    letters of either case through [lower(c) = c | 0x20]. *)
Definition digitVal (c : ascii) : option Z :=
  let n := Z.of_N (N_of_ascii c) in
  if (48 <=? n) && (n <=? 57) then Some (n - 48)
  else
    let l := Z.lor n 32 in
    if (97 <=? l) && (l <=? 122) then Some (l - 97 + 10) else None.

(** The loop of [strconv.ParseUint(s, 16, 32)] over the bytes of [s];
    [n] is a [uint64] so its products and sums wrap at [2^64]. *)
Fixpoint parseLoop (s : string) (n : Z) : Z + NumError :=
  match s with
  | EmptyString => inl n
  | String c s' =>
      match digitVal c with
      | None => inr ErrSyntax
      | Some d =>
          if d >=? 16 then inr ErrSyntax
          else if n >=? 2 ^ 60 then inr ErrRange
          else
            let n16 := (n * 16) mod 2 ^ 64 in
            let n1 := (n16 + d) mod 2 ^ 64 in
            if (n1 <? n16) || (n1 >? 2 ^ 32 - 1) then inr ErrRange
            else parseLoop s' n1
      end
  end.

Definition ParseUint16_32 (s : string) : Z + NumError :=
  match s with
  | EmptyString => inr ErrSyntax
  | _ => parseLoop s 0
  end.

(** [func ColorFromHex(hex string)]: the colour, or the error of the parse. *)
Definition ColorFromHex (hex : string) : Color + NumError :=
  let hex := TrimPrefix hex "#" in
  let hex :=
    if (String.length hex <? 8)%nat
    then String.append hex (Repeat "F" (8 - String.length hex))
    else hex in
  match ParseUint16_32 hex with
  | inr err => inr err
  | inl values =>
      inl {| A := uint8 (Z.land values 255);
             B := uint8 (Z.land (Z.shiftr values 8) 255);
             G := uint8 (Z.land (Z.shiftr values 16) 255);
             R := uint8 (Z.shiftr values 24) |}
  end.

(** *** Colours of the standard image package *)

(** A value of the interface [color.Color] is observed through its one
    method [RGBA()] only: four alpha-premultiplied 16-bit channels, each
    returned as a [uint32]. *)
Record PixelColor : Type := mkPixel { r16 : Z; g16 : Z; b16 : Z; a16 : Z }.

(** [color.RGBA.RGBA()]: each 8-bit channel [v] becomes [v | v << 8]. *)
Definition rgba8 (c : Color) : PixelColor :=
  {| r16 := Z.lor (R c) (Z.shiftl (R c) 8);
     g16 := Z.lor (G c) (Z.shiftl (G c) 8);
     b16 := Z.lor (B c) (Z.shiftl (B c) 8);
     a16 := Z.lor (A c) (Z.shiftl (A c) 8) |}.

Definition chan8 (v : Z) : Z :=
  F64.to_uint8 (F64.div (F64.mul (F64.of_Z 255) (F64.of_Z v)) (F64.of_Z 65535)).

(** [func ColorRGBA(c color.Color) Color] *)
Definition ColorRGBA (c : PixelColor) : Color :=
  {| R := chan8 (r16 c); G := chan8 (g16 c); B := chan8 (b16 c); A := chan8 (a16 c) |}.

(** ** Outcomes of code that can panic *)

Inductive outcome (A : Type) : Type :=
  | Done (a : A)
  | Panic
  | Spin.
Arguments Done {A} a.
Arguments Panic {A}.
Arguments Spin {A}.

#[global] Instance outcome_ret : MRet outcome := fun A a => Done a.
#[global] Instance outcome_bind : MBind outcome := fun A B f m =>
  match m with
  | Done a => f a
  | Panic => Panic
  | Spin => Spin
  end.

(** [func MustColorFromHex(hex string) Color] *)
Definition MustColorFromHex (hex : string) : outcome Color :=
  match ColorFromHex hex with
  | inl c => Done c
  | inr _ => Panic
  end.

(** [l[i]] *)
Definition idx {A : Type} (l : list A) (i : Z) : outcome A :=
  if i <? 0 then Panic
  else match l !! Z.to_nat i with
       | Some a => Done a
       | None => Panic
       end.

(** [l[i] = v] *)
Definition upd {A : Type} (l : list A) (i : Z) (v : A) : outcome (list A) :=
  if (0 <=? i) && (i <? Z.of_nat (length l))
  then Done (<[Z.to_nat i := v]> l)
  else Panic.

(** [make([]T, n)], filled with the zero value [v] of [T]. *)
Definition make {A : Type} (v : A) (n : Z) : outcome (list A) :=
  if n <? 0 then Panic else Done (replicate (Z.to_nat n) v).

(** The values [0, 1, ..., n-1] of a counting loop. *)
Definition zrange (n : Z) : list Z := map Z.of_nat (seq 0 (Z.to_nat n)).

(** A loop body run over the values of its counter, in order. *)
Fixpoint foldO {A S : Type} (f : S -> A -> outcome S) (s : S) (l : list A)
  : outcome S :=
  match l with
  | [] => Done s
  | a :: l' => s' ← f s a; foldO f s' l'
  end.

(** ** Images of the standard image package *)

Record Rectangle : Type :=
  mkRect { MinX : Z; MinY : Z; MaxX : Z; MaxY : Z }.

Definition Dx (r : Rectangle) : Z := MaxX r - MinX r.
Definition Dy (r : Rectangle) : Z := MaxY r - MinY r.

(** [image.Rect]: the corners are put in order. *)
Definition Rect (x0 y0 x1 y1 : Z) : Rectangle :=
  {| MinX := Z.min x0 x1; MinY := Z.min y0 y1;
     MaxX := Z.max x0 x1; MaxY := Z.max y0 y1 |}.

Definition inRect (x y : Z) (r : Rectangle) : bool :=
  (MinX r <=? x) && (x <? MaxX r) && (MinY r <=? y) && (y <? MaxY r).

(** The interface [image.Image]: its bounds and the colour at a point. *)
Record Image : Type := mkImage { Bounds : Rectangle; At : Z -> Z -> PixelColor }.

(** [image.RGBA]: the pixels of the rectangle, row after row. *)
Record RGBA : Type := mkRGBA { imRect : Rectangle; Pix : list (list Color) }.

(** [image.NewRGBA] *)
Definition NewRGBA (r : Rectangle) : RGBA :=
  {| imRect := r;
     Pix := replicate (Z.to_nat (Dy r)) (replicate (Z.to_nat (Dx r)) zeroColor) |}.

(** [Set] of [image.RGBA] at a [color.RGBA] value: nothing outside of the
    rectangle, and the colour as it is inside. *)
Definition SetRGBA (im : RGBA) (x y : Z) (c : Color) : RGBA :=
  if inRect x y (imRect im) then
    let j := Z.to_nat (y - MinY (imRect im)) in
    let i := Z.to_nat (x - MinX (imRect im)) in
    {| imRect := imRect im;
       Pix := alter (fun row => <[i := c]> row) j (Pix im) |}
  else im.

(** [RGBAAt] of [image.RGBA]: the zero colour outside of the rectangle. *)
Definition RGBAAt (im : RGBA) (x y : Z) : Color :=
  if inRect x y (imRect im) then
    match Pix im !! Z.to_nat (y - MinY (imRect im)) with
    | Some row =>
        match row !! Z.to_nat (x - MinX (imRect im)) with
        | Some c => c
        | None => zeroColor
        end
    | None => zeroColor
    end
  else zeroColor.

(** ** Row workers *)

(** A row of the stereogram is drawn by a goroutine of its own.  What a
    goroutine does to the world outside of it is to ask the shared
    random source for a number and to set a pixel of the shared image;
    the rest is local.  A worker is the tree of these requests. *)
Inductive prog (A : Type) : Type :=
  | Ret (a : A)
  | Crash
  | Hang
  | RandIntn (n : Z) (k : Z -> prog A)
  | SetPixel (x y : Z) (c : Color) (k : prog A).
Arguments Ret {A} a.
Arguments Crash {A}.
Arguments Hang {A}.
Arguments RandIntn {A} n k.
Arguments SetPixel {A} x y c k.

Fixpoint prog_bind {A B : Type} (f : A -> prog B) (m : prog A) : prog B :=
  match m with
  | Ret a => f a
  | Crash => Crash
  | Hang => Hang
  | RandIntn n k => RandIntn n (fun v => prog_bind f (k v))
  | SetPixel x y c k => SetPixel x y c (prog_bind f k)
  end.

#[global] Instance prog_ret : MRet prog := fun A a => Ret a.
#[global] Instance prog_mbind : MBind prog := fun A B f m => prog_bind f m.

Definition liftO {A : Type} (o : outcome A) : prog A :=
  match o with
  | Done a => Ret a
  | Panic => Crash
  | Spin => Hang
  end.

(** ** The stereogram engine (stereogram.go) *)

Record StereogramConfig : Type := mkConfig {
  MaskTransparentColor : option Color;
  Palette : list Color;
  Mu : F64.t;
  DPI : Z;
  ERatio : F64.t
}.

Definition defaultStereogramCfg : StereogramConfig :=
  {| MaskTransparentColor := None;
     Palette := [];
     Mu := F64.div (F64.of_Z 1) (F64.of_Z 3);
     DPI := 72;
     ERatio := F64.div (F64.of_Z 5) (F64.of_Z 2) |}.

(** [type StereogramOption]: a function that updates the configuration
    it is given a pointer to. *)
Definition StereogramOption : Type := StereogramConfig -> StereogramConfig.

Definition WithMaskTransparentColor (color : Color) : StereogramOption :=
  fun cfg => {| MaskTransparentColor := Some color; Palette := Palette cfg;
                Mu := Mu cfg; DPI := DPI cfg; ERatio := ERatio cfg |}.

Definition WithColorPalette (palette : list Color) : StereogramOption :=
  fun cfg => {| MaskTransparentColor := MaskTransparentColor cfg;
                Palette := palette;
                Mu := Mu cfg; DPI := DPI cfg; ERatio := ERatio cfg |}.

Definition WithOutputDPI (dpi : Z) : StereogramOption :=
  fun cfg => {| MaskTransparentColor := MaskTransparentColor cfg;
                Palette := Palette cfg;
                Mu := Mu cfg; DPI := dpi; ERatio := ERatio cfg |}.

Definition WithEyeSepartionRatio (ratio : F64.t) : StereogramOption :=
  fun cfg => {| MaskTransparentColor := MaskTransparentColor cfg;
                Palette := Palette cfg;
                Mu := Mu cfg; DPI := DPI cfg; ERatio := ratio |}.

(** [func projSeparation(z, mu, e float64) int] *)
Definition projSeparation (z mu e : F64.t) : Z :=
  F64.to_int
    (F64.ceil
       (F64.div (F64.mul (F64.sub F64.one (F64.mul mu z)) e)
                (F64.sub F64.two (F64.mul mu z)))).

(** [func getRandomPaletteColor(palette []Color) Color] *)
Definition getRandomPaletteColor (palette : list Color) : prog Color :=
  if (length palette =? 0)%nat then
    RandIntn 256 (fun r =>
    RandIntn 256 (fun g =>
    RandIntn 256 (fun b =>
    Ret {| R := uint8 r; G := uint8 g; B := uint8 b; A := 255 |})))
  else
    RandIntn (Z.of_nat (length palette)) (fun i => liftO (idx palette i)).

(** [func isTransparentMaskPixel]; the pointer to the transparent colour
    is [nil] or points to a colour. *)
Definition isTransparentMaskPixel
  (pxColor : PixelColor) (maskTransparentColor : option Color) : bool :=
  match maskTransparentColor with
  | None => a16 pxColor =? 0
  | Some c => Equal (ColorRGBA pxColor) c
  end.

(** [zBuf[x][y]] *)
Definition zAt (zBuf : list (list F64.t)) (x y : Z) : outcome F64.t :=
  col ← idx zBuf x; idx col y.

(** The depth at distance [t] on the line of sight of a point of depth
    [z]: [z + 2*(2-mu*z)*float64(t)/(mu*e)]. *)
Definition sightDepth (z mu e : F64.t) (t : Z) : F64.t :=
  F64.add z
    (F64.div
       (F64.mul (F64.mul F64.two (F64.sub F64.two (F64.mul mu z))) (F64.of_Z t))
       (F64.mul mu e)).

(** The loop [for t := 1; ; t++] that decides [isVisible].  The second
    comparison is not evaluated when the first one fails. *)
Fixpoint visibleLoop (fuel : nat) (zBuf : list (list F64.t)) (mu e : F64.t)
  (x y t : Z) : outcome bool :=
  match fuel with
  | O => Spin
  | S fuel' =>
      z ← zAt zBuf x y;
      let zt := sightDepth z mu e t in
      zl ← zAt zBuf (x - t) y;
      isVisible ← (if F64.ltb zl zt
                   then zr ← zAt zBuf (x + t) y; Done (F64.ltb zr zt)
                   else Done false);
      if isVisible && F64.ltb zt F64.one
      then visibleLoop fuel' zBuf mu e x y (t + 1)
      else Done isVisible
  end.

(** The loop reads [zBuf[x-t]] at every turn, so it has left it after
    [x + 1] turns at the latest. *)
Definition isVisible (zBuf : list (list F64.t)) (mu e : F64.t) (x y : Z)
  : outcome bool :=
  visibleLoop (S (Z.to_nat x)) zBuf mu e x y 1.

(** The loop [for k := same[left]; k != left && k != right; k = same[left]],
    which gives the last [left] and [right]. *)
Fixpoint linkLoop (fuel : nat) (same : list Z) (left right : Z)
  : outcome (Z * Z) :=
  match fuel with
  | O => Spin
  | S fuel' =>
      k ← idx same left;
      if negb ((negb (k =? left)) && (negb (k =? right))) then Done (left, right)
      else if k <? right then linkLoop fuel' same k right
      else linkLoop fuel' same right k
  end.

(** [same] does not change in the loop, [left] is an index of it and
    [right] is its first value or an element of [same]: a run that has
    not ended after this many turns is in a state it has been in. *)
Definition linkFuel (same : list Z) : nat := S (length same * S (length same)).

(** One turn of the loop over [x] of the disparity pass. *)
Definition linkStep (zBuf : list (list F64.t)) (imgWidth : Z) (mu e : F64.t)
  (y : Z) (same : list Z) (x : Z) : outcome (list Z) :=
  z ← zAt zBuf x y;
  let s := projSeparation z mu e in
  let left := wrap64 (x - Z.quot (wrap64 (s + Z.land (Z.land s y) 1)) 2) in
  let right := wrap64 (left + s) in
  if (left <? 0) || (right >=? imgWidth) then Done same
  else
    vis ← isVisible zBuf mu e x y;
    if negb vis then Done same
    else
      lr ← linkLoop (linkFuel same) same left right;
      upd same (fst lr) (snd lr).

(** The table [same] of a row, after the disparity pass. *)
Definition rowLinks (zBuf : list (list F64.t)) (imgWidth : Z) (mu e : F64.t)
  (y : Z) : outcome (list Z) :=
  same ← make 0 imgWidth;
  same ← foldO (fun same x => upd same x x) same (zrange imgWidth);
  foldO (linkStep zBuf imgWidth mu e y) same (zrange imgWidth).

(** The loop [for x := imgWidth - 1; x >= 0; x--] of the colouring pass,
    over the values [xs] that [x] still has to take. *)
Fixpoint colorLoop (palette : list Color) (same : list Z) (y : Z)
  (xs : list Z) (pixels : list Color) : prog unit :=
  match xs with
  | [] => Ret tt
  | x :: xs' =>
      sx ← liftO (idx same x);
      c ← liftO (idx pixels sx);
      pixels ← liftO (upd pixels x c);
      pixels ← (if sx =? x
                then c ← getRandomPaletteColor palette; liftO (upd pixels x c)
                else Ret pixels);
      px ← liftO (idx pixels x);
      SetPixel x y (Color_RGBA px) (colorLoop palette same y xs' pixels)
  end.

(** The body of [go func(y int)]. *)
Definition rowWorker (zBuf : list (list F64.t)) (imgWidth : Z) (mu e : F64.t)
  (palette : list Color) (y : Z) : prog unit :=
  same ← liftO (rowLinks zBuf imgWidth mu e y);
  pixels ← liftO (make zeroColor imgWidth);
  colorLoop palette same y (reverse (zrange imgWidth)) pixels.

(** [func newDepthBufferFromImage], and its loop over [y] first. *)
Definition depthColumn (img : Image) (transparentColor : option Color)
  (sizeY x : Z) : outcome (list F64.t) :=
  col ← make F64.zero sizeY;
  foldO (fun col y =>
           if isTransparentMaskPixel (At img x y) transparentColor then Done col
           else upd col y F64.one)
        col (zrange sizeY).

Definition newDepthBufferFromImage (img : Image) (transparentColor : option Color)
  : outcome (list (list F64.t)) :=
  let sizeX := Dx (Bounds img) in
  let sizeY := Dy (Bounds img) in
  z ← make [] sizeX;
  foldO (fun z x => col ← depthColumn img transparentColor sizeY x; upd z x col)
        z (zrange sizeX).

(** ** The goroutines at work *)

(** The random source of [math/rand] is outside of the package: it is a
    state [G], that of the one source behind a lock which the functions
    of the package share, and the function [randIntn] that [rand.Intn]
    is on it. *)
Record state (G : Type) : Type := mkState {
  workers : list (prog unit);
  source : G;
  canvas : RGBA
}.
Arguments mkState {G} workers source canvas.
Arguments workers {G} s.
Arguments source {G} s.
Arguments canvas {G} s.

Inductive StereogramError (E : Type) : Type :=
  | CouldNotDecode (err : E).
Arguments CouldNotDecode {E} err.

(** What has happened: worker [i] drew [v] below [n], worker [i] set a
    pixel, or worker [i] panicked in [rand.Intn]. *)
Inductive event : Type :=
  | EvRand (i : nat) (n v : Z)
  | EvSet (i : nat) (x y : Z) (c : Color)
  | EvPanic (i : nat).

Section Scheduling.

Context {G : Type} (randIntn : G -> Z -> Z * G).

(** One request of one worker is served; which worker comes next is
    not decided by the program. *)
Inductive step : state G -> event -> state G -> Prop :=
  | step_rand st i n k :
      workers st !! i = Some (RandIntn n k) ->
      0 < n ->
      step st (EvRand i n (fst (randIntn (source st) n)))
        (mkState (<[i := k (fst (randIntn (source st) n))]> (workers st))
                 (snd (randIntn (source st) n)) (canvas st))
  | step_rand_panic st i n k :
      workers st !! i = Some (RandIntn n k) ->
      n <= 0 ->
      step st (EvPanic i)
        (mkState (<[i := Crash]> (workers st)) (source st) (canvas st))
  | step_set st i x y c k :
      workers st !! i = Some (SetPixel x y c k) ->
      step st (EvSet i x y c)
        (mkState (<[i := k]> (workers st)) (source st)
                 (SetRGBA (canvas st) x y c)).

Inductive steps : state G -> list event -> state G -> Prop :=
  | steps_nil st : steps st [] st
  | steps_cons st ev st' tr st'' :
      step st ev st' -> steps st' tr st'' -> steps st (ev :: tr) st''.

(** [wg.Wait()] returns when every worker has returned. *)
Definition finished (st : state G) : Prop :=
  Forall (fun p => p = Ret tt) (workers st).

(** The same, as a function of the order in which the workers are
    served; a worker that asks for nothing is passed over. *)
Definition serve (st : state G) (i : nat) : state G :=
  match workers st !! i with
  | Some (RandIntn n k) =>
      if 0 <? n then
        mkState (<[i := k (fst (randIntn (source st) n))]> (workers st))
                (snd (randIntn (source st) n)) (canvas st)
      else mkState (<[i := Crash]> (workers st)) (source st) (canvas st)
  | Some (SetPixel x y c k) =>
      mkState (<[i := k]> (workers st)) (source st) (SetRGBA (canvas st) x y c)
  | _ => st
  end.

Definition run (st : state G) (order : list nat) : state G :=
  fold_left serve order st.

Definition isRet (p : prog unit) : bool :=
  match p with Ret _ => true | _ => false end.

Definition finishedb (st : state G) : bool := forallb isRet (workers st).

(** [func drawAutoStereogram]: the image is made, the workers are
    started, one for a row ([wg.Add] panics at a negative count); the
    image is returned when all the workers are done. *)
Definition drawAutoStereogram (zBuf : list (list F64.t))
  (imgWidth imgHeight : Z) (mu e : F64.t) (palette : list Color) (g : G)
  : outcome (state G) :=
  if imgHeight <? 0 then Panic
  else Done {| workers := map (rowWorker zBuf imgWidth mu e palette)
                            (zrange imgHeight);
               source := g;
               canvas := NewRGBA (Rect 0 0 imgWidth imgHeight) |}.

(** [drawn o tr img]: the call that starts as [o] returns the image
    [img] after the events [tr]. *)
Inductive drawn : outcome (state G) -> list event -> RGBA -> Prop :=
  | drawn_intro st tr st' :
      steps st tr st' -> finished st' -> drawn (Done st) tr (canvas st').

(** [e := math.Ceil(cfg.ERatio * float64(cfg.DPI))] *)
Definition eyeSeparation (cfg : StereogramConfig) : F64.t :=
  F64.ceil (F64.mul (ERatio cfg) (F64.of_Z (DPI cfg))).

(** [for _, opt := range opts { opt(&cfg) }] *)
Definition applyOptions (opts : list StereogramOption)
  (cfg : StereogramConfig) : StereogramConfig :=
  fold_left (fun cfg opt => opt cfg) opts cfg.

(** [func NewStereogramFromMask]; [decoded] is what [image.Decode] has
    made of the mask source, and the error of the function is the
    error of the decoder with a message in front of it. *)
Definition NewStereogramFromMask {E : Type} (decoded : Image + E)
  (opts : list StereogramOption) (g : G)
  : outcome (state G) + StereogramError E :=
  match decoded with
  | inr err => inr (CouldNotDecode err)
  | inl maskImg =>
      let cfg := applyOptions opts defaultStereogramCfg in
      let e := eyeSeparation cfg in
      inl (zBuf ← newDepthBufferFromImage maskImg (MaskTransparentColor cfg);
           drawAutoStereogram zBuf
             (Dx (Bounds maskImg)) (Dy (Bounds maskImg))
             (Mu cfg) e (Palette cfg) g)
  end.

(** The pair that [NewStereogramFromMask] returns. *)
Inductive returned {E : Type} : outcome (state G) + E -> option RGBA * option E -> Prop :=
  | returned_error err : returned (inr err) (None, Some err)
  | returned_image o tr img :
      drawn o tr img -> returned (inl o) (Some img, None).

End Scheduling.

(** A random source for examples: the numbers it will give are listed,
    and it gives zero when the list is used up. *)
Definition replayIntn (g : list Z) (n : Z) : Z * list Z :=
  match g with
  | [] => (0, [])
  | r :: g' => (r mod n, g')
  end.

(** ** Vocabulary of the properties *)

(** The depth of a mask pixel. *)
Definition maskDepth (img : Image) (tc : option Color) (x y : Z) : F64.t :=
  if isTransparentMaskPixel (At img x y) tc then F64.zero else F64.one.

(** A table [same] of a row of width [w] in which every column points
    to itself or to the right. *)
Definition linked (w : Z) (same : list Z) : Prop :=
  Z.of_nat (length same) = w
  /\ forall i k, same !! i = Some k -> Z.of_nat i <= k < w.

(** The requests of one worker, as the worker sees them. *)
Inductive request : Type :=
  | RqRand (n v : Z)
  | RqSet (x y : Z) (c : Color)
  | RqPanic.

(** [path p rqs p']: the worker [p] is [p'] after the requests [rqs]. *)
Inductive path {A : Type} : prog A -> list request -> prog A -> Prop :=
  | path_nil p : path p [] p
  | path_rand n k v rqs p' :
      0 < n -> path (k v) rqs p' ->
      path (RandIntn n k) (RqRand n v :: rqs) p'
  | path_panic n k rqs p' :
      n <= 0 -> path Crash rqs p' ->
      path (RandIntn n k) (RqPanic :: rqs) p'
  | path_set x y c k rqs p' :
      path k rqs p' -> path (SetPixel x y c k) (RqSet x y c :: rqs) p'.

(** The worker an event is of, and the request it is for that worker. *)
Definition who (ev : event) : nat :=
  match ev with
  | EvRand i _ _ => i
  | EvSet i _ _ _ => i
  | EvPanic i => i
  end.

Definition requestOf (ev : event) : request :=
  match ev with
  | EvRand _ n v => RqRand n v
  | EvSet _ x y c => RqSet x y c
  | EvPanic _ => RqPanic
  end.

Definition requestsOf (i : nat) (tr : list event) : list request :=
  map requestOf (List.filter (fun ev => Nat.eqb (who ev) i) tr).

(** The pixels that are set, in the order in which they are. *)
Definition setOf (rq : request) : option (Z * Z * Color) :=
  match rq with
  | RqSet x y c => Some (x, y, c)
  | _ => None
  end.

Definition sets (rqs : list request) : list (Z * Z * Color) := omap setOf rqs.

Definition allSets (tr : list event) : list (Z * Z * Color) :=
  sets (map requestOf tr).

(** The colours that the pixel [(x, y)] is given, one after the other. *)
Definition setsAt (x y : Z) (l : list (Z * Z * Color)) : list Color :=
  omap (fun s => if (fst (fst s) =? x) && (snd (fst s) =? y)
                 then Some (snd s) else None) l.

(** The image after the pixels [l] have been set. *)
Definition paint (im : RGBA) (l : list (Z * Z * Color)) : RGBA :=
  fold_left (fun im s => SetRGBA im (fst (fst s)) (snd (fst s)) (snd s)) l im.

(** The colours that [getRandomPaletteColor] can return. *)
Definition provided (palette : list Color) (c : Color) : Prop :=
  match palette with
  | [] => exists r g b, c = {| R := uint8 r; G := uint8 g; B := uint8 b; A := 255 |}
  | _ => In c palette
  end.

(** An image that has the pixels of its rectangle. *)
Definition wfRGBA (im : RGBA) : Prop :=
  length (Pix im) = Z.to_nat (Dy (imRect im))
  /\ Forall (fun row => length row = Z.to_nat (Dx (imRect im))) (Pix im).

Section Trace.

Context {G : Type} (randIntn : G -> Z -> Z * G).

(** The event of [serve]. *)
Definition served (st : state G) (i : nat) : option event :=
  match workers st !! i with
  | Some (RandIntn n k) =>
      if 0 <? n then Some (EvRand i n (fst (randIntn (source st) n)))
      else Some (EvPanic i)
  | Some (SetPixel x y c k) => Some (EvSet i x y c)
  | _ => None
  end.

Fixpoint runTrace (st : state G) (order : list nat) : list event :=
  match order with
  | [] => []
  | i :: order' =>
      match served st i with
      | Some ev => ev :: runTrace (serve randIntn st i) order'
      | None => runTrace (serve randIntn st i) order'
      end
  end.

End Trace.

(** What the row of a column is, in an image that has been returned. *)
Definition rowFacts (zBuf : list (list F64.t)) (w : Z) (mu e : F64.t)
  (palette : list Color) (y : Z) (same : list Z) (P : list Color) : Prop :=
  rowLinks zBuf w mu e y = Done same
  /\ length P = Z.to_nat w
  /\ forall x, (x < Z.to_nat w)%nat ->
       exists sx c,
         same !! x = Some (Z.of_nat sx) /\ (sx < Z.to_nat w)%nat
         /\ P !! x = Some c
         /\ (sx = x -> provided palette c)
         /\ ((x < sx)%nat -> P !! sx = Some c)
         /\ ((sx < x)%nat -> c = zeroColor).

(** The separations of a depth buffer are checked value by value. *)
Definition separationsOK (zBuf : list (list F64.t)) (mu e : F64.t) : bool :=
  forallb (forallb (fun z => (0 <=? projSeparation z mu e)
                             && (projSeparation z mu e <? 2 ^ 62))) zBuf.

(** ** Inputs of the examples *)

Module Ex.

Definition red : Color := mkColor 255 0 0 255.
Definition blue : Color := mkColor 0 0 255 255.

Definition lo : F64.t := F64.zero.
Definition hi : F64.t := F64.one.

(** An 8 x 2 depth buffer with a raised part in its first row, drawn
    with the default [mu] and an eye separation of 6 pixels. *)
Definition depth : list (list F64.t) :=
  [[lo; lo]; [lo; lo]; [hi; lo]; [hi; lo]; [lo; lo]; [lo; lo]; [lo; lo]; [lo; lo]].
Definition six : F64.t := F64.of_Z 6.
Definition palette : list Color := [red; blue].
Definition numbers : list Z := [0; 1; 1; 0; 1; 0; 0; 1].
Definition start : state (list Z) :=
  {| workers := map (rowWorker depth 8 (Mu defaultStereogramCfg) six palette)
                    (zrange 2);
     source := numbers;
     canvas := NewRGBA (Rect 0 0 8 2) |}.
Definition order : list nat := replicate 12 0%nat ++ replicate 12 1%nat.


(** A row of five pixels with a depth of field of 3/2. *)
Definition wideMu : F64.t := F64.div (F64.of_Z 3) (F64.of_Z 2).
Definition ridge : list (list F64.t) := [[lo]; [lo]; [hi]; [lo]; [lo]].
Definition four : F64.t := F64.of_Z 4.
Definition ridgeStart : state (list Z) :=
  {| workers := map (rowWorker ridge 5 wideMu four [red]) (zrange 1);
     source := [];
     canvas := NewRGBA (Rect 0 0 5 1) |}.

(** Masks: one without pixels, one of 2 x 2 pixels that is transparent
    on its diagonal, and one of 2 x 1 transparent pixels. *)
Definition clear : PixelColor := mkPixel 0 0 0 0.
Definition emptyMask : Image := mkImage (mkRect 0 0 0 0) (fun _ _ => clear).
Definition diagonalMask : Image :=
  mkImage (mkRect 0 0 2 2) (fun x y => if x =? y then clear else rgba8 red).
Definition pairMask : Image := mkImage (mkRect 0 0 2 1) (fun _ _ => clear).

(** The options that make the eye separation one pixel. *)
Definition narrow : list StereogramOption :=
  [WithOutputDPI 1; WithEyeSepartionRatio (F64.of_Z 1)].

End Ex.

(** ** More vocabulary *)



(** The strings of hexadecimal digits, of either case. *)
Definition isHexDigit (c : ascii) : bool :=
  match digitVal c with
  | Some d => d <? 16
  | None => false
  end.

Fixpoint allHex (s : string) : bool :=
  match s with
  | EmptyString => true
  | String c s' => isHexDigit c && allHex s'
  end.

(** The digits that [%X] writes. *)
Definition isUpperHexDigit (c : ascii) : bool :=
  let n := N_of_ascii c in
  (((48 <=? n) && (n <=? 57)) || ((65 <=? n) && (n <=? 70)))%N.

Fixpoint allUpperHex (s : string) : bool :=
  match s with
  | EmptyString => true
  | String c s' => isUpperHexDigit c && allUpperHex s'
  end.

(** The text that [ColorFromHex] gives to [strconv.ParseUint]: the sign
    [#] is taken off, and a text of less than eight bytes is filled with
    the digit F. *)
Definition padded (hex : string) : string :=
  let hex := TrimPrefix hex "#" in
  if (String.length hex <? 8)%nat
  then String.append hex (Repeat "F" (8 - String.length hex))
  else hex.

(** The options that the package makes, and the field that each one
    sets. *)
Inductive Setter : Type :=
  | SetTransparent (color : Color)
  | SetPalette (palette : list Color)
  | SetDPI (dpi : Z)
  | SetRatio (ratio : F64.t).

Inductive Field : Type := FTransparent | FPalette | FDPI | FRatio.

Definition field (s : Setter) : Field :=
  match s with
  | SetTransparent _ => FTransparent
  | SetPalette _ => FPalette
  | SetDPI _ => FDPI
  | SetRatio _ => FRatio
  end.

Definition optionOf (s : Setter) : StereogramOption :=
  match s with
  | SetTransparent c => WithMaskTransparentColor c
  | SetPalette p => WithColorPalette p
  | SetDPI d => WithOutputDPI d
  | SetRatio r => WithEyeSepartionRatio r
  end.

(** [reach same a b]: the links of [same] lead from [a] to [b]. *)
Inductive reach (same : list Z) : Z -> Z -> Prop :=
  | reach_refl a : reach same a a
  | reach_step a k b : idx same a = Done k -> reach same k b -> reach same a b.

(** Two columns whose links meet. *)
Definition joined (same : list Z) (a b : Z) : Prop :=
  exists c, reach same a c /\ reach same b c.

(** The line of sight of a point of depth [z] has left the depths below
    one after at most half a separation. *)
Definition sightEnds (z mu e : F64.t) : bool :=
  existsb (fun t => negb (F64.ltb (sightDepth z mu e t) F64.one))
          (map (Z.add 1) (zrange (projSeparation z mu e / 2))).


(** A worker that does not panic and comes to its end when the numbers
    it is given are below the bounds it gives. *)
Inductive safe {A : Type} : prog A -> Prop :=
  | safe_ret a : safe (Ret a)
  | safe_rand n k :
      0 < n -> (forall v, 0 <= v < n -> safe (k v)) -> safe (RandIntn n k)
  | safe_set x y c k : safe k -> safe (SetPixel x y c k).

(** A worker that sets pixels of the row [y] only. *)
Inductive onRow {A : Type} (y : Z) : prog A -> Prop :=
  | onRow_ret a : onRow y (Ret a)
  | onRow_crash : onRow y Crash
  | onRow_hang : onRow y Hang
  | onRow_rand n k : (forall v, onRow y (k v)) -> onRow y (RandIntn n k)
  | onRow_set x c k : onRow y k -> onRow y (SetPixel x y c k).

(** The columns that a turn of the disparity pass links: the point of
    the column [x] is seen at [left] and at [right]. *)
Definition constraintOf (zBuf : list (list F64.t)) (mu e : F64.t) (y x : Z)
  (left right : Z) : Prop :=
  exists z,
    zAt zBuf x y = Done z
    /\ left = x - Z.quot (projSeparation z mu e
                          + Z.land (Z.land (projSeparation z mu e) y) 1) 2
    /\ right = left + projSeparation z mu e
    /\ isVisible zBuf mu e x y = Done true.

(** A row that has all its depths, with separations that are not
    negative and lines of sight that end in time. *)
Definition rowReady (zBuf : list (list F64.t)) (w : Z) (mu e : F64.t) (y : Z)
  : Prop :=
  forall x, 0 <= x < w ->
    exists z, zAt zBuf x y = Done z
              /\ 0 <= projSeparation z mu e < 2 ^ 62
              /\ sightEnds z mu e = true.

(** The line of sight of a point of depth [z] over a row that has this
    depth everywhere: it is above the row at every turn, until it has
    left the depths below one. *)
Fixpoint sightClear (fuel : nat) (z mu e : F64.t) (t : Z) : bool :=
  match fuel with
  | O => false
  | S fuel' =>
      let zt := sightDepth z mu e t in
      F64.ltb z zt
      && (if F64.ltb zt F64.one then sightClear fuel' z mu e (t + 1) else true)
  end.

Definition flatVisible (z mu e : F64.t) : bool :=
  sightClear (Z.to_nat (projSeparation z mu e / 2)) z mu e 1.

(** The numbers that a worker is given, in the order in which it is. *)
Definition answerOf (rq : request) : option Z :=
  match rq with
  | RqRand _ v => Some v
  | _ => None
  end.

Definition answers (rqs : list request) : list Z := omap answerOf rqs.

(** The workers of a state are each on the row of their number. *)
Definition rowsApart {G : Type} (st : state G) : Prop :=
  forall i p, workers st !! i = Some p -> onRow (Z.of_nat i) p.

(** ** Inputs of more examples *)

Module ExMask.

(** The depth buffer of the mask [Ex.diagonalMask], and the state in
    which its two rows are started with the default configuration. *)
Definition depth : list (list F64.t) := [[Ex.lo; Ex.hi]; [Ex.hi; Ex.lo]].
Definition start (palette : list Color) (numbers : list Z) : state (list Z) :=
  {| workers := map (rowWorker depth 2 (Mu defaultStereogramCfg)
                       (eyeSeparation defaultStereogramCfg) palette)
                    (zrange 2);
     source := numbers;
     canvas := NewRGBA (Rect 0 0 2 2) |}.
Definition numbers : list Z := [11; 22; 33; 44; 55; 66; 77; 88; 99; 110; 121; 132].
Definition order : list nat := replicate 8 0%nat ++ replicate 8 1%nat.


End ExMask.

(** ** The example programs *)

(** What the [main] functions of the examples do between the opening
    of the mask and the writing of the image: they make their options,
    with [MustColorFromHex] for the colours, and call
    [NewStereogramFromMask] with them.  The first example gives no
    option. *)
Module Examples.





End Examples.

(** * Properties *)

(** ** The hexadecimal form of a colour *)

Lemma digitVal_hexDigit (d : Z) :
  0 <= d < 16 -> digitVal (hexDigit d) = Some d.
Proof.
  intros Hd.
  assert (Hcases : d = 0 \/ d = 1 \/ d = 2 \/ d = 3 \/ d = 4 \/ d = 5 \/ d = 6
                   \/ d = 7 \/ d = 8 \/ d = 9 \/ d = 10 \/ d = 11 \/ d = 12
                   \/ d = 13 \/ d = 14 \/ d = 15) by lia.
  repeat (destruct Hcases as [-> | Hcases]; [reflexivity |]).
  subst d. reflexivity.
Qed.

Lemma parseLoop_digit (d n : Z) (rest : string) :
  0 <= d < 16 -> 0 <= n -> n * 16 + d < 2 ^ 32 ->
  parseLoop (String (hexDigit d) rest) n = parseLoop rest (n * 16 + d).
Proof.
  intros Hd Hn Hlt. cbn [parseLoop]. rewrite digitVal_hexDigit by exact Hd.
  assert (H232 : 2 ^ 32 = 4294967296) by reflexivity.
  assert (H260 : 2 ^ 60 = 1152921504606846976) by reflexivity.
  assert (H264 : 2 ^ 64 = 18446744073709551616) by reflexivity.
  rewrite H232 in *. rewrite H260, H264.
  destruct (Z.geb_spec d 16) as [Hge | _]; [lia |].
  destruct (Z.geb_spec n 1152921504606846976) as [Hge | _]; [lia |].
  rewrite (Z.mod_small (n * 16)) by lia.
  rewrite (Z.mod_small (n * 16 + d)) by lia.
  destruct (Z.ltb_spec (n * 16 + d) (n * 16)) as [Hl | _]; [lia |].
  destruct (Z.gtb_spec (n * 16 + d) (4294967296 - 1)) as [Hg | _]; [lia |].
  reflexivity.
Qed.

Lemma parseLoop_fmt02X (v n : Z) (rest : string) :
  0 <= v < 256 -> 0 <= n < 2 ^ 24 ->
  parseLoop (fmt02X v rest) n = parseLoop rest (n * 256 + v).
Proof.
  intros Hv Hn. unfold fmt02X.
  assert (H224 : 2 ^ 24 = 16777216) by reflexivity.
  assert (H232 : 2 ^ 32 = 4294967296) by reflexivity.
  rewrite H224 in Hn.
  assert (Hq : 0 <= v / 16 < 16) by (split; [apply Z.div_pos | apply Z.div_lt_upper_bound]; lia).
  assert (Hr : 0 <= v mod 16 < 16) by (apply Z.mod_pos_bound; lia).
  assert (Hv' : v = 16 * (v / 16) + v mod 16) by (apply Z.div_mod; lia).
  rewrite parseLoop_digit by (rewrite ?H232; lia).
  rewrite parseLoop_digit by (rewrite ?H232; lia).
  f_equal. lia.
Qed.

Lemma Hex_value (c : Color) :
  wfColor c ->
  ParseUint16_32 (TrimPrefix (Hex c) "#")
  = inl (((R c * 256 + G c) * 256 + B c) * 256 + A c).
Proof.
  intros (HR & HG & HB & HA).
  assert (H224 : 2 ^ 24 = 16777216) by reflexivity.
  unfold Hex, TrimPrefix. cbn [String.prefix]. 
  destruct (ascii_dec "#" "#") as [_ | Hne]; [| congruence].
  cbn [String.prefix String.length fmt02X Nat.sub String.substring].
  change (ParseUint16_32 ?s) with (parseLoop s 0).
  change (String (hexDigit (R c / 16)) (String (hexDigit (R c mod 16)) ?s))
    with (fmt02X (R c) s).
  rewrite parseLoop_fmt02X by (rewrite ?H224; lia).
  change (String (hexDigit (G c / 16)) (String (hexDigit (G c mod 16)) ?s))
    with (fmt02X (G c) s).
  rewrite parseLoop_fmt02X by (rewrite ?H224; lia).
  change (String (hexDigit (B c / 16)) (String (hexDigit (B c mod 16)) ?s))
    with (fmt02X (B c) s).
  rewrite parseLoop_fmt02X by (rewrite ?H224; lia).
  change (String (hexDigit (A c / 16)) (String (hexDigit (A c mod 16)) ?s))
    with (fmt02X (A c) s).
  rewrite parseLoop_fmt02X by (rewrite ?H224; lia).
  cbn [parseLoop]. reflexivity.
Qed.

Lemma Hex_length (c : Color) : String.length (TrimPrefix (Hex c) "#") = 8%nat.
Proof.
  unfold Hex, TrimPrefix. cbn [String.prefix].
  destruct (ascii_dec "#" "#") as [_ | Hne]; [| congruence].
  reflexivity.
Qed.

(** C10.  Formatting a colour with [Hex] and parsing the text back with
    [ColorFromHex] succeeds and gives the colour back, channel for
    channel, for each of the 2^32 colours. *)
Theorem ColorFromHex_Hex (c : Color) :
  wfColor c -> ColorFromHex (Hex c) = inl c.
Proof.
  intros Hwf. unfold ColorFromHex.
  rewrite Hex_length. cbn [Nat.ltb Nat.leb].
  rewrite Hex_value by exact Hwf.
  destruct Hwf as (HR & HG & HB & HA). destruct c as [r g b a]. cbn in *.
  unfold uint8. change 255 with (Z.ones 8).
  rewrite !Z.land_ones, !Z.shiftr_div_pow2 by lia.
  change (2 ^ 8) with 256. change (2 ^ 16) with 65536. change (2 ^ 24) with 16777216.
  f_equal; f_equal; Z.div_mod_to_equations; lia.
Qed.

Lemma ColorFromHex_Hex_witness :
  wfColor (mkColor 182 21 0 255)
  /\ ColorFromHex (Hex (mkColor 182 21 0 255)) = inl (mkColor 182 21 0 255).
Proof.
  assert (Hwf : wfColor (mkColor 182 21 0 255)) by (unfold wfColor; cbn; lia).
  split; [exact Hwf | exact (ColorFromHex_Hex _ Hwf)].
Defined.

(** ** Mask pixels *)

(** The conversion brings the 16-bit form [257 * v] of an 8-bit channel
    back to [v]: the 256 values are tried. *)
Lemma chan8_all :
  forallb (fun n => chan8 (257 * Z.of_nat n) =? Z.of_nat n) (seq 0 256) = true.
Proof. vm_compute. reflexivity. Qed.

Lemma chan8_257 (v : Z) : 0 <= v < 256 -> chan8 (257 * v) = v.
Proof.
  intros Hv. pose proof chan8_all as Hall.
  rewrite forallb_forall in Hall.
  specialize (Hall (Z.to_nat v)).
  rewrite Z2Nat.id in Hall by lia.
  apply Z.eqb_eq, Hall, in_seq. lia.
Qed.

Lemma lor_shiftl_8 (v : Z) : 0 <= v < 256 -> Z.lor v (Z.shiftl v 8) = 257 * v.
Proof.
  intros Hv.
  rewrite Z.shiftl_mul_pow2 by lia.
  rewrite <- Z.lxor_lor.
  - rewrite <- Z.add_nocarry_lxor; [change (2 ^ 8) with 256; lia |].
    apply Z.bits_inj'. intros n Hn. rewrite Z.land_spec, Z.bits_0.
    destruct (Z.ltb_spec n 8).
    + rewrite Z.mul_pow2_bits_low by lia. apply andb_false_r.
    + replace (Z.testbit v n) with false; [reflexivity |].
      symmetry. destruct (Z.eq_dec v 0) as [-> | Hnz]; [apply Z.bits_0 |].
      apply Z.bits_above_log2; [lia |].
      apply Z.log2_lt_pow2; [lia |]. 
      apply Z.lt_le_trans with (2 ^ 8); [change (2 ^ 8) with 256; lia |].
      apply Z.pow_le_mono_r; lia.
  - apply Z.bits_inj'. intros n Hn. rewrite Z.land_spec, Z.bits_0.
    destruct (Z.ltb_spec n 8).
    + rewrite Z.mul_pow2_bits_low by lia. apply andb_false_r.
    + replace (Z.testbit v n) with false; [reflexivity |].
      symmetry. destruct (Z.eq_dec v 0) as [-> | Hnz]; [apply Z.bits_0 |].
      apply Z.bits_above_log2; [lia |].
      apply Z.log2_lt_pow2; [lia |]. 
      apply Z.lt_le_trans with (2 ^ 8); [change (2 ^ 8) with 256; lia |].
      apply Z.pow_le_mono_r; lia.
Qed.

(** A pixel that is a [color.RGBA] value is converted to itself. *)
Lemma ColorRGBA_rgba8 (c : Color) : wfColor c -> ColorRGBA (rgba8 c) = c.
Proof.
  intros (HR & HG & HB & HA). destruct c as [r g b a]. cbn in *.
  unfold ColorRGBA, rgba8. cbn.
  rewrite !lor_shiftl_8 by assumption.
  rewrite !chan8_257 by lia. reflexivity.
Qed.

Lemma Equal_iff (c other : Color) :
  Equal c other = true
  <-> R c = R other /\ G c = G other /\ B c = B other /\ A c = A other.
Proof.
  unfold Equal. rewrite !andb_true_iff, !Z.eqb_eq. tauto.
Qed.


(** For a pixel that is itself an 8-bit [color.RGBA] value, this is the
    equality of the pixel and the transparent colour. *)
Lemma isTransparentMaskPixel_rgba8 (p c : Color) :
  wfColor p -> isTransparentMaskPixel (rgba8 p) (Some c) = true <-> p = c.
Proof.
  intros Hwf. cbn [isTransparentMaskPixel].
  rewrite Equal_iff, ColorRGBA_rgba8 by exact Hwf.
  destruct p, c; cbn. split; [intros (-> & -> & -> & ->); reflexivity |].
  intros [= -> -> -> ->]. tauto.
Qed.

(** ** Slices *)

Lemma idx_Done {A : Type} (l : list A) (i : Z) (a : A) :
  idx l i = Done a <-> 0 <= i /\ l !! Z.to_nat i = Some a.
Proof.
  unfold idx. destruct (Z.ltb_spec i 0) as [Hneg | Hpos].
  - split; [discriminate | lia].
  - destruct (l !! Z.to_nat i) as [b |]; split.
    + intros [= ->]. auto.
    + intros [_ [= ->]]. reflexivity.
    + discriminate.
    + intros [_ [=]].
Qed.


Lemma upd_nat {A : Type} (l : list A) (i : nat) (v : A) :
  (i < length l)%nat -> upd l (Z.of_nat i) v = Done (<[i := v]> l).
Proof.
  intros Hi. unfold upd.
  destruct (Z.leb_spec 0 (Z.of_nat i)) as [_ | Hneg]; [| lia].
  destruct (Z.ltb_spec (Z.of_nat i) (Z.of_nat (length l))) as [_ | Hge]; [| lia].
  rewrite Nat2Z.id. reflexivity.
Qed.

Lemma upd_Done {A : Type} (l l' : list A) (i : Z) (v : A) :
  upd l i v = Done l' ->
  0 <= i < Z.of_nat (length l) /\ l' = <[Z.to_nat i := v]> l.
Proof.
  unfold upd.
  destruct (Z.leb_spec 0 i); destruct (Z.ltb_spec i (Z.of_nat (length l)));
    cbn; intros [=]; subst; split; (lia || reflexivity).
Qed.

Lemma make_Done {A : Type} (v : A) (n : Z) :
  0 <= n -> make v n = Done (replicate (Z.to_nat n) v).
Proof.
  intros Hn. unfold make. destruct (Z.ltb_spec n 0); [lia | reflexivity].
Qed.

Lemma zrange_nat (n : nat) : zrange (Z.of_nat n) = map Z.of_nat (seq 0 n).
Proof. unfold zrange. rewrite Nat2Z.id. reflexivity. Qed.

Lemma zrange_to_nat (n : Z) : zrange n = zrange (Z.of_nat (Z.to_nat n)).
Proof. unfold zrange. rewrite Nat2Z.id. reflexivity. Qed.

(** A loop that writes the entries [a], ..., [a + k - 1] of a slice, the
    entry [i] with [v i], when no turn reads what an earlier one wrote. *)
Lemma foldO_fill {A : Type} (body : list A -> Z -> outcome (list A))
  (v : nat -> A) (s0 : list A) (k : nat) :
  forall (a : nat) (s : list A),
    length s = length s0 ->
    (a + k <= length s0)%nat ->
    (forall i, (a <= i)%nat -> s !! i = s0 !! i) ->
    (forall s' i, (a <= i < a + k)%nat -> length s' = length s0 ->
                  s' !! i = s0 !! i ->
                  body s' (Z.of_nat i) = Done (<[i := v i]> s')) ->
    exists s', foldO body s (map Z.of_nat (seq a k)) = Done s'
               /\ length s' = length s0
               /\ (forall i, (a <= i < a + k)%nat -> s' !! i = Some (v i))
               /\ (forall i, (i < a \/ a + k <= i)%nat -> s' !! i = s !! i).
Proof.
  induction k as [| k IH]; intros a s Hlen Hle Hsame Hbody.
  - exists s. cbn. repeat split; auto. intros i Hi. lia.
  - cbn [seq map foldO]. rewrite (Hbody s a) by (auto; lia). cbn.
    destruct (IH (S a) (<[a := v a]> s)) as (s' & Hrun & Hlen' & Hin & Hout).
    + rewrite length_insert. exact Hlen.
    + lia.
    + intros i Hi. rewrite list_lookup_insert_ne by lia. apply Hsame. lia.
    + intros s1 i Hi Hl1 Hs1. apply Hbody; auto. lia.
    + exists s'. split; [exact Hrun |]. split; [exact Hlen' |]. split.
      * intros i Hi. destruct (Nat.eq_dec i a) as [-> | Hne].
        -- rewrite Hout by lia. apply list_lookup_insert_eq. lia.
        -- apply Hin. lia.
      * intros i Hi. rewrite Hout by lia. apply list_lookup_insert_ne. lia.
Qed.

(** A loop that writes every entry of a new slice. *)
Lemma foldO_tabulate {A : Type} (body : list A -> Z -> outcome (list A))
  (v : nat -> A) (d : A) (n : Z) :
  (forall s' i, (i < Z.to_nat n)%nat -> length s' = Z.to_nat n ->
                s' !! i = Some d ->
                body s' (Z.of_nat i) = Done (<[i := v i]> s')) ->
  foldO body (replicate (Z.to_nat n) d) (zrange n)
  = Done (map v (seq 0 (Z.to_nat n))).
Proof.
  intros Hbody. set (s0 := replicate (Z.to_nat n) d).
  assert (Hlen0 : length s0 = Z.to_nat n) by apply length_replicate.
  destruct (foldO_fill body v s0 (Z.to_nat n) 0 s0) as (s & Hrun & Hlen & Hin & _).
  - reflexivity.
  - lia.
  - reflexivity.
  - intros s' i Hi Hl Hs. apply Hbody; [lia | congruence |].
    rewrite Hs. apply lookup_replicate_2. lia.
  - unfold zrange. rewrite Hrun. f_equal.
    apply list_eq. intros i. rewrite list_lookup_fmap.
    destruct (Nat.lt_ge_cases i (Z.to_nat n)) as [Hlt | Hge].
    + rewrite Hin by lia. rewrite lookup_seq_lt by exact Hlt. reflexivity.
    + rewrite lookup_ge_None_2 by lia.
      rewrite lookup_seq_ge by exact Hge. reflexivity.
Qed.

(** ** The depth buffer *)

Lemma depthColumn_Done (img : Image) (tc : option Color) (sizeY x : Z) :
  0 <= sizeY ->
  depthColumn img tc sizeY x
  = Done (map (fun y => maskDepth img tc x (Z.of_nat y)) (seq 0 (Z.to_nat sizeY))).
Proof.
  intros Hy. unfold depthColumn. rewrite make_Done by exact Hy.
  cbn [mbind outcome_bind]. apply foldO_tabulate.
  intros s' i Hi Hl Hs. unfold maskDepth.
  destruct (isTransparentMaskPixel (At img x (Z.of_nat i)) tc).
  - rewrite list_insert_id by exact Hs. reflexivity.
  - apply upd_nat. lia.
Qed.

Lemma newDepthBufferFromImage_Done (img : Image) (tc : option Color) :
  0 <= Dx (Bounds img) -> 0 <= Dy (Bounds img) ->
  newDepthBufferFromImage img tc
  = Done (map (fun x => map (fun y => maskDepth img tc (Z.of_nat x) (Z.of_nat y))
                            (seq 0 (Z.to_nat (Dy (Bounds img)))))
              (seq 0 (Z.to_nat (Dx (Bounds img))))).
Proof.
  intros Hx Hy. unfold newDepthBufferFromImage. rewrite make_Done by exact Hx.
  cbn [mbind outcome_bind].
  apply (foldO_tabulate
           (fun z x => col ← depthColumn img tc (Dy (Bounds img)) x; upd z x col)
           (fun x => map (fun y => maskDepth img tc (Z.of_nat x) (Z.of_nat y))
                         (seq 0 (Z.to_nat (Dy (Bounds img)))))).
  intros s' i Hi Hl Hs. rewrite depthColumn_Done by exact Hy.
  cbn [mbind outcome_bind]. apply upd_nat. lia.
Qed.


(** ** The disparity pass *)

Lemma wrap64_small (z : Z) : - 2 ^ 63 <= z < 2 ^ 63 -> wrap64 z = z.
Proof.
  intros Hz. unfold wrap64.
  assert (H63 : 2 ^ 63 = 9223372036854775808) by reflexivity.
  assert (H64 : 2 ^ 64 = 18446744073709551616) by reflexivity.
  rewrite H63 in *. rewrite H64.
  rewrite Z.mod_small; lia.
Qed.

Lemma land_1_bound (a : Z) : 0 <= Z.land a 1 <= 1.
Proof.
  replace (Z.land a 1) with (a mod 2).
  - pose proof (Z.mod_pos_bound a 2). lia.
  - symmetry. apply (Z.land_ones a 1). lia.
Qed.

(** With a separation that is not negative nothing wraps around, and
    [left] is not to the right of [right]. *)
Lemma separation_edges (s x y w : Z) :
  0 <= s < 2 ^ 62 -> 0 <= x < w -> w <= 2 ^ 62 ->
  exists left,
    wrap64 (x - Z.quot (wrap64 (s + Z.land (Z.land s y) 1)) 2) = left
    /\ wrap64 (left + s) = left + s
    /\ left <= x /\ left <= left + s.
Proof.
  intros Hs Hx Hw.
  pose proof (land_1_bound (Z.land s y)) as Hp.
  set (p := Z.land (Z.land s y) 1) in *.
  assert (H62 : 2 ^ 62 = 4611686018427387904) by reflexivity.
  assert (H63 : 2 ^ 63 = 9223372036854775808) by reflexivity.
  rewrite H62 in *.
  assert (Hq : 0 <= Z.quot (s + p) 2 <= s + p).
  { rewrite Z.quot_div_nonneg by lia. split; [apply Z.div_pos; lia |].
    apply Z.div_le_upper_bound; lia. }
  exists (x - Z.quot (s + p) 2).
  rewrite (wrap64_small (s + p)) by (rewrite H63; lia).
  rewrite (wrap64_small (x - Z.quot (s + p) 2)) by (rewrite H63; lia).
  rewrite (wrap64_small (x - Z.quot (s + p) 2 + s)) by (rewrite H63; lia).
  repeat split; lia.
Qed.

(** A loop whose turns keep an invariant and end: it ends, and it keeps
    the invariant. *)
Lemma foldO_ok {A S : Type} (P : S -> Prop) (f : S -> A -> outcome S)
  (l : list A) :
  (forall s a, In a l -> P s ->
               f s a <> Spin /\ forall s', f s a = Done s' -> P s') ->
  forall s, P s ->
    foldO f s l <> Spin /\ forall s', foldO f s l = Done s' -> P s'.
Proof.
  induction l as [| a l IH]; intros Hstep s Hs; cbn [foldO].
  - split; [discriminate |]. intros s' [= <-]. exact Hs.
  - destruct (Hstep s a (or_introl eq_refl) Hs) as [Hne Hkeep].
    destruct (f s a) as [s1 | |]; cbn [mbind outcome_bind].
    + apply IH; [| apply Hkeep; reflexivity].
      intros s0 a0 Hin. apply Hstep. right. exact Hin.
    + split; [discriminate |]. intros s' [=].
    + contradiction.
Qed.

Lemma in_zrange (x w : Z) : In x (zrange w) <-> 0 <= x < w.
Proof.
  unfold zrange. rewrite in_map_iff. split.
  - intros (n & <- & Hin). apply in_seq in Hin. lia.
  - intros Hx. exists (Z.to_nat x). split; [lia |]. apply in_seq. lia.
Qed.

(** The loop [same[x] = x]. *)
Lemma same_init (w : Z) :
  0 <= w ->
  foldO (fun same x => upd same x x) (replicate (Z.to_nat w) 0) (zrange w)
  = Done (zrange w).
Proof.
  intros Hw. apply (foldO_tabulate (fun same x => upd same x x) Z.of_nat).
  intros s' i Hi Hl _. apply upd_nat. lia.
Qed.

Lemma linked_zrange (w : Z) : 0 <= w -> linked w (zrange w).
Proof.
  intros Hw. unfold linked, zrange. split.
  - rewrite length_map, length_seq. lia.
  - intros i k Hk. rewrite list_lookup_fmap in Hk.
    destruct (seq 0 (Z.to_nat w) !! i) as [n |] eqn:Hn; cbn in Hk; [| discriminate].
    injection Hk as <-. apply lookup_seq in Hn. lia.
Qed.

Lemma linked_idx (w : Z) (same : list Z) (i : Z) :
  linked w same -> 0 <= i < w -> exists k, idx same i = Done k /\ i <= k < w.
Proof.
  intros [Hlen Hfw] Hi.
  destruct (lookup_lt_is_Some_2 same (Z.to_nat i)) as [k Hk]; [lia |].
  exists k. split; [apply idx_Done; split; [lia | exact Hk] |].
  apply Hfw in Hk. lia.
Qed.

Lemma linked_upd (w : Z) (same : list Z) (l r : Z) :
  linked w same -> 0 <= l -> l <= r < w ->
  exists same', upd same l r = Done same' /\ linked w same'.
Proof.
  intros [Hlen Hfw] Hl Hlr. exists (<[Z.to_nat l := r]> same). split.
  - unfold upd.
    destruct (Z.leb_spec 0 l); [| lia].
    destruct (Z.ltb_spec l (Z.of_nat (length same))); [reflexivity | lia].
  - split; [rewrite length_insert; exact Hlen |].
    intros i k Hk. destruct (Nat.eq_dec i (Z.to_nat l)) as [-> | Hne].
    + rewrite list_lookup_insert_eq in Hk by lia. injection Hk as <-. lia.
    + rewrite list_lookup_insert_ne in Hk by congruence. apply Hfw, Hk.
Qed.

(** The link loop ends, and where it ends [left <= right] still holds:
    a turn moves [left] or [right] to the right. *)
Lemma linkLoop_ok (w : Z) (same : list Z) :
  linked w same ->
  forall (fuel : nat) (left right : Z),
    0 <= left <= right -> right < w ->
    2 * w - left - right < Z.of_nat fuel ->
    exists l r, linkLoop fuel same left right = Done (l, r) /\ 0 <= l <= r /\ r < w.
Proof.
  intros Hlk fuel. induction fuel as [| fuel IH]; intros left right Hlr Hr Hfuel.
  - lia.
  - cbn [linkLoop].
    destruct (linked_idx w same left Hlk) as (k & -> & Hk); [lia |].
    cbn [mbind outcome_bind].
    destruct (Z.eqb_spec k left) as [-> | Hkl]; cbn [negb andb].
    { exists left, right. auto. }
    destruct (Z.eqb_spec k right) as [-> | Hkr]; cbn [negb andb].
    { exists left, right. auto. }
    destruct (Z.ltb_spec k right) as [Hlt | Hge].
    + apply IH; lia.
    + apply IH; lia.
Qed.

Lemma linkFuel_enough (w : Z) (same : list Z) (left right : Z) :
  linked w same -> 0 <= left -> 0 <= right -> 1 <= w ->
  2 * w - left - right < Z.of_nat (linkFuel same).
Proof.
  intros [Hlen _] Hl Hr Hw. unfold linkFuel.
  rewrite Nat2Z.inj_succ, Nat2Z.inj_mul, Nat2Z.inj_succ, Hlen. nia.
Qed.

Lemma idx_not_Spin {A : Type} (l : list A) (i : Z) : idx l i <> Spin.
Proof.
  unfold idx. destruct (i <? 0); [discriminate |].
  destruct (l !! Z.to_nat i); discriminate.
Qed.

Lemma zAt_not_Spin (zBuf : list (list F64.t)) (x y : Z) : zAt zBuf x y <> Spin.
Proof.
  unfold zAt. destruct (idx zBuf x) as [col | |] eqn:Hcol; cbn [mbind outcome_bind].
  - apply idx_not_Spin.
  - discriminate.
  - exfalso. exact (idx_not_Spin _ _ Hcol).
Qed.

(** The loop of visibility never runs out of its fuel: the turn [t]
    reads [zBuf[x - t]], which is no entry when [t > x]. *)
Lemma visibleLoop_ends (zBuf : list (list F64.t)) (mu e : F64.t) (x y : Z) :
  forall (fuel : nat) (t : Z),
    (0 < fuel)%nat -> x - t + 1 < Z.of_nat fuel ->
    visibleLoop fuel zBuf mu e x y t <> Spin.
Proof.
  induction fuel as [| fuel IH]; intros t Hpos Hfuel; [lia |].
  cbn [visibleLoop].
  destruct (zAt zBuf x y) as [z | |] eqn:Hz; cbn [mbind outcome_bind];
    [| discriminate | exfalso; exact (zAt_not_Spin _ _ _ Hz)].
  destruct (zAt zBuf (x - t) y) as [zl | |] eqn:Hzl; cbn [mbind outcome_bind];
    [| discriminate | exfalso; exact (zAt_not_Spin _ _ _ Hzl)].
  assert (Ht : t <= x).
  { unfold zAt in Hzl. destruct (idx zBuf (x - t)) as [col | |] eqn:Hcol;
      cbn [mbind outcome_bind] in Hzl; try discriminate.
    apply idx_Done in Hcol. destruct Hcol as [Hge _]. lia. }
  destruct (F64.ltb zl (sightDepth z mu e t)); cbn [mbind outcome_bind andb];
    [| discriminate].
  destruct (zAt zBuf (x + t) y) as [zr | |] eqn:Hzr; cbn [mbind outcome_bind];
    [| discriminate | exfalso; exact (zAt_not_Spin _ _ _ Hzr)].
  destruct (F64.ltb zr (sightDepth z mu e t) && F64.ltb (sightDepth z mu e t) F64.one);
    [apply IH; lia | discriminate].
Qed.

Lemma isVisible_ends (zBuf : list (list F64.t)) (mu e : F64.t) (x y : Z) :
  0 <= x -> isVisible zBuf mu e x y <> Spin.
Proof. intros Hx. apply visibleLoop_ends; lia. Qed.

(** With a separation that is not negative a turn of the disparity pass
    ends, the link loop within its fuel, and the table is still linked
    to the right. *)
Lemma linkStep_ok (zBuf : list (list F64.t)) (w : Z) (mu e : F64.t)
  (y x : Z) (same : list Z) :
  w <= 2 ^ 62 -> 0 <= x < w ->
  (forall z, zAt zBuf x y = Done z -> 0 <= projSeparation z mu e < 2 ^ 62) ->
  linked w same ->
  linkStep zBuf w mu e y same x <> Spin
  /\ forall same', linkStep zBuf w mu e y same x = Done same' -> linked w same'.
Proof.
  intros Hw Hx Hsep Hlk. unfold linkStep.
  destruct (zAt zBuf x y) as [z | |] eqn:Hz; cbn [mbind outcome_bind];
    [| split; [discriminate | intros s' [=]]
     | exfalso; exact (zAt_not_Spin _ _ _ Hz)].
  destruct (separation_edges (projSeparation z mu e) x y w (Hsep z eq_refl) Hx Hw)
    as (left & -> & -> & Hleft & Hright).
  destruct (Z.ltb_spec left 0) as [Hneg | Hpos]; cbn [orb];
    [split; [discriminate | intros s' [= <-]; exact Hlk] |].
  destruct (Z.geb_spec (left + projSeparation z mu e) w) as [Hout | Hin]; cbn [orb];
    [split; [discriminate | intros s' [= <-]; exact Hlk] |].
  destruct (isVisible zBuf mu e x y) as [vis | |] eqn:Hvis; cbn [mbind outcome_bind];
    [| split; [discriminate | intros s' [=]]
     | exfalso; apply (isVisible_ends zBuf mu e x y); [lia | exact Hvis]].
  destruct vis; cbn [negb];
    [| split; [discriminate | intros s' [= <-]; exact Hlk]].
  destruct (linkLoop_ok w same Hlk (linkFuel same) left
              (left + projSeparation z mu e))
    as (l & r & -> & Hlr & Hr); [lia | lia | apply linkFuel_enough; auto; lia |].
  cbn [mbind outcome_bind fst snd].
  destruct (linked_upd w same l r Hlk) as (same1 & -> & Hlk1); [lia | lia |].
  split; [discriminate | intros s' [= <-]; exact Hlk1].
Qed.

Lemma rowLinks_ok (zBuf : list (list F64.t)) (w : Z) (mu e : F64.t) (y : Z) :
  w <= 2 ^ 62 ->
  (forall x z, 0 <= x < w -> zAt zBuf x y = Done z ->
               0 <= projSeparation z mu e < 2 ^ 62) ->
  rowLinks zBuf w mu e y <> Spin
  /\ forall same, rowLinks zBuf w mu e y = Done same -> linked w same.
Proof.
  intros Hw Hsep. unfold rowLinks.
  destruct (Z.ltb_spec w 0) as [Hneg | Hpos].
  { unfold make. destruct (Z.ltb_spec w 0); [| lia].
    cbn [mbind outcome_bind]. split; [discriminate | intros s' [=]]. }
  rewrite make_Done by exact Hpos. cbn [mbind outcome_bind].
  rewrite same_init by exact Hpos. cbn [mbind outcome_bind].
  apply (foldO_ok (linked w)); [| apply linked_zrange; exact Hpos].
  intros s x Hin Hs. apply in_zrange in Hin.
  apply linkStep_ok; auto. intros z Hz. apply (Hsep x z Hin Hz).
Qed.

Lemma rowLinks_linked (zBuf : list (list F64.t)) (w : Z) (mu e : F64.t)
  (y : Z) (same : list Z) :
  w <= 2 ^ 62 ->
  (forall x z, 0 <= x < w -> zAt zBuf x y = Done z ->
               0 <= projSeparation z mu e < 2 ^ 62) ->
  rowLinks zBuf w mu e y = Done same ->
  linked w same.
Proof. intros Hw Hsep. apply (rowLinks_ok zBuf w mu e y Hw Hsep). Qed.

Lemma rowLinks_ends (zBuf : list (list F64.t)) (w : Z) (mu e : F64.t) (y : Z) :
  w <= 2 ^ 62 ->
  (forall x z, 0 <= x < w -> zAt zBuf x y = Done z ->
               0 <= projSeparation z mu e < 2 ^ 62) ->
  rowLinks zBuf w mu e y <> Spin.
Proof. intros Hw Hsep. apply (rowLinks_ok zBuf w mu e y Hw Hsep). Qed.

(** ** The requests of a worker *)

Lemma path_Crash {A : Type} (rqs : list request) (p : prog A) :
  path Crash rqs p -> rqs = [] /\ p = Crash.
Proof. intros H. inversion H; subst. auto. Qed.

Lemma path_Hang {A : Type} (rqs : list request) (p : prog A) :
  path Hang rqs p -> rqs = [] /\ p = Hang.
Proof. intros H. inversion H; subst. auto. Qed.

Lemma path_Ret {A : Type} (a : A) (rqs : list request) (p : prog A) :
  path (Ret a) rqs p -> rqs = [] /\ p = Ret a.
Proof. intros H. inversion H; subst. auto. Qed.

Lemma path_SetPixel {A : Type} (x y : Z) (c : Color) (k : prog A)
  (rqs : list request) (a : A) :
  path (SetPixel x y c k) rqs (Ret a) ->
  exists r, rqs = RqSet x y c :: r /\ path k r (Ret a).
Proof.
  intros H. inversion H as [| | | x' y' c' k' r p' Hk]; subst.
  exists r. auto.
Qed.

Lemma path_liftO {A : Type} (o : outcome A) (rqs : list request) (a : A) :
  path (liftO o) rqs (Ret a) -> o = Done a /\ rqs = [].
Proof.
  destruct o as [a' | |]; cbn; intros H.
  - apply path_Ret in H. destruct H as [-> [= ->]]. auto.
  - apply path_Crash in H. destruct H as [_ [=]].
  - apply path_Hang in H. destruct H as [_ [=]].
Qed.

Lemma path_bind_inv {A B : Type} (m : prog A) (f : A -> prog B)
  (rqs : list request) (b : B) :
  path (m ≫= f) rqs (Ret b) ->
  exists a r1 r2, rqs = r1 ++ r2 /\ path m r1 (Ret a) /\ path (f a) r2 (Ret b).
Proof.
  revert rqs. induction m as [a | | | n k IH | x y c k IH]; intros rqs Hp;
    cbn [mbind prog_mbind prog_bind] in Hp.
  - exists a, [], rqs. repeat split; [constructor | exact Hp].
  - apply path_Crash in Hp. destruct Hp as [_ [=]].
  - apply path_Hang in Hp. destruct Hp as [_ [=]].
  - inversion Hp as [| n' k' v rq1 p1 Hn Hk | n' k' rq1 p1 Hn Hk |]; subst.
    + destruct (IH v rq1 Hk) as (a & r1 & r2 & -> & H1 & H2).
      exists a, (RqRand n v :: r1), r2. repeat split; [| exact H2].
      constructor; assumption.
    + apply path_Crash in Hk. destruct Hk as [_ [=]].
  - inversion Hp as [| | | x' y' c' k' rq1 p1 Hk]; subst.
    destruct (IH rq1 Hk) as (a & r1 & r2 & -> & H1 & H2).
    exists a, (RqSet x y c :: r1), r2. repeat split; [| exact H2].
    constructor; assumption.
Qed.

Lemma sets_app (r1 r2 : list request) : sets (r1 ++ r2) = sets r1 ++ sets r2.
Proof. unfold sets. apply omap_app. Qed.

Lemma getRandomPaletteColor_path (palette : list Color) (rqs : list request)
  (c : Color) :
  path (getRandomPaletteColor palette) rqs (Ret c) ->
  provided palette c /\ sets rqs = [].
Proof.
  unfold getRandomPaletteColor. destruct palette as [| c0 palette].
  - cbn [length Nat.eqb]. intros H.
    inversion H as [| n k r rq1 p1 _ H1 | n k rq1 p1 Hn H1 |]; subst;
      [| apply path_Crash in H1; destruct H1 as [_ [=]]].
    inversion H1 as [| n k g rq2 p2 _ H2 | n k rq2 p2 Hn H2 |]; subst;
      [| apply path_Crash in H2; destruct H2 as [_ [=]]].
    inversion H2 as [| n k b rq3 p3 _ H3 | n k rq3 p3 Hn H3 |]; subst;
      [| apply path_Crash in H3; destruct H3 as [_ [=]]].
    apply path_Ret in H3. destruct H3 as [-> [= ->]].
    split; [exists r, g, b; reflexivity | reflexivity].
  - cbn [length Nat.eqb]. intros H.
    inversion H as [| n k v rq1 p1 _ H1 | n k rq1 p1 Hn H1 |]; subst;
      [| apply path_Crash in H1; destruct H1 as [_ [=]]].
    apply path_liftO in H1. destruct H1 as [Hidx ->].
    apply idx_Done in Hidx. destruct Hidx as [_ Hl].
    split; [| reflexivity]. cbn [provided].
    apply list_elem_of_In. eapply list_elem_of_lookup_2. exact Hl.
Qed.

Lemma Color_RGBA_id (c : Color) : Color_RGBA c = c.
Proof. destruct c. reflexivity. Qed.

Lemma reverse_zrange_S (n : nat) :
  reverse (zrange (Z.of_nat (S n))) = Z.of_nat n :: reverse (zrange (Z.of_nat n)).
Proof.
  rewrite !zrange_nat, seq_S, map_app, reverse_app. reflexivity.
Qed.

Lemma reverse_seq_S (n : nat) : reverse (seq 0 (S n)) = n :: reverse (seq 0 n).
Proof. rewrite seq_S, reverse_app. reflexivity. Qed.

(** What a colouring pass that returns has done: it has set the columns
    from right to left, each one once, with the colour that the column
    has in the slice [pixels] at the end; a column that is linked to
    itself has a colour of the colour provider, a column linked to the
    right has the colour of that column, and a column linked to the left
    has what the slice held there at the start. *)
Lemma colorLoop_path (palette : list Color) (same : list Z) (y : Z) (w : nat) :
  forall (n : nat) (P : list Color) (rqs : list request),
    (n <= w)%nat -> length P = w ->
    path (colorLoop palette same y (reverse (zrange (Z.of_nat n))) P) rqs (Ret tt) ->
    exists P',
      length P' = w
      /\ (forall j, (n <= j)%nat -> P' !! j = P !! j)
      /\ sets rqs = map (fun x => (Z.of_nat x, y, default zeroColor (P' !! x)))
                        (reverse (seq 0 n))
      /\ (forall x, (x < n)%nat ->
            exists sx c,
              same !! x = Some (Z.of_nat sx) /\ (sx < w)%nat /\ P' !! x = Some c
              /\ (sx = x -> provided palette c)
              /\ ((x < sx)%nat -> P' !! sx = Some c)
              /\ ((sx < x)%nat -> P !! sx = Some c)).
Proof.
  induction n as [| n IH]; intros P rqs Hn HP Hpath.
  - cbn in Hpath. apply path_Ret in Hpath. destruct Hpath as [-> _].
    exists P. repeat split; auto. intros x Hx. lia.
  - rewrite reverse_zrange_S in Hpath. cbn [colorLoop] in Hpath.
    apply path_bind_inv in Hpath.
    destruct Hpath as (sx & r1 & r2 & -> & H1 & Hpath).
    apply path_liftO in H1. destruct H1 as [Hsx ->].
    apply path_bind_inv in Hpath.
    destruct Hpath as (c0 & r1 & r3 & -> & H1 & Hpath).
    apply path_liftO in H1. destruct H1 as [Hc0 ->].
    apply path_bind_inv in Hpath.
    destruct Hpath as (P1 & r1 & r4 & -> & H1 & Hpath).
    apply path_liftO in H1. destruct H1 as [HP1 ->].
    apply path_bind_inv in Hpath.
    destruct Hpath as (P2 & r5 & r6 & -> & Hmid & Hpath).
    apply path_bind_inv in Hpath.
    destruct Hpath as (px & r1 & r7 & -> & H1 & Hpath).
    apply path_liftO in H1. destruct H1 as [Hpx ->].
    cbn [app]. 
    rewrite Color_RGBA_id in Hpath.
    apply path_SetPixel in Hpath. destruct Hpath as (r8 & -> & Hrest).
    apply idx_Done in Hsx. destruct Hsx as [_ Hsx]. rewrite Nat2Z.id in Hsx.
    apply idx_Done in Hc0. destruct Hc0 as [Hsx0 Hc0].
    apply upd_Done in HP1. destruct HP1 as [_ ->]. rewrite Nat2Z.id in *.
    assert (Hsxw : (Z.to_nat sx < length P)%nat).
    { apply lookup_lt_is_Some. eauto. }
    (* the colour of the column *)
    assert (Hcol : exists c, P2 = <[n := c]> P /\ sets r5 = []
                             /\ (sx = Z.of_nat n -> provided palette c)
                             /\ (sx <> Z.of_nat n -> c = c0)).
    { destruct (Z.eqb_spec sx (Z.of_nat n)) as [Heq | Hne].
      - apply path_bind_inv in Hmid.
        destruct Hmid as (c & r1 & r2 & -> & Hc & Hupd).
        apply getRandomPaletteColor_path in Hc. destruct Hc as [Hfresh Hs1].
        apply path_liftO in Hupd. destruct Hupd as [Hupd ->].
        apply upd_Done in Hupd. destruct Hupd as [_ ->]. rewrite Nat2Z.id.
        exists c. rewrite list_insert_insert_eq, app_nil_r. 
        repeat split; auto. intros Hne. contradiction.
      - apply path_Ret in Hmid. destruct Hmid as [-> [= ->]].
        exists c0. repeat split; auto. intros Heq. contradiction. }
    destruct Hcol as (c & -> & Hs5 & Hfresh & Hcopy).
    apply idx_Done in Hpx. destruct Hpx as [_ Hpx]. rewrite Nat2Z.id in Hpx.
    rewrite list_lookup_insert_eq in Hpx by lia. injection Hpx as <-.
    destruct (IH (<[n := c]> P) r8) as (P' & HlenP' & Hkeep & Hsets & Hcols).
    + lia.
    + rewrite length_insert. exact HP.
    + exact Hrest.
    + assert (HP'n : P' !! n = Some c).
      { rewrite Hkeep by lia. apply list_lookup_insert_eq. lia. }
      exists P'. split; [exact HlenP' |]. split; [| split].
      * intros j Hj. rewrite Hkeep by lia. apply list_lookup_insert_ne. lia.
      * rewrite sets_app, Hs5. cbn [app].
        change (sets (RqSet (Z.of_nat n) y c :: r8))
          with ((Z.of_nat n, y, c) :: sets r8).
        rewrite reverse_seq_S. cbn [map]. rewrite HP'n.
        change (default zeroColor (Some c)) with c.
        f_equal. exact Hsets.
      * intros x Hx. destruct (Nat.eq_dec x n) as [-> | Hxn].
        -- exists (Z.to_nat sx), c. rewrite Z2Nat.id by lia.
           split; [exact Hsx |]. split; [lia |]. split; [exact HP'n |].
           split; [intros Heq; apply Hfresh; lia |]. split.
           ++ intros Hlt. rewrite Hkeep by lia.
              rewrite list_lookup_insert_ne by lia.
              rewrite Hc0. f_equal. symmetry. apply Hcopy. lia.
           ++ intros Hlt. rewrite Hc0. f_equal. symmetry. apply Hcopy. lia.
        -- destruct (Hcols x) as (sx' & c' & Hs' & Hw' & Hc' & Hf' & Hr' & Hl');
             [lia |].
           exists sx', c'. repeat split; auto.
           intros Hlt. rewrite <- Hl' by exact Hlt.
           symmetry. apply list_lookup_insert_ne. lia.
Qed.

(** What the worker of a row has done when it returns. *)
Lemma rowWorker_path (zBuf : list (list F64.t)) (w : Z) (mu e : F64.t)
  (palette : list Color) (y : Z) (rqs : list request) :
  path (rowWorker zBuf w mu e palette y) rqs (Ret tt) ->
  exists same P,
    rowLinks zBuf w mu e y = Done same
    /\ 0 <= w
    /\ length P = Z.to_nat w
    /\ sets rqs = map (fun x => (Z.of_nat x, y, default zeroColor (P !! x)))
                      (reverse (seq 0 (Z.to_nat w)))
    /\ (forall x, (x < Z.to_nat w)%nat ->
          exists sx c,
            same !! x = Some (Z.of_nat sx) /\ (sx < Z.to_nat w)%nat
            /\ P !! x = Some c
            /\ (sx = x -> provided palette c)
            /\ ((x < sx)%nat -> P !! sx = Some c)
            /\ ((sx < x)%nat -> c = zeroColor)).
Proof.
  unfold rowWorker. intros Hpath.
  apply path_bind_inv in Hpath. destruct Hpath as (same & r1 & r2 & -> & H1 & Hpath).
  apply path_liftO in H1. destruct H1 as [Hsame ->].
  apply path_bind_inv in Hpath. destruct Hpath as (P0 & r1 & r3 & -> & H1 & Hpath).
  apply path_liftO in H1. destruct H1 as [HP0 ->]. cbn [app].
  assert (Hw : 0 <= w).
  { unfold make in HP0. destruct (Z.ltb_spec w 0); [discriminate | assumption]. }
  rewrite make_Done in HP0 by exact Hw. injection HP0 as <-.
  rewrite zrange_to_nat in Hpath.
  destruct (colorLoop_path palette same y (Z.to_nat w) (Z.to_nat w)
              (replicate (Z.to_nat w) zeroColor) r3)
    as (P & HlenP & _ & Hsets & Hcols).
  - lia.
  - apply length_replicate.
  - exact Hpath.
  - exists same, P. repeat split; auto.
    intros x Hx. destruct (Hcols x Hx) as (sx & c & Hs & Hsw & Hc & Hf & Hr & Hl).
    exists sx, c. repeat split; auto.
    intros Hlt. specialize (Hl Hlt).
    rewrite lookup_replicate in Hl. destruct Hl as [Hl _]. congruence.
Qed.

(** ** Images *)

Lemma wfRGBA_NewRGBA (r : Rectangle) : wfRGBA (NewRGBA r).
Proof.
  unfold wfRGBA, NewRGBA. cbn. split.
  - apply length_replicate.
  - apply Forall_forall. intros row Hin.
    apply elem_of_replicate in Hin. destruct Hin as [-> _]. apply length_replicate.
Qed.

Lemma imRect_SetRGBA (im : RGBA) (x y : Z) (c : Color) :
  imRect (SetRGBA im x y c) = imRect im.
Proof. unfold SetRGBA. destruct (inRect x y (imRect im)); reflexivity. Qed.

Lemma wfRGBA_SetRGBA (im : RGBA) (x y : Z) (c : Color) :
  wfRGBA im -> wfRGBA (SetRGBA im x y c).
Proof.
  intros [Hlen Hrows]. unfold wfRGBA. rewrite imRect_SetRGBA.
  unfold SetRGBA. destruct (inRect x y (imRect im)); [| split; assumption].
  cbn. split; [rewrite length_alter; exact Hlen |].
  apply Forall_alter; [exact Hrows |].
  intros row _ Hrow. rewrite length_insert. exact Hrow.
Qed.

Lemma inRect_bounds (x y : Z) (r : Rectangle) :
  inRect x y r = true <-> MinX r <= x < MaxX r /\ MinY r <= y < MaxY r.
Proof.
  unfold inRect. rewrite !andb_true_iff, !Z.leb_le, !Z.ltb_lt. lia.
Qed.

Lemma RGBAAt_SetRGBA (im : RGBA) (x y x' y' : Z) (c : Color) :
  wfRGBA im -> inRect x' y' (imRect im) = true ->
  RGBAAt (SetRGBA im x y c) x' y'
  = if (x =? x') && (y =? y') then c else RGBAAt im x' y'.
Proof.
  intros [Hlen Hrows] Hin'. unfold RGBAAt. rewrite imRect_SetRGBA, Hin'.
  unfold SetRGBA. destruct (inRect x y (imRect im)) eqn:Hin.
  - cbn [Pix imRect]. apply inRect_bounds in Hin, Hin'.
    unfold Dx, Dy in *.
    destruct (Z.eqb_spec y y') as [-> | Hy].
    + rewrite list_lookup_alter_eq.
      destruct (Pix im !! Z.to_nat (y' - MinY (imRect im))) as [row |] eqn:Hrow.
      * cbn. destruct (Z.eqb_spec x x') as [-> | Hx]; cbn [andb].
        -- rewrite list_lookup_insert_eq; [reflexivity |].
           rewrite Forall_forall in Hrows.
           rewrite (Hrows row); [lia |].
           eapply list_elem_of_lookup_2. exact Hrow.
        -- rewrite list_lookup_insert_ne by lia. reflexivity.
      * exfalso. apply lookup_ge_None in Hrow. lia.
    + rewrite andb_false_r. rewrite list_lookup_alter_ne by lia. reflexivity.
  - destruct ((x =? x') && (y =? y')) eqn:Heq; [| reflexivity].
    apply andb_true_iff in Heq. destruct Heq as [Hx Hy].
    apply Z.eqb_eq in Hx, Hy. subst. congruence.
Qed.

Lemma imRect_paint (l : list (Z * Z * Color)) (im : RGBA) :
  imRect (paint im l) = imRect im.
Proof.
  revert im. induction l as [| s l IH]; intros im; cbn; [reflexivity |].
  unfold paint in IH. rewrite IH. apply imRect_SetRGBA.
Qed.

Lemma wfRGBA_paint (l : list (Z * Z * Color)) (im : RGBA) :
  wfRGBA im -> wfRGBA (paint im l).
Proof.
  revert im. induction l as [| s l IH]; intros im Hwf; cbn; [exact Hwf |].
  apply IH, wfRGBA_SetRGBA, Hwf.
Qed.

Lemma setsAt_cons (x y : Z) (s : Z * Z * Color) (l : list (Z * Z * Color)) :
  setsAt x y (s :: l)
  = if (fst (fst s) =? x) && (snd (fst s) =? y) then snd s :: setsAt x y l
    else setsAt x y l.
Proof.
  unfold setsAt. cbn. destruct ((fst (fst s) =? x) && (snd (fst s) =? y)); reflexivity.
Qed.

(** A pixel of the rectangle has the last colour that it was given. *)
Lemma RGBAAt_paint (l : list (Z * Z * Color)) (im : RGBA) (x y : Z) :
  wfRGBA im -> inRect x y (imRect im) = true ->
  RGBAAt (paint im l) x y = default (RGBAAt im x y) (last (setsAt x y l)).
Proof.
  revert im. induction l as [| s l IH]; intros im Hwf Hin; [reflexivity |].
  change (paint im (s :: l))
    with (paint (SetRGBA im (fst (fst s)) (snd (fst s)) (snd s)) l).
  rewrite IH by (rewrite ?imRect_SetRGBA; auto using wfRGBA_SetRGBA).
  rewrite RGBAAt_SetRGBA by assumption. rewrite setsAt_cons.
  destruct ((fst (fst s) =? x) && (snd (fst s) =? y)); [| reflexivity].
  rewrite last_cons. destruct (last (setsAt x y l)); reflexivity.
Qed.

Lemma setsAt_column (y : Z) (g : nat -> Color) (x n : nat) :
  setsAt (Z.of_nat x) y (map (fun x' => (Z.of_nat x', y, g x')) (reverse (seq 0 n)))
  = if (x <? n)%nat then [g x] else [].
Proof.
  induction n as [| n IH]; [reflexivity |].
  rewrite reverse_seq_S. cbn [map]. rewrite setsAt_cons. cbn [fst snd].
  rewrite Z.eqb_refl, andb_true_r, IH.
  destruct (Z.eqb_spec (Z.of_nat n) (Z.of_nat x)) as [Heq | Hne].
  - apply Nat2Z.inj in Heq. subst n.
    destruct (Nat.ltb_spec x x); [lia |].
    destruct (Nat.ltb_spec x (S x)); [reflexivity | lia].
  - destruct (Nat.ltb_spec x n); destruct (Nat.ltb_spec x (S n)); (reflexivity || lia).
Qed.

Lemma setsAt_other_row (y y' : Z) (g : nat -> Color) (x : Z) (l : list nat) :
  y <> y' -> setsAt x y' (map (fun x' => (Z.of_nat x', y, g x')) l) = [].
Proof.
  intros Hy. induction l as [| a l IH]; [reflexivity |].
  cbn [map]. rewrite setsAt_cons. cbn [fst snd].
  destruct (Z.eqb_spec y y'); [contradiction |]. rewrite andb_false_r. exact IH.
Qed.

(** ** Executions *)

Section Executions.

Context {G : Type} (randIntn : G -> Z -> Z * G).

Lemma step_length (st st' : state G) (ev : event) :
  step randIntn st ev st' -> length (workers st') = length (workers st).
Proof. intros H. destruct H; cbn; apply length_insert. Qed.

Lemma step_who (st st' : state G) (ev : event) :
  step randIntn st ev st' -> (who ev < length (workers st))%nat.
Proof.
  intros H. destruct H as [st i n k Hi _ | st i n k Hi _ | st i x y c k Hi]; cbn;
    apply lookup_lt_is_Some; eauto.
Qed.

Lemma steps_length (st st' : state G) (tr : list event) :
  steps randIntn st tr st' -> length (workers st') = length (workers st).
Proof.
  induction 1 as [st | st ev st1 tr st2 Hstep _ IH]; [reflexivity |].
  rewrite IH. eapply step_length, Hstep.
Qed.

Lemma steps_who (st st' : state G) (tr : list event) :
  steps randIntn st tr st' ->
  forall ev, In ev tr -> (who ev < length (workers st))%nat.
Proof.
  induction 1 as [st | st ev st1 tr st2 Hstep _ IH]; intros ev' Hin.
  - destruct Hin.
  - destruct Hin as [<- | Hin]; [eapply step_who, Hstep |].
    rewrite <- (step_length _ _ _ Hstep). apply IH, Hin.
Qed.

Lemma step_other (st st' : state G) (ev : event) (i : nat) :
  step randIntn st ev st' -> who ev <> i -> workers st' !! i = workers st !! i.
Proof.
  intros H Hne. destruct H; cbn in *; apply list_lookup_insert_ne; exact Hne.
Qed.

(** The image changes by the pixels that are set. *)
Lemma steps_canvas (st st' : state G) (tr : list event) :
  steps randIntn st tr st' -> canvas st' = paint (canvas st) (allSets tr).
Proof.
  induction 1 as [st | st ev st1 tr st2 Hstep _ IH]; [reflexivity |].
  rewrite IH. destruct Hstep; reflexivity.
Qed.

(** A worker that has panicked stays so. *)
Lemma steps_Crash (st st' : state G) (tr : list event) (i : nat) :
  steps randIntn st tr st' ->
  workers st !! i = Some Crash -> workers st' !! i = Some Crash.
Proof.
  induction 1 as [st | st ev st1 tr st2 Hstep _ IH]; intros Hi; [exact Hi |].
  apply IH. destruct (Nat.eq_dec (who ev) i) as [Heq | Hne].
  - destruct Hstep as [st j n k Hj _ | st j n k Hj _ | st j x y c k Hj];
      cbn in Heq; subst j; congruence.
  - rewrite (step_other _ _ _ _ Hstep Hne). exact Hi.
Qed.

Lemma requestsOf_cons_eq (ev : event) (tr : list event) :
  requestsOf (who ev) (ev :: tr) = requestOf ev :: requestsOf (who ev) tr.
Proof. unfold requestsOf. cbn. rewrite Nat.eqb_refl. reflexivity. Qed.

Lemma requestsOf_cons_ne (ev : event) (tr : list event) (i : nat) :
  who ev <> i -> requestsOf i (ev :: tr) = requestsOf i tr.
Proof.
  intros Hne. unfold requestsOf. cbn.
  destruct (Nat.eqb_spec (who ev) i); [contradiction | reflexivity].
Qed.

(** The events of one worker are a path of that worker. *)
Lemma steps_path (st st' : state G) (tr : list event) :
  steps randIntn st tr st' ->
  forall i p, workers st !! i = Some p ->
    exists p', workers st' !! i = Some p' /\ path p (requestsOf i tr) p'.
Proof.
  induction 1 as [st | st ev st1 tr st2 Hstep _ IH]; intros i p Hi.
  - exists p. split; [exact Hi | constructor].
  - destruct (Nat.eq_dec (who ev) i) as [Heq | Hne].
    + subst i. rewrite requestsOf_cons_eq.
      destruct Hstep as [st j n k Hj Hn | st j n k Hj Hn | st j x y c k Hj];
        cbn [who requestOf] in *; rewrite Hj in Hi; injection Hi as <-.
      * destruct (IH j (k (fst (randIntn (source st) n)))) as (p' & Hp' & Hpath).
        { cbn. apply list_lookup_insert_eq. apply lookup_lt_is_Some. eauto. }
        exists p'. split; [exact Hp' |].
        constructor; [exact Hn | exact Hpath].
      * destruct (IH j Crash) as (p' & Hp' & Hpath).
        { cbn. apply list_lookup_insert_eq. apply lookup_lt_is_Some. eauto. }
        exists p'. split; [exact Hp' |]. constructor; [exact Hn | exact Hpath].
      * destruct (IH j k) as (p' & Hp' & Hpath).
        { cbn. apply list_lookup_insert_eq. apply lookup_lt_is_Some. eauto. }
        exists p'. split; [exact Hp' |]. constructor. exact Hpath.
    + rewrite requestsOf_cons_ne by exact Hne. apply IH.
      rewrite (step_other _ _ _ _ Hstep Hne). exact Hi.
Qed.



(** The function [run] is an execution. *)
Lemma serve_step (st : state G) (i : nat) :
  match served randIntn st i with
  | Some ev => step randIntn st ev (serve randIntn st i)
  | None => serve randIntn st i = st
  end.
Proof.
  unfold served, serve.
  destruct (workers st !! i) as [[a | | | n k | x y c k] |] eqn:Hi; try reflexivity.
  - destruct (Z.ltb_spec 0 n).
    + apply step_rand; assumption.
    + eapply step_rand_panic; eassumption.
  - apply step_set. exact Hi.
Qed.

Lemma run_steps (order : list nat) (st : state G) :
  steps randIntn st (runTrace randIntn st order) (run randIntn st order).
Proof.
  revert st. induction order as [| i order IH]; intros st; [constructor |].
  cbn [runTrace run fold_left]. pose proof (serve_step st i) as Hs.
  destruct (served randIntn st i) as [ev |].
  - econstructor; [exact Hs | apply IH].
  - rewrite Hs. apply IH.
Qed.

Lemma finishedb_finished (st : state G) :
  finishedb st = true -> finished st.
Proof.
  unfold finishedb, finished. intros H. apply Forall_forall. intros p Hp.
  rewrite forallb_forall in H. apply list_elem_of_In in Hp.
  specialize (H p Hp). destruct p as [[] | | | |]; (reflexivity || discriminate).
Qed.

Lemma run_drawn (st : state G) (order : list nat) :
  finishedb (run randIntn st order) = true ->
  drawn randIntn (Done st) (runTrace randIntn st order)
    (canvas (run randIntn st order)).
Proof.
  intros H. constructor; [apply run_steps | apply finishedb_finished, H].
Qed.

End Executions.

(** ** The image that is returned *)

Lemma sets_requestsOf_In (tr : list event) (ev : event) (x y : Z) (c : Color) :
  In ev tr -> requestOf ev = RqSet x y c ->
  In (x, y, c) (sets (requestsOf (who ev) tr)).
Proof.
  intros Hin Hrq. unfold sets, requestsOf.
  apply list_elem_of_In, list_elem_of_omap. exists (RqSet x y c).
  split; [| reflexivity]. rewrite <- Hrq.
  apply list_elem_of_In, in_map, filter_In. split; [exact Hin |].
  apply Nat.eqb_refl.
Qed.

Lemma allSets_cons (ev : event) (tr : list event) :
  allSets (ev :: tr)
  = match setOf (requestOf ev) with
    | Some s => s :: allSets tr
    | None => allSets tr
    end.
Proof. unfold allSets, sets. cbn. destruct (setOf (requestOf ev)); reflexivity. Qed.

Lemma sets_cons (rq : request) (rqs : list request) :
  sets (rq :: rqs)
  = match setOf rq with
    | Some s => s :: sets rqs
    | None => sets rqs
    end.
Proof. unfold sets. cbn. destruct (setOf rq); reflexivity. Qed.

(** When every worker sets pixels of its own row only, what a pixel is
    given is what the worker of its row gives it. *)
Lemma setsAt_allSets (tr : list event) (i : nat) (x : Z) :
  (forall ev x' y' c, In ev tr -> requestOf ev = RqSet x' y' c ->
                      y' = Z.of_nat (who ev)) ->
  setsAt x (Z.of_nat i) (allSets tr)
  = setsAt x (Z.of_nat i) (sets (requestsOf i tr)).
Proof.
  induction tr as [| ev tr IH]; intros Hrow; [reflexivity |].
  assert (IH' := IH (fun ev x' y' c Hin => Hrow ev x' y' c (or_intror Hin))).
  rewrite allSets_cons.
  destruct (Nat.eq_dec (who ev) i) as [Heq | Hne].
  - subst i. rewrite requestsOf_cons_eq, sets_cons.
    destruct (setOf (requestOf ev)) as [s |]; [| exact IH'].
    rewrite !setsAt_cons, IH'. reflexivity.
  - rewrite requestsOf_cons_ne by exact Hne.
    destruct ev as [j n v | j x' y' c | j]; cbn [requestOf setOf]; try exact IH'.
    rewrite setsAt_cons. cbn [fst snd].
    rewrite (Hrow (EvSet j x' y' c) x' y' c (or_introl eq_refl) eq_refl).
    cbn [who] in *.
    destruct (Z.eqb_spec (Z.of_nat j) (Z.of_nat i)) as [Heq | _]; [lia |].
    rewrite andb_false_r. exact IH'.
Qed.

Lemma Rect_origin (w h : Z) :
  0 <= w -> 0 <= h -> Rect 0 0 w h = mkRect 0 0 w h.
Proof. intros Hw Hh. unfold Rect. f_equal; lia. Qed.

Section Returned.

Context {G : Type} (randIntn : G -> Z -> Z * G).

(** When the image is returned every worker has returned. *)
Lemma drawn_workers (zBuf : list (list F64.t)) (w h : Z) (mu e : F64.t)
  (palette : list Color) (g : G) (tr : list event) (img : RGBA) :
  drawn randIntn (drawAutoStereogram zBuf w h mu e palette g) tr img ->
  0 <= h
  /\ img = paint (NewRGBA (Rect 0 0 w h)) (allSets tr)
  /\ (forall ev, In ev tr -> (who ev < Z.to_nat h)%nat)
  /\ forall i, (i < Z.to_nat h)%nat ->
       path (rowWorker zBuf w mu e palette (Z.of_nat i)) (requestsOf i tr) (Ret tt).
Proof.
  intros Hd. unfold drawAutoStereogram in Hd.
  destruct (Z.ltb_spec h 0) as [Hneg | Hh]; [inversion Hd |].
  inversion Hd as [st tr' st' Hsteps Hfin Hst Htr Himg]; subst.
  split; [exact Hh |].
  pose proof (steps_canvas randIntn _ _ _ Hsteps) as Hcanvas. cbn [canvas] in Hcanvas.
  split; [exact Hcanvas |]. split.
  - intros ev Hin. pose proof (steps_who randIntn _ _ _ Hsteps ev Hin) as Hlt.
    cbn [workers] in Hlt. unfold zrange in Hlt.
    rewrite length_map, length_map, length_seq in Hlt. exact Hlt.
  - intros i Hi.
    destruct (steps_path randIntn _ _ _ Hsteps i
                (rowWorker zBuf w mu e palette (Z.of_nat i)))
      as (p' & Hp' & Hpath).
    + cbn [workers]. unfold zrange. rewrite !list_lookup_fmap.
      rewrite lookup_seq_lt by exact Hi. reflexivity.
    + unfold finished in Hfin. rewrite Forall_forall in Hfin.
      rewrite (Hfin p') in Hpath; [exact Hpath |].
      eapply list_elem_of_lookup_2. exact Hp'.
Qed.

(** A worker sets pixels of its row, and of the image. *)
Lemma drawn_sets_inside (zBuf : list (list F64.t)) (w h : Z) (mu e : F64.t)
  (palette : list Color) (g : G) (tr : list event) (img : RGBA) :
  drawn randIntn (drawAutoStereogram zBuf w h mu e palette g) tr img ->
  forall ev x y c, In ev tr -> requestOf ev = RqSet x y c ->
    y = Z.of_nat (who ev) /\ 0 <= x < w /\ 0 <= y < h.
Proof.
  intros Hd ev x y c Hin Hrq.
  destruct (drawn_workers _ _ _ _ _ _ _ _ _ Hd) as (Hh & _ & Hwho & Hworker).
  specialize (Hwho ev Hin).
  destruct (rowWorker_path _ _ _ _ _ _ _ (Hworker (who ev) Hwho))
    as (same & P & _ & Hw & _ & Hsets & _).
  pose proof (sets_requestsOf_In tr ev x y c Hin Hrq) as Hs.
  rewrite Hsets in Hs. apply in_map_iff in Hs.
  destruct Hs as (x0 & [= <- <- _] & Hx0).
  apply list_elem_of_In, elem_of_reverse, list_elem_of_In, in_seq in Hx0.
  split; [reflexivity | lia].
Qed.

Lemma drawn_rows (zBuf : list (list F64.t)) (w h : Z) (mu e : F64.t)
  (palette : list Color) (g : G) (tr : list event) (img : RGBA) :
  drawn randIntn (drawAutoStereogram zBuf w h mu e palette g) tr img ->
  0 <= h
  /\ img = paint (NewRGBA (Rect 0 0 w h)) (allSets tr)
  /\ forall y, 0 <= y < h ->
       0 <= w
       /\ exists same P,
           rowFacts zBuf w mu e palette y same P
           /\ forall x, 0 <= x < w ->
                setsAt x y (allSets tr) = [default zeroColor (P !! Z.to_nat x)]
                /\ RGBAAt img x y = default zeroColor (P !! Z.to_nat x).
Proof.
  intros Hd.
  destruct (drawn_workers _ _ _ _ _ _ _ _ _ Hd) as (Hh & Hcanvas & _ & Hworker).
  split; [exact Hh |]. split; [exact Hcanvas |].
  assert (Hrow : forall ev x' y' c, In ev tr -> requestOf ev = RqSet x' y' c ->
                                    y' = Z.of_nat (who ev)).
  { intros ev x' y' c Hin Hrq.
    apply (drawn_sets_inside _ _ _ _ _ _ _ _ _ Hd ev x' y' c Hin Hrq). }
  intros y Hy.
  destruct (rowWorker_path _ _ _ _ _ _ _ (Hworker (Z.to_nat y) ltac:(lia)))
    as (same & P & Hsame & Hw & HlenP & Hsets & Hcols).
  rewrite Z2Nat.id in Hsame, Hsets by lia.
  split; [exact Hw |]. exists same, P. split; [repeat split; assumption |].
  intros x Hx.
  assert (Hat : setsAt x y (allSets tr) = [default zeroColor (P !! Z.to_nat x)]).
  { rewrite <- (Z2Nat.id y) at 1 by lia. rewrite setsAt_allSets by exact Hrow.
    rewrite Z2Nat.id, Hsets by lia.
    rewrite <- (Z2Nat.id x) at 1 by lia.
    rewrite (setsAt_column y (fun x' => default zeroColor (P !! x'))).
    destruct (Nat.ltb_spec (Z.to_nat x) (Z.to_nat w)); [reflexivity | lia]. }
  split; [exact Hat |].
  rewrite Hcanvas, RGBAAt_paint.
  - rewrite Hat. reflexivity.
  - apply wfRGBA_NewRGBA.
  - cbn [NewRGBA imRect]. rewrite Rect_origin by lia.
    apply inRect_bounds. cbn. lia.
Qed.


End Returned.

Lemma provided_In (palette : list Color) (c : Color) :
  palette <> [] -> provided palette c -> In c palette.
Proof. destruct palette; [contradiction | auto]. Qed.

(** In a row that is linked to the right every colour is one of the
    colour provider: a column has it from there or from its right. *)
Lemma rowFacts_provided (zBuf : list (list F64.t)) (w : Z) (mu e : F64.t)
  (palette : list Color) (y : Z) (same : list Z) (P : list Color) :
  linked w same -> rowFacts zBuf w mu e palette y same P ->
  forall x, (x < Z.to_nat w)%nat ->
    exists c, P !! x = Some c /\ provided palette c.
Proof.
  intros [_ Hfw] (_ & _ & Hcols).
  assert (Hind : forall d x, (Z.to_nat w - x <= d)%nat -> (x < Z.to_nat w)%nat ->
                             exists c, P !! x = Some c /\ provided palette c).
  { induction d as [| d IH]; intros x Hd Hx; [lia |].
    destruct (Hcols x Hx) as (sx & c & Hsx & Hsw & Hc & Hself & Hright & _).
    apply Hfw in Hsx.
    destruct (Nat.eq_dec sx x) as [Heq | Hne].
    - exists c. auto.
    - destruct (IH sx) as (c' & Hc' & Hin); [lia | lia |].
      rewrite Hright in Hc' by lia. injection Hc' as <-.
      exists c. auto. }
  intros x Hx. apply (Hind (Z.to_nat w) x); lia.
Qed.

Lemma zAt_In (zBuf : list (list F64.t)) (x y : Z) (z : F64.t) :
  zAt zBuf x y = Done z -> exists col, In col zBuf /\ In z col.
Proof.
  unfold zAt. destruct (idx zBuf x) as [col | |] eqn:Hcol; cbn; try discriminate.
  intros Hz. apply idx_Done in Hcol, Hz. destruct Hcol as [_ Hcol], Hz as [_ Hz].
  exists col. split; apply list_elem_of_In; eapply list_elem_of_lookup_2; eassumption.
Qed.

Lemma separationsOK_spec (zBuf : list (list F64.t)) (mu e : F64.t) :
  separationsOK zBuf mu e = true ->
  forall x y z, zAt zBuf x y = Done z -> 0 <= projSeparation z mu e < 2 ^ 62.
Proof.
  unfold separationsOK. intros Hall x y z Hz.
  apply zAt_In in Hz. destruct Hz as (col & Hcol & Hz).
  rewrite forallb_forall in Hall. specialize (Hall col Hcol).
  rewrite forallb_forall in Hall. specialize (Hall z Hz).
  apply andb_true_iff in Hall. destruct Hall as [H0 H1].
  apply Z.leb_le in H0. apply Z.ltb_lt in H1. auto.
Qed.

(** The depth buffer of a mask holds 0.0 and 1.0 only, so the two
    separations of a configuration can be checked once for all masks. *)
Lemma binary_separations (img : Image) (tc : option Color) (mu e : F64.t)
  (zBuf : list (list F64.t)) :
  separationsOK [[F64.zero; F64.one]] mu e = true ->
  0 <= Dx (Bounds img) -> 0 <= Dy (Bounds img) ->
  newDepthBufferFromImage img tc = Done zBuf ->
  forall x y z, zAt zBuf x y = Done z -> 0 <= projSeparation z mu e < 2 ^ 62.
Proof.
  intros Hok Hx Hy Hbuf x y z Hz.
  rewrite newDepthBufferFromImage_Done in Hbuf by assumption.
  injection Hbuf as <-.
  apply zAt_In in Hz. destruct Hz as (col & Hcol & Hz).
  apply in_map_iff in Hcol. destruct Hcol as (x0 & <- & _).
  apply in_map_iff in Hz. destruct Hz as (y0 & <- & _).
  apply (separationsOK_spec _ _ _ Hok 0 (if isTransparentMaskPixel
            (At img (Z.of_nat x0) (Z.of_nat y0)) tc then 0 else 1)).
  unfold maskDepth. destruct (isTransparentMaskPixel _ _); reflexivity.
Qed.

Section Synthesis.

Context {G : Type} (randIntn : G -> Z -> Z * G).

(** The colours of an image that is returned are colours of the
    colour provider when no separation is negative. *)
Lemma drawn_provided (zBuf : list (list F64.t)) (w h : Z)
  (mu e : F64.t) (palette : list Color) (g : G) (tr : list event) (img : RGBA) :
  w <= 2 ^ 62 ->
  (forall x y z, 0 <= x < w -> 0 <= y < h -> zAt zBuf x y = Done z ->
                 0 <= projSeparation z mu e < 2 ^ 62) ->
  drawn randIntn (drawAutoStereogram zBuf w h mu e palette g) tr img ->
  forall x y, 0 <= x < w -> 0 <= y < h -> provided palette (RGBAAt img x y).
Proof.
  intros Hw Hsep Hd x y Hx Hy.
  destruct (drawn_rows randIntn _ _ _ _ _ _ _ _ _ Hd) as (_ & _ & Hrows).
  destruct (Hrows y Hy) as (_ & same & P & Hfacts & Hpix).
  destruct (Hpix x Hx) as [_ ->].
  assert (Hlk : linked w same).
  { apply (rowLinks_linked zBuf w mu e y); [exact Hw | | apply Hfacts].
    intros x' z Hx' Hz. apply (Hsep x' y z); assumption. }
  destruct (rowFacts_provided _ _ _ _ _ _ _ _ Hlk Hfacts (Z.to_nat x))
    as (c & -> & Hin); [lia |].
  exact Hin.
Qed.

Lemma drawn_palette (zBuf : list (list F64.t)) (w h : Z)
  (mu e : F64.t) (palette : list Color) (g : G) (tr : list event) (img : RGBA) :
  palette <> [] ->
  w <= 2 ^ 62 ->
  (forall x y z, 0 <= x < w -> 0 <= y < h -> zAt zBuf x y = Done z ->
                 0 <= projSeparation z mu e < 2 ^ 62) ->
  drawn randIntn (drawAutoStereogram zBuf w h mu e palette g) tr img ->
  forall x y, 0 <= x < w -> 0 <= y < h -> In (RGBAAt img x y) palette.
Proof.
  intros Hpal Hw Hsep Hd x y Hx Hy. apply provided_In; [exact Hpal |].
  apply (drawn_provided zBuf w h mu e palette g tr img Hw Hsep Hd x y Hx Hy).
Qed.


(** The same for [NewStereogramFromMask]: the two separations of the
    configuration are those of the depths 0.0 and 1.0. *)
Lemma NewStereogramFromMask_palette {E : Type} (maskImg : Image)
  (opts : list StereogramOption) (g : G) (img : RGBA)
  (err : option (StereogramError E)) :
  let cfg := applyOptions opts defaultStereogramCfg in
  Palette cfg <> [] ->
  0 <= Dx (Bounds maskImg) <= 2 ^ 62 -> 0 <= Dy (Bounds maskImg) ->
  separationsOK [[F64.zero; F64.one]] (Mu cfg) (eyeSeparation cfg) = true ->
  returned randIntn (NewStereogramFromMask (inl maskImg) opts g) (Some img, err) ->
  forall x y, 0 <= x < Dx (Bounds maskImg) -> 0 <= y < Dy (Bounds maskImg) ->
    In (RGBAAt img x y) (Palette cfg).
Proof.
  intros cfg Hpal Hx Hy Hok Hr x y Hx' Hy'.
  unfold NewStereogramFromMask in Hr. fold cfg in Hr.
  inversion Hr as [| o tr img' Hd Ho Himg]; subst.
  destruct (newDepthBufferFromImage maskImg (MaskTransparentColor cfg))
    as [zBuf | |] eqn:Hbuf; cbn [mbind outcome_bind] in Hd;
    [| inversion Hd | inversion Hd].
  assert (Hsep : forall x0 y0 z, 0 <= x0 < Dx (Bounds maskImg) ->
            0 <= y0 < Dy (Bounds maskImg) -> zAt zBuf x0 y0 = Done z ->
            0 <= projSeparation z (Mu cfg) (eyeSeparation cfg) < 2 ^ 62).
  { intros x0 y0 z _ _ Hz.
    apply (binary_separations maskImg (MaskTransparentColor cfg) (Mu cfg)
             (eyeSeparation cfg) zBuf Hok) with (x := x0) (y := y0);
      [lia | exact Hy | exact Hbuf | exact Hz]. }
  apply (drawn_palette zBuf (Dx (Bounds maskImg)) (Dy (Bounds maskImg))
           (Mu cfg) (eyeSeparation cfg) (Palette cfg) g tr img
           Hpal (proj2 Hx) Hsep Hd x y Hx' Hy').
Qed.

(** C3, for separations that are not negative.  The table of the row
    then has [same[x] >= x] for every column after the disparity
    pass, and in an image that is returned the pixel of column [x] has
    the colour of the pixel of column [same[x]]: what was copied was
    the final colour. *)
Theorem rowLinks_forward (zBuf : list (list F64.t)) (w h : Z)
  (mu e : F64.t) (palette : list Color) (g : G) (y : Z) (same : list Z) :
  w <= 2 ^ 62 ->
  (forall x z, 0 <= x < w -> zAt zBuf x y = Done z ->
               0 <= projSeparation z mu e < 2 ^ 62) ->
  rowLinks zBuf w mu e y = Done same ->
  forall x, 0 <= x < w ->
    exists k, idx same x = Done k /\ x <= k < w
      /\ forall tr img, 0 <= y < h ->
           drawn randIntn (drawAutoStereogram zBuf w h mu e palette g) tr img ->
           RGBAAt img x y = RGBAAt img k y.
Proof.
  intros Hw Hsep Hsame x Hx.
  pose proof (rowLinks_linked zBuf w mu e y same Hw Hsep Hsame) as Hlk.
  destruct (linked_idx w same x Hlk Hx) as (k & Hk & Hkx).
  exists k. split; [exact Hk |]. split; [exact Hkx |].
  intros tr img Hy Hd.
  destruct (drawn_rows randIntn _ _ _ _ _ _ _ _ _ Hd) as (_ & _ & Hrows).
  destruct (Hrows y Hy) as (_ & same' & P & (Hsame' & HlenP & Hcols) & Hpix).
  rewrite Hsame in Hsame'. injection Hsame' as <-.
  destruct (Hpix x Hx) as [_ ->]. destruct (Hpix k ltac:(lia)) as [_ ->].
  destruct (Hcols (Z.to_nat x) ltac:(lia)) as (sx & c & Hsx & _ & Hc & _ & Hright & _).
  apply idx_Done in Hk. destruct Hk as [_ Hk]. rewrite Hk in Hsx.
  injection Hsx as ->. rewrite Nat2Z.id.
  destruct (Nat.eq_dec sx (Z.to_nat x)) as [-> | Hne]; [reflexivity |].
  rewrite Hc, Hright by lia. reflexivity.
Qed.



(** C5, as the code has it.  For a decoded mask of width or height
    zero [NewStereogramFromMask] returns an image without pixels and
    no error, whatever the options are. *)
Theorem NewStereogramFromMask_empty {E : Type} (maskImg : Image)
  (opts : list StereogramOption) (g : G) :
  0 <= Dx (Bounds maskImg) -> 0 <= Dy (Bounds maskImg) ->
  Dx (Bounds maskImg) = 0 \/ Dy (Bounds maskImg) = 0 ->
  (exists img,
      returned randIntn (NewStereogramFromMask (E := E) (inl maskImg) opts g)
               (Some img, None)
      /\ forall row, In row (Pix img) -> row = [])
  /\ forall r, returned randIntn
                 (NewStereogramFromMask (E := E) (inl maskImg) opts g) r ->
               snd r = None.
Proof.
  intros Hx Hy Hzero. split.
  - unfold NewStereogramFromMask.
    rewrite newDepthBufferFromImage_Done by assumption.
    cbn [mbind outcome_bind]. unfold drawAutoStereogram.
    destruct (Z.ltb_spec (Dy (Bounds maskImg)) 0) as [Hneg | _]; [lia |].
    eexists. split.
    + econstructor. econstructor; [constructor |].
      unfold finished. cbn [workers]. apply Forall_forall.
      intros p Hp. apply list_elem_of_fmap in Hp. destruct Hp as (y & -> & Hin).
      destruct Hzero as [H0 | H0].
      * rewrite H0. reflexivity.
      * rewrite H0 in Hin. cbn in Hin. inversion Hin.
    + cbn [canvas NewRGBA Pix]. intros row Hin.
      rewrite Rect_origin in Hin by assumption.
      assert (Hdx : forall a b, Dx (mkRect 0 0 a b) = a) by (intros; unfold Dx; cbn; lia).
      assert (Hdy : forall a b, Dy (mkRect 0 0 a b) = b) by (intros; unfold Dy; cbn; lia).
      rewrite Hdx, Hdy in Hin.
      apply list_elem_of_In, elem_of_replicate in Hin. destruct Hin as [-> Hn].
      destruct Hzero as [H0 | H0].
      * rewrite H0. reflexivity.
      * exfalso. apply Hn. rewrite H0. reflexivity.
  - intros r Hr. inversion Hr; subst. reflexivity.
Qed.

End Synthesis.

(** ** The properties at work *)

Lemma Ex_start_drawn :
  drawn replayIntn
    (drawAutoStereogram Ex.depth 8 2 (Mu defaultStereogramCfg) Ex.six Ex.palette
       Ex.numbers)
    (runTrace replayIntn Ex.start Ex.order)
    (canvas (run replayIntn Ex.start Ex.order)).
Proof. apply (run_drawn replayIntn Ex.start Ex.order). vm_compute. reflexivity. Defined.

Lemma Ex_depth_separations :
  forall x y z, 0 <= x < 8 -> 0 <= y < 2 -> zAt Ex.depth x y = Done z ->
                0 <= projSeparation z (Mu defaultStereogramCfg) Ex.six < 2 ^ 62.
Proof.
  intros x y z _ _. apply separationsOK_spec. vm_compute. reflexivity.
Defined.



Lemma rowLinks_forward_witness :
  exists k, idx [3; 4; 5; 6; 7; 5; 6; 7] 2 = Done k /\ 2 <= k < 8
    /\ forall tr img, 0 <= 0 < 2 ->
         drawn replayIntn
           (drawAutoStereogram Ex.depth 8 2 (Mu defaultStereogramCfg) Ex.six
              Ex.palette Ex.numbers) tr img ->
         RGBAAt img 2 0 = RGBAAt img k 0.
Proof.
  apply (rowLinks_forward replayIntn Ex.depth 8 2 (Mu defaultStereogramCfg)
           Ex.six Ex.palette Ex.numbers 0 [3; 4; 5; 6; 7; 5; 6; 7]).
  - vm_compute. discriminate.
  - intros x z Hx. apply (Ex_depth_separations x 0 z Hx). lia.
  - vm_compute. reflexivity.
  - lia.
Defined.

(** In the same row the table ends with [same[4] = 0], and the image
    that is returned has the zero colour at column 4 and red at
    column 0. *)
Lemma rowLinks_forward_counterexample :
  rowLinks Ex.ridge 5 Ex.wideMu Ex.four 0 = Done [0; 1; 2; 3; 0]
  /\ idx [0; 1; 2; 3; 0] 4 = Done 0
  /\ drawn replayIntn
       (drawAutoStereogram Ex.ridge 5 1 Ex.wideMu Ex.four [Ex.red] [])
       (runTrace replayIntn Ex.ridgeStart (replicate 9 0%nat))
       (canvas (run replayIntn Ex.ridgeStart (replicate 9 0%nat)))
  /\ RGBAAt (canvas (run replayIntn Ex.ridgeStart (replicate 9 0%nat))) 4 0
     <> RGBAAt (canvas (run replayIntn Ex.ridgeStart (replicate 9 0%nat))) 0 0.
Proof.
  split; [vm_compute; reflexivity |]. split; [vm_compute; reflexivity |]. split.
  - apply (run_drawn replayIntn Ex.ridgeStart). vm_compute. reflexivity.
  - vm_compute. discriminate.
Qed.





Lemma NewStereogramFromMask_empty_witness :
  (exists img,
      returned replayIntn
        (NewStereogramFromMask (E := string) (inl Ex.emptyMask) [] []) (Some img, None)
      /\ forall row, In row (Pix img) -> row = [])
  /\ forall r, returned replayIntn
                 (NewStereogramFromMask (E := string) (inl Ex.emptyMask) [] []) r ->
               snd r = None.
Proof.
  apply (NewStereogramFromMask_empty replayIntn Ex.emptyMask [] []).
  - vm_compute. discriminate.
  - vm_compute. discriminate.
  - left. reflexivity.
Defined.

(** The mask without pixels is not rejected: an image and no error. *)
Lemma NewStereogramFromMask_empty_counterexample :
  returned replayIntn
    (NewStereogramFromMask (E := string) (inl Ex.emptyMask) [] [])
    (Some (NewRGBA (Rect 0 0 0 0)), None).
Proof.
  apply (returned_image replayIntn _ []).
  apply (drawn_intro replayIntn
           (mkState [] [] (NewRGBA (Rect 0 0 0 0))) []
           (mkState [] [] (NewRGBA (Rect 0 0 0 0)))).
  - constructor.
  - constructor.
Qed.



Lemma logo_separations :
  separationsOK [[F64.zero; F64.one]]
    (Mu (applyOptions [WithOutputDPI 300] defaultStereogramCfg))
    (eyeSeparation (applyOptions [WithOutputDPI 300] defaultStereogramCfg)) = true
  /\ projSeparation F64.zero
       (Mu (applyOptions [WithOutputDPI 300] defaultStereogramCfg))
       (eyeSeparation (applyOptions [WithOutputDPI 300] defaultStereogramCfg)) = 375
  /\ projSeparation F64.one
       (Mu (applyOptions [WithOutputDPI 300] defaultStereogramCfg))
       (eyeSeparation (applyOptions [WithOutputDPI 300] defaultStereogramCfg)) = 300.
Proof. repeat split; vm_compute; reflexivity. Qed.

(** ** Small eye separations *)

(** C7.  With an eye separation of one pixel the separation of a
    background pixel is 1; in an even row the column 0 passes the test
    of the edges with [left = 0] and [right = 1], and the first turn of
    the loop of visibility, [t = 1], reads [zBuf[-1]]: the row panics. *)
Theorem isVisible_outside :
  projSeparation Ex.lo (Mu defaultStereogramCfg) (F64.of_Z 1) = 1
  /\ Z.min 0 (2 - 1 - 0) < 1
  /\ zAt [[Ex.lo]; [Ex.lo]] (0 - 1) 0 = Panic
  /\ isVisible [[Ex.lo]; [Ex.lo]] (Mu defaultStereogramCfg) (F64.of_Z 1) 0 0 = Panic
  /\ linkStep [[Ex.lo]; [Ex.lo]] 2 (Mu defaultStereogramCfg) (F64.of_Z 1) 0 [0; 1] 0
     = Panic
  /\ rowLinks [[Ex.lo]; [Ex.lo]] 2 (Mu defaultStereogramCfg) (F64.of_Z 1) 0 = Panic.
Proof. repeat split; vm_compute; reflexivity. Qed.

(** It is not the smallest separations only: with [mu = 1] and an eye
    separation of 5 pixels the separation is 3, the column 1 of a row of
    four background pixels passes the test of the edges, its first turn
    finds the point visible below the depth 1, and the second turn
    reads [zBuf[-1]]. *)
Lemma isVisible_outside_second_turn :
  projSeparation Ex.lo F64.one (F64.of_Z 5) = 3
  /\ F64.ltb (sightDepth Ex.lo F64.one (F64.of_Z 5) 1) F64.one = true
  /\ Z.min 1 (4 - 1 - 1) < 2
  /\ zAt [[Ex.lo]; [Ex.lo]; [Ex.lo]; [Ex.lo]] (1 - 2) 0 = Panic
  /\ isVisible [[Ex.lo]; [Ex.lo]; [Ex.lo]; [Ex.lo]] F64.one (F64.of_Z 5) 1 0 = Panic
  /\ rowLinks [[Ex.lo]; [Ex.lo]; [Ex.lo]; [Ex.lo]] 4 F64.one (F64.of_Z 5) 0 = Panic.
Proof. repeat split; vm_compute; reflexivity. Qed.

Lemma crashed_not_drawn {G : Type} (randIntn : G -> Z -> Z * G)
  (st : state G) (i : nat) (tr : list event) (img : RGBA) :
  workers st !! i = Some Crash -> ~ drawn randIntn (Done st) tr img.
Proof.
  intros Hi Hd. inversion Hd as [st0 tr' st' Hsteps Hfin]; subst.
  pose proof (steps_Crash randIntn _ _ _ i Hsteps Hi) as Hc.
  unfold finished in Hfin. rewrite Forall_forall in Hfin.
  specialize (Hfin Crash (list_elem_of_lookup_2 _ _ _ Hc)). discriminate.
Qed.

(** C6.  A mask of 2 x 1 pixels, an output of 1 DPI and an eye separation
    ratio of 1: the configuration is valid, and the worker of the one
    row has panicked when [drawAutoStereogram] waits for it. *)
Theorem NewStereogramFromMask_crashes {G : Type} (g : G) :
  NewStereogramFromMask (E := string) (inl Ex.pairMask) Ex.narrow g
  = inl (Done {| workers := [Crash]; source := g;
                 canvas := NewRGBA (Rect 0 0 2 1) |}).
Proof. vm_compute. reflexivity. Qed.

(** So nothing is returned, with any random source. *)
Lemma NewStereogramFromMask_nothing {G : Type} (randIntn : G -> Z -> Z * G)
  (g : G) (r : option RGBA * option (StereogramError string)) :
  ~ returned randIntn (NewStereogramFromMask (inl Ex.pairMask) Ex.narrow g) r.
Proof.
  intros Hr. inversion Hr as [| o tr img Hd Ho]; subst.
  apply (crashed_not_drawn randIntn
           (mkState [Crash] g (NewRGBA (Rect 0 0 2 1))) 0%nat tr img eq_refl).
  exact Hd.
Qed.

(** * More properties *)

(** ** Reading colours *)

Lemma TrimPrefix_hash (c : ascii) (s : string) :
  TrimPrefix (String c s) "#" = if Ascii.eqb c "#" then s else String c s.
Proof.
  unfold TrimPrefix. cbn [String.prefix].
  destruct (ascii_dec "#" c) as [<- | Hne].
  - cbn [Ascii.eqb Bool.eqb String.length Nat.sub String.substring].
    rewrite Nat.sub_0_r.
    replace (String.prefix "" s) with true by (destruct s; reflexivity).
    clear. induction s as [| a s IH]; [reflexivity |].
    cbn [String.length String.substring]. f_equal. exact IH.
  - destruct (Ascii.eqb_spec c "#") as [-> | _]; [congruence | reflexivity].
Qed.

Lemma TrimPrefix_empty : TrimPrefix EmptyString "#" = EmptyString.
Proof. reflexivity. Qed.

Lemma length_append (s t : string) :
  String.length (String.append s t) = (String.length s + String.length t)%nat.
Proof. induction s as [| c s IH]; cbn; [reflexivity | f_equal; exact IH]. Qed.

Lemma length_Repeat_F (n : nat) : String.length (Repeat "F" n) = n.
Proof. induction n as [| n IH]; cbn; [reflexivity | f_equal; exact IH]. Qed.

Lemma allHex_append (s t : string) :
  allHex (String.append s t) = allHex s && allHex t.
Proof.
  induction s as [| c s IH]; cbn; [reflexivity |].
  rewrite IH. apply andb_assoc.
Qed.

Lemma allHex_Repeat_F (n : nat) : allHex (Repeat "F" n) = true.
Proof. induction n as [| n IH]; [reflexivity | exact IH]. Qed.

Lemma pow16_S (k : nat) : 16 ^ Z.of_nat (S k) = 16 * 16 ^ Z.of_nat k.
Proof. rewrite Nat2Z.inj_succ, Z.pow_succ_r by lia. reflexivity. Qed.

Lemma digitVal_nonneg (c : ascii) (d : Z) : digitVal c = Some d -> 0 <= d.
Proof.
  unfold digitVal.
  destruct (Z.leb_spec 48 (Z.of_N (N_of_ascii c)));
    destruct (Z.leb_spec (Z.of_N (N_of_ascii c)) 57); cbn [andb];
    try (intros [= <-]; lia);
    destruct (Z.leb_spec 97 (Z.lor (Z.of_N (N_of_ascii c)) 32));
    destruct (Z.leb_spec (Z.lor (Z.of_N (N_of_ascii c)) 32) 122); cbn [andb];
    try discriminate; intros [= <-]; lia.
Qed.

(** Digits that leave the value below 2^32 are all read. *)
Lemma parseLoop_hex (s : string) :
  forall n, 0 <= n -> (n + 1) * 16 ^ Z.of_nat (String.length s) <= 2 ^ 32 ->
    if allHex s
    then exists v, parseLoop s n = inl v /\ 0 <= v < 2 ^ 32
    else parseLoop s n = inr ErrSyntax.
Proof.
  induction s as [| c s IH]; intros n Hn Hb.
  - cbn in *. exists n. split; [reflexivity | lia].
  - cbn [allHex parseLoop]. unfold isHexDigit.
    cbn [String.length] in Hb. rewrite pow16_S in Hb.
    assert (Hp : 0 < 16 ^ Z.of_nat (String.length s)) by (apply Z.pow_pos_nonneg; lia).
    destruct (digitVal c) as [d |] eqn:Hd; [| reflexivity].
    pose proof (digitVal_nonneg c d Hd) as Hd0.
    destruct (Z.ltb_spec d 16) as [Hlt | Hge].
    + destruct (Z.geb_spec d 16) as [Hge | _]; [lia |].
      assert (H232 : 2 ^ 32 = 4294967296) by reflexivity.
      assert (H260 : 2 ^ 60 = 1152921504606846976) by reflexivity.
      assert (H264 : 2 ^ 64 = 18446744073709551616) by reflexivity.
      rewrite H232 in *. rewrite H260, H264.
      assert (Hn1 : (n * 16 + d + 1) * 16 ^ Z.of_nat (String.length s) <= 4294967296) by nia.
      assert (Hn2 : n * 16 + d < 4294967296) by nia.
      destruct (Z.geb_spec n 1152921504606846976) as [Hge | _]; [lia |].
      rewrite (Z.mod_small (n * 16)) by lia.
      rewrite (Z.mod_small (n * 16 + d)) by lia.
      destruct (Z.ltb_spec (n * 16 + d) (n * 16)) as [Hl | _]; [lia |].
      destruct (Z.gtb_spec (n * 16 + d) (4294967296 - 1)) as [Hg | _]; [lia |].
      cbn [orb andb]. apply IH; lia.
    + destruct (Z.geb_spec d 16) as [_ | Hlt]; [reflexivity | lia].
Qed.

(** What is read without an error is made of digits. *)
Lemma parseLoop_inl (s : string) :
  forall n v, parseLoop s n = inl v -> allHex s = true.
Proof.
  induction s as [| c s IH]; intros n v H; [reflexivity |].
  cbn [parseLoop allHex] in *. unfold isHexDigit.
  destruct (digitVal c) as [d |]; [| discriminate].
  destruct (Z.geb_spec d 16) as [Hge | Hlt]; [discriminate |].
  destruct (n >=? 2 ^ 60); [discriminate |].
  destruct (_ || _); [discriminate |].
  apply IH in H. rewrite H.
  destruct (Z.ltb_spec d 16); [reflexivity | lia].
Qed.

Lemma ParseUint16_32_inl (s : string) (v : Z) :
  ParseUint16_32 s = inl v -> allHex s = true.
Proof.
  destruct s as [| c s]; [discriminate |]. apply parseLoop_inl.
Qed.

Lemma ColorFromHex_padded (hex : string) :
  ColorFromHex hex
  = match ParseUint16_32 (padded hex) with
    | inr err => inr err
    | inl values =>
        inl {| A := uint8 (Z.land values 255);
               B := uint8 (Z.land (Z.shiftr values 8) 255);
               G := uint8 (Z.land (Z.shiftr values 16) 255);
               R := uint8 (Z.shiftr values 24) |}
    end.
Proof. reflexivity. Qed.

Lemma allHex_padded (hex : string) :
  allHex (padded hex) = allHex (TrimPrefix hex "#").
Proof.
  unfold padded. destruct (_ <? _)%nat; [| reflexivity].
  rewrite allHex_append, allHex_Repeat_F. apply andb_true_r.
Qed.

Lemma length_padded (hex : string) :
  (String.length (TrimPrefix hex "#") <= 8)%nat ->
  String.length (padded hex) = 8%nat.
Proof.
  intros Hl. unfold padded.
  destruct (Nat.ltb_spec (String.length (TrimPrefix hex "#")) 8) as [Hlt | Hge].
  - rewrite length_append, length_Repeat_F. lia.
  - lia.
Qed.

Lemma wfColor_uint8 (r g b a : Z) :
  wfColor {| R := uint8 r; G := uint8 g; B := uint8 b; A := uint8 a |}.
Proof.
  unfold wfColor, uint8. cbn.
  repeat split; apply Z.mod_pos_bound; lia.
Qed.

(** The texts of at most eight bytes, the sign [#] apart. *)
Lemma ColorFromHex_short_cases (hex : string) :
  (String.length (TrimPrefix hex "#") <= 8)%nat ->
  if allHex (TrimPrefix hex "#")
  then exists c, ColorFromHex hex = inl c /\ wfColor c
  else ColorFromHex hex = inr ErrSyntax.
Proof.
  intros Hl. rewrite ColorFromHex_padded.
  pose proof (length_padded hex Hl) as Hlen.
  pose proof (allHex_padded hex) as Hall.
  destruct (padded hex) as [| c s] eqn:Hp; [discriminate |].
  change (ParseUint16_32 (String c s)) with (parseLoop (String c s) 0).
  pose proof (parseLoop_hex (String c s) 0) as H.
  rewrite Hlen in H. specialize (H ltac:(lia) ltac:(reflexivity)).
  rewrite Hall in H.
  destruct (allHex (TrimPrefix hex "#")).
  - destruct H as (v & -> & _). eexists. split; [reflexivity |].
    apply wfColor_uint8.
  - rewrite H. reflexivity.
Qed.

(** X1.  A text of at most eight bytes after its optional [#] is read
    as a colour exactly when all these bytes are hexadecimal digits; the
    error is the syntax error of [strconv] otherwise.  The empty text and
    the text [#] are read (as eight digits F). *)
Theorem ColorFromHex_short (hex : string) :
  (String.length (TrimPrefix hex "#") <= 8)%nat ->
  (allHex (TrimPrefix hex "#") = true ->
   exists c, ColorFromHex hex = inl c /\ wfColor c)
  /\ (allHex (TrimPrefix hex "#") = false -> ColorFromHex hex = inr ErrSyntax).
Proof.
  intros Hl. pose proof (ColorFromHex_short_cases hex Hl) as H.
  destruct (allHex (TrimPrefix hex "#")); split; intros E; try discriminate; exact H.
Qed.

Lemma ColorFromHex_short_witness :
  (allHex (TrimPrefix "#cfcfcf" "#") = true ->
   exists c, ColorFromHex "#cfcfcf" = inl c /\ wfColor c)
  /\ (allHex (TrimPrefix "#cfcfcf" "#") = false ->
      ColorFromHex "#cfcfcf" = inr ErrSyntax).
Proof. apply (ColorFromHex_short "#cfcfcf"). cbn. lia. Defined.

(** X2.  Whatever its length, a text that is read as a colour is made
    of hexadecimal digits after its optional [#], and the colour has
    four 8-bit channels. *)
Theorem ColorFromHex_inl (hex : string) (c : Color) :
  ColorFromHex hex = inl c ->
  allHex (TrimPrefix hex "#") = true /\ wfColor c.
Proof.
  rewrite ColorFromHex_padded.
  destruct (ParseUint16_32 (padded hex)) as [v | err] eqn:Hp; [| discriminate].
  intros [= <-]. split; [| apply wfColor_uint8].
  rewrite <- allHex_padded. exact (ParseUint16_32_inl _ _ Hp).
Qed.

Lemma ColorFromHex_inl_witness :
  allHex (TrimPrefix "000000000a0B0c0D" "#") = true
  /\ wfColor (mkColor 10 11 12 13).
Proof. apply (ColorFromHex_inl "000000000a0B0c0D"). reflexivity. Defined.

(** X3.  [MustColorFromHex] at a text of at most eight bytes after the
    optional [#]: it panics exactly when one of the bytes is not a
    hexadecimal digit. *)
Theorem MustColorFromHex_panics (hex : string) :
  (String.length (TrimPrefix hex "#") <= 8)%nat ->
  (MustColorFromHex hex = Panic <-> allHex (TrimPrefix hex "#") = false)
  /\ (forall c, MustColorFromHex hex = Done c -> ColorFromHex hex = inl c)
  /\ MustColorFromHex hex <> Spin.
Proof.
  intros Hl. pose proof (ColorFromHex_short_cases hex Hl) as H.
  unfold MustColorFromHex.
  destruct (allHex (TrimPrefix hex "#")).
  - destruct H as (c & -> & _). repeat split; try discriminate.
    intros c' [= ->]. reflexivity.
  - rewrite H. repeat split; try discriminate.
Qed.

Lemma MustColorFromHex_panics_witness :
  (MustColorFromHex "#00ff0g" = Panic <-> allHex (TrimPrefix "#00ff0g" "#") = false)
  /\ (forall c, MustColorFromHex "#00ff0g" = Done c -> ColorFromHex "#00ff0g" = inl c)
  /\ MustColorFromHex "#00ff0g" <> Spin.
Proof. apply (MustColorFromHex_panics "#00ff0g"). cbn. lia. Defined.

(** *** The case of the digits *)









(** *** Six digits *)

Lemma channels_of_value (r g b a : Z) :
  0 <= r < 256 -> 0 <= g < 256 -> 0 <= b < 256 -> 0 <= a < 256 ->
  let values := ((r * 256 + g) * 256 + b) * 256 + a in
  {| A := uint8 (Z.land values 255);
     B := uint8 (Z.land (Z.shiftr values 8) 255);
     G := uint8 (Z.land (Z.shiftr values 16) 255);
     R := uint8 (Z.shiftr values 24) |}
  = mkColor r g b a.
Proof.
  intros HR HG HB HA. cbn zeta.
  unfold uint8. change 255 with (Z.ones 8).
  rewrite !Z.land_ones, !Z.shiftr_div_pow2 by lia.
  change (2 ^ 8) with 256. change (2 ^ 16) with 65536. change (2 ^ 24) with 16777216.
  f_equal; Z.div_mod_to_equations; lia.
Qed.

(** X5.  The form [#RRGGBB] of six digits is read as the opaque colour
    of these channels: the two digits that are missing are the alpha
    channel, and it is filled with FF. *)
Theorem ColorFromHex_six_digits (r g b : Z) :
  0 <= r < 256 -> 0 <= g < 256 -> 0 <= b < 256 ->
  ColorFromHex (String "#" (fmt02X r (fmt02X g (fmt02X b EmptyString))))
  = inl (mkColor r g b 255).
Proof.
  intros HR HG HB.
  assert (H224 : 2 ^ 24 = 16777216) by reflexivity.
  rewrite ColorFromHex_padded. unfold padded.
  rewrite TrimPrefix_hash. cbn [Ascii.eqb Bool.eqb].
  change (String.length (fmt02X r (fmt02X g (fmt02X b EmptyString)))) with 6%nat.
  cbn [Nat.ltb Nat.leb Nat.sub Repeat].
  change (String.append (fmt02X r (fmt02X g (fmt02X b EmptyString)))
            (String.append "F" (String.append "F" EmptyString)))
    with (fmt02X r (fmt02X g (fmt02X b (fmt02X 255 EmptyString)))).
  change (ParseUint16_32 (fmt02X r ?s)) with (parseLoop (fmt02X r s) 0).
  rewrite !parseLoop_fmt02X by (rewrite ?H224; lia).
  cbn [parseLoop].
  apply f_equal. apply (channels_of_value r g b 255); lia.
Qed.

Lemma ColorFromHex_six_digits_witness :
  ColorFromHex (String "#" (fmt02X 0 (fmt02X 170 (fmt02X 255 EmptyString))))
  = inl (mkColor 0 170 255 255).
Proof. apply (ColorFromHex_six_digits 0 170 255); lia. Defined.

(** *** Writing colours *)

Lemma isUpperHexDigit_hexDigit (d : Z) :
  0 <= d < 16 -> isUpperHexDigit (hexDigit d) = true.
Proof.
  intros Hd.
  assert (Hcases : d = 0 \/ d = 1 \/ d = 2 \/ d = 3 \/ d = 4 \/ d = 5 \/ d = 6
                   \/ d = 7 \/ d = 8 \/ d = 9 \/ d = 10 \/ d = 11 \/ d = 12
                   \/ d = 13 \/ d = 14 \/ d = 15) by lia.
  repeat (destruct Hcases as [-> | Hcases]; [reflexivity |]).
  subst d. reflexivity.
Qed.

Lemma allUpperHex_fmt02X (v : Z) (rest : string) :
  0 <= v < 256 -> allUpperHex (fmt02X v rest) = allUpperHex rest.
Proof.
  intros Hv. unfold fmt02X. cbn [allUpperHex].
  rewrite !isUpperHexDigit_hexDigit; [reflexivity | |].
  - apply Z.mod_pos_bound. lia.
  - split; [apply Z.div_pos | apply Z.div_lt_upper_bound]; lia.
Qed.

(** X6.  [Hex] writes nine bytes: the sign [#] and eight digits, which
    are decimal digits or capital letters from A to F. *)
Theorem Hex_shape (c : Color) :
  wfColor c ->
  exists digits,
    Hex c = String "#" digits
    /\ String.length digits = 8%nat
    /\ allUpperHex digits = true.
Proof.
  intros (HR & HG & HB & HA). eexists. split; [reflexivity |].
  split; [reflexivity |].
  rewrite !allUpperHex_fmt02X by assumption. reflexivity.
Qed.

Lemma Hex_shape_witness :
  exists digits,
    Hex (mkColor 182 21 0 255) = String "#" digits
    /\ String.length digits = 8%nat
    /\ allUpperHex digits = true.
Proof. apply (Hex_shape (mkColor 182 21 0 255)). unfold wfColor. cbn. lia. Defined.

Lemma ColorFromHex_Hex_back (c : Color) :
  wfColor c -> ColorFromHex (Hex c) = inl c.
Proof.
  intros Hwf. unfold ColorFromHex.
  rewrite Hex_length. cbn [Nat.ltb Nat.leb].
  rewrite Hex_value by exact Hwf.
  destruct Hwf as (HR & HG & HB & HA). destruct c as [r g b a]. cbn in *.
  apply f_equal. apply channels_of_value; assumption.
Qed.

(** X7.  Two colours that [Hex] writes the same way are the same
    colour. *)
Theorem Hex_inj (c d : Color) :
  wfColor c -> wfColor d -> Hex c = Hex d -> c = d.
Proof.
  intros Hc Hd Heq.
  pose proof (ColorFromHex_Hex_back c Hc) as H1.
  pose proof (ColorFromHex_Hex_back d Hd) as H2.
  rewrite Heq in H1. congruence.
Qed.

Lemma Hex_inj_witness : mkColor 1 2 3 4 = mkColor 1 2 3 4.
Proof.
  apply (Hex_inj (mkColor 1 2 3 4) (mkColor 1 2 3 4));
    [unfold wfColor; cbn; lia | unfold wfColor; cbn; lia | reflexivity].
Defined.

(** X8.  A mask pixel that is an 8-bit [color.RGBA] value comes back
    from [ColorRGBA] as it is; it is transparent for a given transparent
    colour exactly when it is that colour, and without one exactly when
    its alpha channel is zero. *)
Theorem mask_pixel_rgba8 (p : Color) :
  wfColor p ->
  ColorRGBA (rgba8 p) = p
  /\ (forall c, isTransparentMaskPixel (rgba8 p) (Some c) = true <-> p = c)
  /\ (isTransparentMaskPixel (rgba8 p) None = true <-> A p = 0).
Proof.
  intros Hwf. pose proof (ColorRGBA_rgba8 p Hwf) as Hid.
  split; [exact Hid |]. split.
  - intros c. cbn [isTransparentMaskPixel]. rewrite Hid, Equal_iff.
    destruct p, c; cbn. split; [intros (-> & -> & -> & ->); reflexivity |].
    intros [= -> -> -> ->]. tauto.
  - cbn [isTransparentMaskPixel rgba8 a16]. rewrite Z.eqb_eq.
    destruct Hwf as (_ & _ & _ & HA).
    rewrite lor_shiftl_8 by exact HA. lia.
Qed.

Lemma mask_pixel_rgba8_witness :
  ColorRGBA (rgba8 (mkColor 255 0 0 255)) = mkColor 255 0 0 255
  /\ (forall c, isTransparentMaskPixel (rgba8 (mkColor 255 0 0 255)) (Some c) = true
                <-> mkColor 255 0 0 255 = c)
  /\ (isTransparentMaskPixel (rgba8 (mkColor 255 0 0 255)) None = true
      <-> A (mkColor 255 0 0 255) = 0).
Proof. apply (mask_pixel_rgba8 (mkColor 255 0 0 255)). unfold wfColor. cbn. lia. Defined.

(** ** Options *)

Lemma applyOptions_cons (o : StereogramOption) (opts : list StereogramOption)
  (cfg : StereogramConfig) :
  applyOptions (o :: opts) cfg = applyOptions opts (o cfg).
Proof. reflexivity. Qed.

Lemma optionOf_comm (a b : Setter) (cfg : StereogramConfig) :
  field a <> field b ->
  optionOf a (optionOf b cfg) = optionOf b (optionOf a cfg).
Proof. destruct a, b; cbn; intros H; try reflexivity; congruence. Qed.

Lemma applyOptions_Permutation (l l' : list Setter) :
  Permutation l l' ->
  NoDup (map field l) ->
  forall cfg, applyOptions (map optionOf l) cfg = applyOptions (map optionOf l') cfg.
Proof.
  induction 1 as [| a l l' Hp IH | a b l | l l' l'' Hp1 IH1 Hp2 IH2];
    intros Hnd cfg.
  - reflexivity.
  - cbn [map]. rewrite !applyOptions_cons. apply IH.
    cbn [map] in Hnd. apply NoDup_cons in Hnd. tauto.
  - cbn [map]. rewrite !applyOptions_cons. f_equal.
    apply optionOf_comm. cbn [map] in Hnd.
    apply NoDup_cons in Hnd as [Hn _]. intros Heq. apply Hn. rewrite Heq.
    left.
  - rewrite IH1 by exact Hnd. apply IH2.
    rewrite <- Hp1. exact Hnd.
Qed.

Lemma Mu_applyOptions (l : list Setter) :
  forall cfg, Mu (applyOptions (map optionOf l) cfg) = Mu cfg.
Proof.
  induction l as [| a l IH]; intros cfg; [reflexivity |].
  cbn [map]. rewrite applyOptions_cons, IH. destruct a; reflexivity.
Qed.

(** X9.  Options of the package that set different fields can be given
    in any order: the configuration they make is the same.  None of
    them sets the depth of field, which stays what it is. *)
Theorem applyOptions_order (l l' : list Setter) (cfg : StereogramConfig) :
  Permutation l l' ->
  NoDup (map field l) ->
  applyOptions (map optionOf l) cfg = applyOptions (map optionOf l') cfg
  /\ Mu (applyOptions (map optionOf l) cfg) = Mu cfg.
Proof.
  intros Hp Hnd. split.
  - apply applyOptions_Permutation; assumption.
  - apply Mu_applyOptions.
Qed.

Lemma applyOptions_order_witness :
  applyOptions (map optionOf [SetDPI 300; SetPalette [Ex.red]; SetRatio F64.two])
    defaultStereogramCfg
  = applyOptions (map optionOf [SetRatio F64.two; SetDPI 300; SetPalette [Ex.red]])
      defaultStereogramCfg
  /\ Mu (applyOptions (map optionOf [SetDPI 300; SetPalette [Ex.red]; SetRatio F64.two])
           defaultStereogramCfg)
     = Mu defaultStereogramCfg.
Proof.
  apply (applyOptions_order [SetDPI 300; SetPalette [Ex.red]; SetRatio F64.two]
           [SetRatio F64.two; SetDPI 300; SetPalette [Ex.red]]).
  - symmetry. apply (Permutation_cons_append [SetDPI 300; SetPalette [Ex.red]]).
  - cbn. repeat (apply NoDup_cons_2 || apply NoDup_nil_2);
      intros H; repeat (apply elem_of_cons in H as [H | H]; [discriminate H |]);
      apply elem_of_nil in H; exact H.
Defined.

(** ** The depth buffer and the origin of the mask *)

Lemma foldO_ext {A S : Type} (f f' : S -> A -> outcome S) (l : list A) :
  (forall s a, In a l -> f s a = f' s a) ->
  forall s, foldO f s l = foldO f' s l.
Proof.
  induction l as [| a l IH]; intros Hext s; [reflexivity |].
  cbn [foldO]. rewrite (Hext s a) by (left; reflexivity).
  destruct (f' s a) as [s' | |]; cbn [mbind outcome_bind]; try reflexivity.
  apply IH. intros s0 a0 Hin. apply Hext. right. exact Hin.
Qed.

Lemma depthColumn_ext (img img' : Image) (tc : option Color) (sizeY x : Z) :
  (forall y, 0 <= y < sizeY -> At img x y = At img' x y) ->
  depthColumn img tc sizeY x = depthColumn img' tc sizeY x.
Proof.
  intros Hat. unfold depthColumn.
  destruct (make F64.zero sizeY) as [col | |]; cbn [mbind outcome_bind];
    try reflexivity.
  apply foldO_ext. intros s y Hy. apply in_zrange in Hy.
  rewrite (Hat y Hy). reflexivity.
Qed.

(** X10.  The depth buffer is read from the pixels [(0, 0)] to
    [(Dx - 1, Dy - 1)] of the mask, where its bounds may begin: two
    masks of the same size that have the same pixels there have the same
    depth buffer, or both make the function panic. *)
Theorem newDepthBufferFromImage_origin (img img' : Image) (tc : option Color) :
  Dx (Bounds img) = Dx (Bounds img') ->
  Dy (Bounds img) = Dy (Bounds img') ->
  (forall x y, 0 <= x < Dx (Bounds img) -> 0 <= y < Dy (Bounds img) ->
               At img x y = At img' x y) ->
  newDepthBufferFromImage img tc = newDepthBufferFromImage img' tc.
Proof.
  intros Hdx Hdy Hat. unfold newDepthBufferFromImage. rewrite <- Hdx, <- Hdy.
  destruct (make [] (Dx (Bounds img))) as [z | |]; cbn [mbind outcome_bind];
    try reflexivity.
  apply foldO_ext. intros s x Hx. apply in_zrange in Hx.
  rewrite (depthColumn_ext img img' tc (Dy (Bounds img)) x); [reflexivity |].
  intros y Hy. apply Hat; assumption.
Qed.

Lemma newDepthBufferFromImage_origin_witness :
  newDepthBufferFromImage Ex.diagonalMask None
  = newDepthBufferFromImage
      (mkImage (mkRect 5 7 7 9)
         (fun x y => if (x <? 2) && (y <? 2) then At Ex.diagonalMask x y
                     else rgba8 Ex.blue))
      None.
Proof.
  apply newDepthBufferFromImage_origin; [reflexivity | reflexivity |].
  intros x y Hx Hy.
  change (Dx (Bounds Ex.diagonalMask)) with 2 in Hx.
  change (Dy (Bounds Ex.diagonalMask)) with 2 in Hy. cbn [At].
  destruct (Z.ltb_spec x 2); [| lia]. destruct (Z.ltb_spec y 2); [| lia].
  reflexivity.
Defined.

Section Entry.

Context {G : Type} (randIntn : G -> Z -> Z * G).

Lemma NewStereogramFromMask_drawn {E : Type} (maskImg : Image)
  (opts : list StereogramOption) (g : G) (img : RGBA)
  (err : option (StereogramError E)) :
  returned randIntn (NewStereogramFromMask (inl maskImg) opts g) (Some img, err) ->
  let cfg := applyOptions opts defaultStereogramCfg in
  err = None
  /\ 0 <= Dx (Bounds maskImg)
  /\ 0 <= Dy (Bounds maskImg)
  /\ exists zBuf tr,
       newDepthBufferFromImage maskImg (MaskTransparentColor cfg) = Done zBuf
       /\ drawn randIntn
            (drawAutoStereogram zBuf (Dx (Bounds maskImg)) (Dy (Bounds maskImg))
               (Mu cfg) (eyeSeparation cfg) (Palette cfg) g) tr img.
Proof.
  intros Hr cfg. unfold NewStereogramFromMask in Hr. fold cfg in Hr.
  inversion Hr as [| o tr img' Hd Ho Himg]; subst.
  destruct (newDepthBufferFromImage maskImg (MaskTransparentColor cfg))
    as [zBuf | |] eqn:Hbuf; cbn [mbind outcome_bind] in Hd;
    [| inversion Hd | inversion Hd].
  split; [reflexivity |].
  assert (Hx : 0 <= Dx (Bounds maskImg)).
  { unfold newDepthBufferFromImage, make in Hbuf.
    destruct (Z.ltb_spec (Dx (Bounds maskImg)) 0) as [Hneg | Hpos];
      [discriminate Hbuf | exact Hpos]. }
  split; [exact Hx |].
  destruct (drawn_workers randIntn _ _ _ _ _ _ _ _ _ Hd) as (Hh & _).
  split; [exact Hh |]. exists zBuf, tr. split; [reflexivity | exact Hd].
Qed.

(** X11.  What [NewStereogramFromMask] returns.  When the mask cannot
    be decoded it is no image and the error of the decoder, whatever the
    options are.  There is no other error: an image is returned without
    one, its rectangle is that of the mask moved to the origin, and it
    has one pixel for each of the mask. *)
Theorem NewStereogramFromMask_result {E : Type} (decoded : Image + E)
  (opts : list StereogramOption) (g : G)
  (r : option RGBA * option (StereogramError E)) :
  returned randIntn (NewStereogramFromMask decoded opts g) r ->
  match decoded with
  | inr err => r = (None, Some (CouldNotDecode err))
  | inl maskImg =>
      exists img,
        r = (Some img, None)
        /\ imRect img = mkRect 0 0 (Dx (Bounds maskImg)) (Dy (Bounds maskImg))
        /\ 0 <= Dx (Bounds maskImg) /\ 0 <= Dy (Bounds maskImg)
        /\ Z.of_nat (length (Pix img)) = Dy (Bounds maskImg)
        /\ forall row, In row (Pix img) ->
             Z.of_nat (length row) = Dx (Bounds maskImg)
  end.
Proof.
  intros Hr. destruct decoded as [maskImg | err].
  - destruct r as [[img |] e].
    + destruct (NewStereogramFromMask_drawn maskImg opts g img e Hr)
        as (-> & Hx & Hy & zBuf & tr & _ & Hd).
      exists img. split; [reflexivity |].
      destruct (drawn_workers randIntn _ _ _ _ _ _ _ _ _ Hd) as (_ & Himg & _).
      assert (Hwf : wfRGBA img).
      { rewrite Himg. apply wfRGBA_paint, wfRGBA_NewRGBA. }
      assert (Hrect : imRect img
                      = mkRect 0 0 (Dx (Bounds maskImg)) (Dy (Bounds maskImg))).
      { rewrite Himg, imRect_paint. cbn [NewRGBA imRect].
        apply Rect_origin; assumption. }
      split; [exact Hrect |]. split; [exact Hx |]. split; [exact Hy |].
      destruct Hwf as [Hrows Hcols]. rewrite Hrect in Hrows, Hcols.
      unfold Dx, Dy in Hrows, Hcols. cbn [MinX MinY MaxX MaxY] in Hrows, Hcols.
      rewrite Z.sub_0_r in Hrows, Hcols.
      split; [rewrite Hrows; apply Z2Nat.id; exact Hy |].
      intros row Hin. rewrite Forall_forall in Hcols.
      apply list_elem_of_In in Hin. rewrite (Hcols row Hin).
      apply Z2Nat.id. exact Hx.
    + inversion Hr.
  - inversion Hr. reflexivity.
Qed.



End Entry.

Lemma NewStereogramFromMask_result_witness :
  (None, Some (CouldNotDecode "unknown format"%string))
  = (None : option RGBA, Some (CouldNotDecode "unknown format"%string)).
Proof.
  apply (NewStereogramFromMask_result replayIntn (inr "unknown format"%string)
           [WithOutputDPI 300] ([] : list Z)
           (None, Some (CouldNotDecode "unknown format"%string))).
  apply returned_error.
Defined.

(** ** Rows *)

Lemma visibleLoop_ext (z1 z2 : list (list F64.t)) (mu e : F64.t) (x y : Z) :
  (forall x', zAt z1 x' y = zAt z2 x' y) ->
  forall fuel t, visibleLoop fuel z1 mu e x y t = visibleLoop fuel z2 mu e x y t.
Proof.
  intros Hrow. induction fuel as [| fuel IH]; intros t; [reflexivity |].
  cbn [visibleLoop]. rewrite !Hrow.
  destruct (zAt z2 x y) as [z | |]; cbn [mbind outcome_bind]; try reflexivity.
  destruct (zAt z2 (x - t) y) as [zl | |]; cbn [mbind outcome_bind]; try reflexivity.
  destruct (F64.ltb zl (sightDepth z mu e t)); cbn [mbind outcome_bind].
  - destruct (zAt z2 (x + t) y) as [zr | |]; cbn [mbind outcome_bind];
      try reflexivity.
    destruct (_ && _); [apply IH | reflexivity].
  - reflexivity.
Qed.

Lemma linkStep_ext (z1 z2 : list (list F64.t)) (w : Z) (mu e : F64.t) (y : Z) :
  (forall x', zAt z1 x' y = zAt z2 x' y) ->
  forall same x, linkStep z1 w mu e y same x = linkStep z2 w mu e y same x.
Proof.
  intros Hrow same x. unfold linkStep, isVisible.
  rewrite Hrow, (visibleLoop_ext z1 z2 mu e x y Hrow). reflexivity.
Qed.

(** X13.  A row is drawn from its own depths: two depth buffers that
    have the same row [y] give the same table of links of this row and
    the same worker, whatever their other rows are. *)
Theorem rowWorker_own_row (z1 z2 : list (list F64.t)) (w : Z) (mu e : F64.t)
  (palette : list Color) (y : Z) :
  (forall x, zAt z1 x y = zAt z2 x y) ->
  rowLinks z1 w mu e y = rowLinks z2 w mu e y
  /\ rowWorker z1 w mu e palette y = rowWorker z2 w mu e palette y.
Proof.
  intros Hrow.
  assert (Hl : rowLinks z1 w mu e y = rowLinks z2 w mu e y).
  { unfold rowLinks.
    destruct (make 0 w) as [s | |]; cbn [mbind outcome_bind]; try reflexivity.
    destruct (foldO _ s (zrange w)) as [s' | |]; cbn [mbind outcome_bind];
      try reflexivity.
    apply foldO_ext. intros s0 a _. apply linkStep_ext. exact Hrow. }
  split; [exact Hl |]. unfold rowWorker. rewrite Hl. reflexivity.
Qed.

Lemma rowWorker_own_row_witness :
  rowLinks [[Ex.lo; Ex.lo]; [Ex.lo; Ex.hi]] 2 (Mu defaultStereogramCfg) Ex.six 0
  = rowLinks [[Ex.lo; Ex.hi]; [Ex.lo; Ex.lo]] 2 (Mu defaultStereogramCfg) Ex.six 0
  /\ rowWorker [[Ex.lo; Ex.lo]; [Ex.lo; Ex.hi]] 2 (Mu defaultStereogramCfg) Ex.six
       Ex.palette 0
     = rowWorker [[Ex.lo; Ex.hi]; [Ex.lo; Ex.lo]] 2 (Mu defaultStereogramCfg) Ex.six
         Ex.palette 0.
Proof.
  apply rowWorker_own_row.
  intros x. unfold zAt, idx. destruct (x <? 0); [reflexivity |].
  destruct (Z.to_nat x) as [| [| n]]; reflexivity.
Defined.

(** A loop whose turns are done and keep an invariant is done. *)
Lemma foldO_Done {A S : Type} (P : S -> Prop) (f : S -> A -> outcome S)
  (l : list A) :
  (forall s a, In a l -> P s -> exists s', f s a = Done s' /\ P s') ->
  forall s, P s -> exists s', foldO f s l = Done s' /\ P s'.
Proof.
  induction l as [| a l IH]; intros Hstep s Hs; cbn [foldO].
  - exists s. split; [reflexivity | exact Hs].
  - destruct (Hstep s a (or_introl eq_refl) Hs) as (s1 & -> & Hs1).
    cbn [mbind outcome_bind]. apply IH; [| exact Hs1].
    intros s0 a0 Hin. apply Hstep. right. exact Hin.
Qed.

(** X14.  A row that is not wider than any of its separations has no
    links: after the disparity pass every column still points to
    itself, so every pixel of the row is drawn with a colour of its
    own and the depths of the row leave no trace in it. *)
Theorem rowLinks_narrow (zBuf : list (list F64.t)) (w : Z) (mu e : F64.t) (y : Z) :
  0 <= w <= 2 ^ 62 ->
  (forall x, 0 <= x < w ->
     exists z, zAt zBuf x y = Done z /\ w <= projSeparation z mu e < 2 ^ 62) ->
  rowLinks zBuf w mu e y = Done (zrange w).
Proof.
  intros Hw Hsep. unfold rowLinks.
  rewrite make_Done by lia. cbn [mbind outcome_bind].
  rewrite same_init by lia. cbn [mbind outcome_bind].
  destruct (foldO_Done (fun s => s = zrange w) (linkStep zBuf w mu e y) (zrange w))
    with (s := zrange w) as (s' & -> & ->); [| reflexivity | reflexivity].
  intros s x Hin ->. apply in_zrange in Hin. exists (zrange w).
  split; [| reflexivity]. unfold linkStep.
  destruct (Hsep x Hin) as (z & -> & Hs). cbn [mbind outcome_bind].
  destruct (separation_edges (projSeparation z mu e) x y w) as (left & -> & -> & _);
    [lia | lia | lia |].
  destruct (Z.ltb_spec left 0) as [Hneg | Hpos]; cbn [orb]; [reflexivity |].
  destruct (Z.geb_spec (left + projSeparation z mu e) w) as [_ | Hin'];
    [reflexivity | lia].
Qed.

Lemma rowLinks_narrow_witness :
  rowLinks [[Ex.lo]; [Ex.hi]; [Ex.lo]] 3 (Mu defaultStereogramCfg)
    (eyeSeparation defaultStereogramCfg) 0
  = Done (zrange 3).
Proof.
  apply rowLinks_narrow; [lia |].
  intros x Hx.
  assert (Hc : x = 0 \/ x = 1 \/ x = 2) by lia.
  destruct Hc as [-> | [-> | ->]]; eexists; (split; [reflexivity |]);
    vm_compute; (split; [discriminate | reflexivity]).
Defined.

(** ** Links *)

Lemma reach_trans (same : list Z) (a b c : Z) :
  reach same a b -> reach same b c -> reach same a c.
Proof.
  induction 1 as [a | a k b Hk _ IH]; intros Hbc; [exact Hbc |].
  apply (reach_step same a k c Hk). apply IH. exact Hbc.
Qed.

Lemma joined_reach (same : list Z) (a k b : Z) :
  reach same a k -> joined same k b -> joined same a b.
Proof.
  intros Hk (c & Hkc & Hbc). exists c. split; [| exact Hbc].
  apply (reach_trans same a k c Hk Hkc).
Qed.

Lemma joined_sym (same : list Z) (a b : Z) : joined same a b -> joined same b a.
Proof. intros (c & Ha & Hb). exists c. split; assumption. Qed.

Lemma reach_one (same : list Z) (a k : Z) : idx same a = Done k -> reach same a k.
Proof. intros Hk. apply (reach_step same a k k Hk). apply reach_refl. Qed.

(** The link loop ends at a column that points to itself or to the
    last [right]; linking the two columns it ends at joins the two
    columns it began with. *)
Lemma linkLoop_joined (same : list Z) :
  forall (fuel : nat) (left right l r : Z),
    linkLoop fuel same left right = Done (l, r) ->
    (idx same l = Done l \/ idx same l = Done r)
    /\ forall same',
         (forall a b, reach same a b -> reach same' a b) ->
         joined same' l r -> joined same' left right.
Proof.
  induction fuel as [| fuel IH]; intros left right l r H; [discriminate |].
  cbn [linkLoop] in H.
  destruct (idx same left) as [k | |] eqn:Hk; cbn [mbind outcome_bind] in H;
    try discriminate.
  destruct (Z.eqb_spec k left) as [-> | Hkl]; cbn [negb andb] in H.
  { injection H as <- <-. split; [left; exact Hk | auto]. }
  destruct (Z.eqb_spec k right) as [-> | Hkr]; cbn [negb andb] in H.
  { injection H as <- <-. split; [right; exact Hk | auto]. }
  destruct (Z.ltb_spec k right) as [Hlt | Hge].
  - destruct (IH _ _ _ _ H) as [Hend Hjoin]. split; [exact Hend |].
    intros same' Hmono Hj.
    apply (joined_reach same' left k right);
      [apply Hmono, reach_one; exact Hk | apply Hjoin; assumption].
  - destruct (IH _ _ _ _ H) as [Hend Hjoin]. split; [exact Hend |].
    intros same' Hmono Hj.
    apply (joined_reach same' left k right);
      [apply Hmono, reach_one; exact Hk |].
    apply joined_sym. apply Hjoin; assumption.
Qed.

(** A new link from a column that points to itself keeps the old ones. *)
Lemma reach_upd (same same' : list Z) (l r : Z) :
  idx same l = Done l \/ idx same l = Done r ->
  upd same l r = Done same' ->
  (forall a b, reach same a b -> reach same' a b) /\ reach same' l r.
Proof.
  intros Hend Hupd. apply upd_Done in Hupd as [Hl ->].
  assert (Hnew : idx (<[Z.to_nat l := r]> same) l = Done r).
  { apply idx_Done. split; [lia |]. apply list_lookup_insert_eq. lia. }
  split; [| apply reach_one; exact Hnew].
  destruct Hend as [Hroot | Hsame].
  - intros a b Hab. induction Hab as [a | a k b Hk _ IH]; [apply reach_refl |].
    destruct (Z.eq_dec a l) as [-> | Hne].
    + rewrite Hroot in Hk. injection Hk as <-. exact IH.
    + apply (reach_step _ a k b); [| exact IH].
      apply idx_Done in Hk as [Ha Hk]. apply idx_Done. split; [exact Ha |].
      rewrite list_lookup_insert_ne by lia. exact Hk.
  - apply idx_Done in Hsame as [_ Hsame].
    rewrite (list_insert_id same (Z.to_nat l) r Hsame). auto.
Qed.

Lemma linkStep_joined (zBuf : list (list F64.t)) (w : Z) (mu e : F64.t)
  (y x : Z) (same same' : list Z) :
  w <= 2 ^ 62 -> 0 <= x < w ->
  (forall z, zAt zBuf x y = Done z -> 0 <= projSeparation z mu e < 2 ^ 62) ->
  linkStep zBuf w mu e y same x = Done same' ->
  (forall a b, reach same a b -> reach same' a b)
  /\ forall left right, constraintOf zBuf mu e y x left right ->
       0 <= left -> right < w -> joined same' left right.
Proof.
  intros Hw Hx Hsep Hstep. unfold linkStep in Hstep.
  destruct (zAt zBuf x y) as [z | |] eqn:Hz; cbn [mbind outcome_bind] in Hstep;
    try discriminate.
  destruct (separation_edges (projSeparation z mu e) x y w (Hsep z eq_refl) Hx Hw)
    as (left & Hleft & Hright & _).
  assert (Hl : left = x - Z.quot (projSeparation z mu e
                 + Z.land (Z.land (projSeparation z mu e) y) 1) 2).
  { rewrite <- Hleft. pose proof (Hsep z eq_refl) as Hs.
    pose proof (land_1_bound (Z.land (projSeparation z mu e) y)) as Hp.
    assert (H62 : 2 ^ 62 = 4611686018427387904) by reflexivity.
    assert (H63 : 2 ^ 63 = 9223372036854775808) by reflexivity.
    rewrite H62 in *.
    rewrite (wrap64_small (projSeparation z mu e + _)) by (rewrite H63; lia).
    apply wrap64_small. rewrite H63.
    assert (0 <= Z.quot (projSeparation z mu e
                  + Z.land (Z.land (projSeparation z mu e) y) 1) 2
            <= projSeparation z mu e
               + Z.land (Z.land (projSeparation z mu e) y) 1).
    { rewrite Z.quot_div_nonneg by lia. split; [apply Z.div_pos; lia |].
      apply Z.div_le_upper_bound; lia. }
    lia. }
  rewrite Hleft, Hright in Hstep.
  destruct (Z.ltb_spec left 0) as [Hneg | Hpos]; cbn [orb] in Hstep.
  { injection Hstep as <-. split; [auto |].
    intros l r (z' & Hz' & -> & _ & _) Hl0 _.
    rewrite Hz in Hz'. injection Hz' as <-. lia. }
  destruct (Z.geb_spec (left + projSeparation z mu e) w) as [Hout | Hin];
    cbn [orb] in Hstep.
  { injection Hstep as <-. split; [auto |].
    intros l r (z' & Hz' & -> & -> & _) _ Hr.
    rewrite Hz in Hz'. injection Hz' as <-. lia. }
  destruct (isVisible zBuf mu e x y) as [vis | |] eqn:Hvis;
    cbn [mbind outcome_bind] in Hstep; try discriminate.
  destruct vis; cbn [negb] in Hstep.
  2:{ injection Hstep as <-. split; [auto |].
      intros l r (z' & _ & _ & _ & Hv). rewrite Hvis in Hv. discriminate Hv. }
  destruct (linkLoop (linkFuel same) same left (left + projSeparation z mu e))
    as [[l r] | |] eqn:Hloop; cbn [mbind outcome_bind fst snd] in Hstep;
    try discriminate.
  destruct (linkLoop_joined same _ _ _ _ _ Hloop) as [Hend Hjoin].
  destruct (reach_upd same same' l r Hend Hstep) as [Hmono Hlr].
  split; [exact Hmono |].
  intros l0 r0 (z' & Hz' & -> & -> & _) _ _.
  rewrite Hz in Hz'. injection Hz' as <-. rewrite <- Hl.
  apply Hjoin; [exact Hmono |].
  exists r. split; [exact Hlr | apply reach_refl].
Qed.

(** What the turns of a loop have made is still there at its end, when
    the later turns keep it. *)
Lemma foldO_each {A S : Type} (P : S -> Prop) (Q : A -> S -> Prop)
  (K : S -> S -> Prop) (f : S -> A -> outcome S) (l : list A) :
  (forall s, K s s) ->
  (forall s1 s2 s3, K s1 s2 -> K s2 s3 -> K s1 s3) ->
  (forall a s s', K s s' -> Q a s -> Q a s') ->
  (forall s a s', In a l -> P s -> f s a = Done s' -> P s' /\ K s s' /\ Q a s') ->
  forall s s', P s -> foldO f s l = Done s' ->
    P s' /\ K s s' /\ forall a, In a l -> Q a s'.
Proof.
  intros Hrefl Htrans Hkeep. induction l as [| a l IH]; intros Hstep s s' Hs H.
  - cbn in H. injection H as <-. split; [exact Hs |]. split; [apply Hrefl |].
    intros a [].
  - cbn [foldO] in H.
    destruct (f s a) as [s1 | |] eqn:Hf; cbn [mbind outcome_bind] in H;
      try discriminate.
    destruct (Hstep s a s1 (or_introl eq_refl) Hs Hf) as (Hs1 & Hk1 & Hq1).
    destruct (IH (fun s0 a0 s0' Hin => Hstep s0 a0 s0' (or_intror Hin)) s1 s' Hs1 H)
      as (Hs' & Hk & Hq).
    split; [exact Hs' |]. split; [exact (Htrans _ _ _ Hk1 Hk) |].
    intros b [<- | Hin]; [exact (Hkeep _ _ _ Hk Hq1) | exact (Hq b Hin)].
Qed.

(** After the disparity pass the two columns of every constraint of the
    row are joined. *)
Lemma rowLinks_joined (zBuf : list (list F64.t)) (w : Z) (mu e : F64.t)
  (y : Z) (same : list Z) :
  w <= 2 ^ 62 ->
  (forall x z, 0 <= x < w -> zAt zBuf x y = Done z ->
               0 <= projSeparation z mu e < 2 ^ 62) ->
  rowLinks zBuf w mu e y = Done same ->
  forall x left right, 0 <= x < w ->
    constraintOf zBuf mu e y x left right -> 0 <= left -> right < w ->
    joined same left right.
Proof.
  intros Hw Hsep Hrow. unfold rowLinks in Hrow.
  destruct (Z.ltb_spec w 0) as [Hneg | Hpos]; [intros; lia |].
  rewrite make_Done in Hrow by exact Hpos. cbn [mbind outcome_bind] in Hrow.
  rewrite same_init in Hrow by exact Hpos. cbn [mbind outcome_bind] in Hrow.
  destruct (foldO_each (linked w)
              (fun x s => forall left right,
                   constraintOf zBuf mu e y x left right ->
                   0 <= left -> right < w -> joined s left right)
              (fun s s' => forall a b, reach s a b -> reach s' a b)
              (linkStep zBuf w mu e y) (zrange w))
    with (s := zrange w) (s' := same) as (_ & _ & Hall).
  - auto.
  - auto.
  - intros a s s' Hk Hq left right Hc Hl Hr.
    destruct (Hq left right Hc Hl Hr) as (c & H1 & H2).
    exists c. split; apply Hk; assumption.
  - intros s x s' Hin Hs Hstep. apply in_zrange in Hin.
    assert (Hz : forall z, zAt zBuf x y = Done z ->
                           0 <= projSeparation z mu e < 2 ^ 62)
      by (intros z Hz; exact (Hsep x z Hin Hz)).
    split; [exact (proj2 (linkStep_ok zBuf w mu e y x s Hw Hin Hz Hs) s' Hstep) |].
    exact (linkStep_joined zBuf w mu e y x s s' Hw Hin Hz Hstep).
  - apply linked_zrange. exact Hpos.
  - exact Hrow.
  - intros x left right Hx. apply Hall. apply in_zrange. exact Hx.
Qed.

(** The pixels of the columns that are joined have the same colour. *)
Lemma rowFacts_reach (zBuf : list (list F64.t)) (w : Z) (mu e : F64.t)
  (palette : list Color) (y : Z) (same : list Z) (P : list Color) :
  linked w same -> rowFacts zBuf w mu e palette y same P ->
  forall a b, reach same a b -> 0 <= a < w ->
    0 <= b < w /\ P !! Z.to_nat a = P !! Z.to_nat b.
Proof.
  intros Hlk (_ & _ & Hfacts) a b Hab.
  induction Hab as [a | a k b Hk _ IH]; intros Ha; [auto |].
  apply idx_Done in Hk as [_ Hk].
  destruct (Hfacts (Z.to_nat a)) as (sx & c & Hsx & Hlt & Hc & _ & Hright & _);
    [lia |].
  rewrite Hk in Hsx. injection Hsx as ->.
  destruct Hlk as [_ Hfw]. pose proof (Hfw _ _ Hk) as Hge.
  destruct IH as [Hb Heq]; [lia |]. split; [exact Hb |].
  rewrite <- Heq, Nat2Z.id.
  destruct (Nat.eq_dec sx (Z.to_nat a)) as [-> | Hne]; [reflexivity |].
  rewrite Hc, Hright by lia. reflexivity.
Qed.

Section Constraints.

Context {G : Type} (randIntn : G -> Z -> Z * G).

Lemma drawn_joined (zBuf : list (list F64.t)) (w h : Z) (mu e : F64.t)
  (palette : list Color) (g : G) (tr : list event) (img : RGBA) :
  w <= 2 ^ 62 ->
  (forall x y z, 0 <= x < w -> 0 <= y < h -> zAt zBuf x y = Done z ->
                 0 <= projSeparation z mu e < 2 ^ 62) ->
  drawn randIntn (drawAutoStereogram zBuf w h mu e palette g) tr img ->
  forall x y left right, 0 <= x < w -> 0 <= y < h ->
    constraintOf zBuf mu e y x left right -> 0 <= left -> right < w ->
    RGBAAt img left y = RGBAAt img right y.
Proof.
  intros Hw Hsep Hd x y left right Hx Hy Hc Hl Hr.
  destruct (drawn_rows randIntn _ _ _ _ _ _ _ _ _ Hd) as (_ & _ & Hrows).
  destruct (Hrows y Hy) as (_ & same & P & Hfacts & Hpix).
  assert (Hsep' : forall x' z, 0 <= x' < w -> zAt zBuf x' y = Done z ->
                               0 <= projSeparation z mu e < 2 ^ 62)
    by (intros x' z Hx' Hz; apply (Hsep x' y z); assumption).
  assert (Hlk : linked w same)
    by (apply (rowLinks_linked zBuf w mu e y); [exact Hw | exact Hsep' | apply Hfacts]).
  pose proof (rowLinks_joined zBuf w mu e y same Hw Hsep' (proj1 Hfacts)
                x left right Hx Hc Hl Hr) as (c & Hlc & Hrc).
  assert (Hlr : left <= right).
  { destruct Hc as (z & Hz & _ & -> & _). pose proof (Hsep x y z Hx Hy Hz). lia. }
  destruct (rowFacts_reach _ _ _ _ _ _ _ _ Hlk Hfacts left c Hlc) as [_ H1]; [lia |].
  destruct (rowFacts_reach _ _ _ _ _ _ _ _ Hlk Hfacts right c Hrc) as [_ H2]; [lia |].
  destruct (Hpix left) as [_ ->]; [lia |].
  destruct (Hpix right) as [_ ->]; [lia |].
  rewrite H1, H2. reflexivity.
Qed.

(** X15.  The constraint of the stereogram.  When no separation is
    negative, every point of the depth buffer that passes the test of
    the edges and is visible has the same colour at the two places
    where the eyes see it: the pixels [left] and [right] of its row,
    which are a separation apart, are equal in every image that is
    returned, whatever links were made before or after. *)
Theorem drawAutoStereogram_constraint (zBuf : list (list F64.t)) (w h : Z)
  (mu e : F64.t) (palette : list Color) (g : G) (tr : list event) (img : RGBA) :
  w <= 2 ^ 62 ->
  (forall x y z, 0 <= x < w -> 0 <= y < h -> zAt zBuf x y = Done z ->
                 0 <= projSeparation z mu e < 2 ^ 62) ->
  drawn randIntn (drawAutoStereogram zBuf w h mu e palette g) tr img ->
  forall x y z, 0 <= x < w -> 0 <= y < h ->
    zAt zBuf x y = Done z ->
    let s := projSeparation z mu e in
    let left := x - Z.quot (s + Z.land (Z.land s y) 1) 2 in
    let right := left + s in
    0 <= left -> right < w ->
    isVisible zBuf mu e x y = Done true ->
    RGBAAt img left y = RGBAAt img right y.
Proof.
  intros Hw Hsep Hd x y z Hx Hy Hz s left right Hl Hr Hvis.
  apply (drawn_joined zBuf w h mu e palette g tr img Hw Hsep Hd x y left right
           Hx Hy); [| exact Hl | exact Hr].
  exists z. repeat split; [exact Hz | exact Hvis].
Qed.

End Constraints.

Lemma drawAutoStereogram_constraint_witness :
  RGBAAt (canvas (run replayIntn Ex.start Ex.order)) 1 1
  = RGBAAt (canvas (run replayIntn Ex.start Ex.order)) 4 1.
Proof.
  apply (drawAutoStereogram_constraint replayIntn Ex.depth 8 2
           (Mu defaultStereogramCfg) Ex.six Ex.palette Ex.numbers
           (runTrace replayIntn Ex.start Ex.order)
           (canvas (run replayIntn Ex.start Ex.order))
           ltac:(vm_compute; discriminate) Ex_depth_separations Ex_start_drawn
           3 1 Ex.lo); try lia; vm_compute; reflexivity || discriminate.
Defined.

(** ** Rows that are drawn to their end *)

Lemma sightEnds_spec (z mu e : F64.t) :
  sightEnds z mu e = true ->
  exists T, 1 <= T <= projSeparation z mu e / 2
            /\ F64.ltb (sightDepth z mu e T) F64.one = false.
Proof.
  unfold sightEnds. intros H. apply existsb_exists in H as (T & Hin & HT).
  apply in_map_iff in Hin as (t & <- & Hin). apply in_zrange in Hin.
  exists (1 + t). split; [lia |]. apply negb_true_iff. exact HT.
Qed.

(** The loop of visibility is done when the line of sight ends over
    columns of the row. *)
Lemma visibleLoop_Done (zBuf : list (list F64.t)) (mu e : F64.t)
  (x y : Z) (z : F64.t) (T : Z) :
  zAt zBuf x y = Done z ->
  F64.ltb (sightDepth z mu e T) F64.one = false ->
  (forall t, 1 <= t <= T ->
     (exists zl, zAt zBuf (x - t) y = Done zl)
     /\ exists zr, zAt zBuf (x + t) y = Done zr) ->
  forall (fuel : nat) (t : Z),
    1 <= t <= T -> T - t < Z.of_nat fuel ->
    exists b, visibleLoop fuel zBuf mu e x y t = Done b.
Proof.
  intros Hz HT Hrow. induction fuel as [| fuel IH]; intros t Ht Hfuel; [lia |].
  cbn [visibleLoop]. rewrite Hz. cbn [mbind outcome_bind].
  destruct (Hrow t Ht) as [(zl & ->) (zr & Hzr)]. cbn [mbind outcome_bind].
  destruct (F64.ltb zl (sightDepth z mu e t)); cbn [mbind outcome_bind andb].
  - rewrite Hzr. cbn [mbind outcome_bind].
    destruct (F64.ltb zr (sightDepth z mu e t)); cbn [andb]; [| eauto].
    destruct (F64.ltb (sightDepth z mu e t) F64.one) eqn:Hlt; [| eauto].
    assert (t <> T) by (intros ->; congruence).
    apply IH; lia.
  - eauto.
Qed.

Lemma separation_room (s x y w : Z) :
  0 <= s < 2 ^ 62 -> 0 <= x < w -> w <= 2 ^ 62 ->
  exists left,
    wrap64 (x - Z.quot (wrap64 (s + Z.land (Z.land s y) 1)) 2) = left
    /\ wrap64 (left + s) = left + s
    /\ left <= x - s / 2 /\ x + s / 2 <= left + s.
Proof.
  intros Hs Hx Hw.
  pose proof (land_1_bound (Z.land s y)) as Hp.
  set (p := Z.land (Z.land s y) 1) in *.
  assert (H62 : 2 ^ 62 = 4611686018427387904) by reflexivity.
  assert (H63 : 2 ^ 63 = 9223372036854775808) by reflexivity.
  rewrite H62 in *.
  assert (Hq : s / 2 <= Z.quot (s + p) 2 <= s - s / 2).
  { rewrite Z.quot_div_nonneg by lia. Z.div_mod_to_equations. lia. }
  assert (Hs2 : 0 <= s / 2 <= s) by (Z.div_mod_to_equations; lia).
  exists (x - Z.quot (s + p) 2).
  rewrite (wrap64_small (s + p)) by (rewrite H63; lia).
  rewrite (wrap64_small (x - Z.quot (s + p) 2)) by (rewrite H63; lia).
  rewrite (wrap64_small (x - Z.quot (s + p) 2 + s)) by (rewrite H63; lia).
  repeat split; lia.
Qed.

Lemma linkStep_Done (zBuf : list (list F64.t)) (w : Z) (mu e : F64.t)
  (y x : Z) (same : list Z) :
  w <= 2 ^ 62 -> 0 <= x < w -> rowReady zBuf w mu e y -> linked w same ->
  exists same', linkStep zBuf w mu e y same x = Done same' /\ linked w same'.
Proof.
  intros Hw Hx Hrow Hlk. unfold linkStep.
  destruct (Hrow x Hx) as (z & Hz & Hs & Hends). rewrite Hz.
  cbn [mbind outcome_bind].
  destruct (separation_room (projSeparation z mu e) x y w Hs Hx Hw)
    as (left & -> & -> & Hleft & Hright).
  destruct (Z.ltb_spec left 0) as [Hneg | Hpos]; cbn [orb]; [eauto |].
  destruct (Z.geb_spec (left + projSeparation z mu e) w) as [Hout | Hin]; cbn [orb];
    [eauto |].
  destruct (sightEnds_spec z mu e Hends) as (T & HT & Hlast).
  destruct (visibleLoop_Done zBuf mu e x y z T Hz Hlast) with (fuel := S (Z.to_nat x))
    (t := 1) as (vis & Hvis).
  - intros t Ht.
    destruct (Hrow (x - t)) as (zl & Hzl & _); [lia |].
    destruct (Hrow (x + t)) as (zr & Hzr & _); [lia |]. eauto.
  - lia.
  - lia.
  - unfold isVisible. rewrite Hvis. cbn [mbind outcome_bind].
    destruct vis; cbn [negb]; [| eauto].
    destruct (linkLoop_ok w same Hlk (linkFuel same) left
                (left + projSeparation z mu e))
      as (l & r & -> & Hlr & Hr); [lia | lia | apply linkFuel_enough; auto; lia |].
    cbn [mbind outcome_bind fst snd].
    apply (linked_upd w same l r Hlk); lia.
Qed.

Lemma rowLinks_Done (zBuf : list (list F64.t)) (w : Z) (mu e : F64.t) (y : Z) :
  0 <= w <= 2 ^ 62 -> rowReady zBuf w mu e y ->
  exists same, rowLinks zBuf w mu e y = Done same /\ linked w same.
Proof.
  intros Hw Hrow. unfold rowLinks.
  rewrite make_Done by lia. cbn [mbind outcome_bind].
  rewrite same_init by lia. cbn [mbind outcome_bind].
  apply (foldO_Done (linked w)); [| apply linked_zrange; lia].
  intros s x Hin Hs. apply in_zrange in Hin.
  apply linkStep_Done; auto. lia.
Qed.

(** *** Workers *)

Lemma safe_bind {A B : Type} (m : prog A) (f : A -> prog B) :
  safe m -> (forall a, safe (f a)) -> safe (m ≫= f).
Proof.
  intros Hm Hf. induction Hm as [a | n k Hn _ IH | x y c k _ IH].
  - apply Hf.
  - apply (safe_rand n (fun v => prog_bind f (k v)) Hn). exact IH.
  - apply (safe_set x y c (prog_bind f k)). exact IH.
Qed.

Lemma safe_bind2 {A B C : Type} (m : prog A) (g : A -> prog B) (f : B -> prog C) :
  safe m -> (forall a, safe (g a ≫= f)) -> safe ((m ≫= g) ≫= f).
Proof.
  intros Hm Hf. induction Hm as [a | n k Hn _ IH | x y c k _ IH].
  - apply Hf.
  - apply (safe_rand n (fun v => prog_bind f (prog_bind g (k v))) Hn). exact IH.
  - apply (safe_set x y c (prog_bind f (prog_bind g k))). exact IH.
Qed.

Lemma safe_getRandomPaletteColor (palette : list Color) :
  safe (getRandomPaletteColor palette).
Proof.
  unfold getRandomPaletteColor.
  destruct (Nat.eqb_spec (length palette) 0) as [Hlen | Hlen].
  - repeat (apply safe_rand; [lia | intros ? _]). apply safe_ret.
  - apply safe_rand; [lia |]. intros v Hv.
    destruct (lookup_lt_is_Some_2 palette (Z.to_nat v)) as [c Hc]; [lia |].
    replace (idx palette v) with (Done c); [apply safe_ret |].
    symmetry. apply idx_Done. split; [lia | exact Hc].
Qed.

Lemma liftO_bind {A B : Type} (a : A) (f : A -> prog B) :
  liftO (Done a) ≫= f = f a.
Proof. reflexivity. Qed.

Lemma safe_colorLoop (palette : list Color) (same : list Z) (y w : Z) :
  linked w same ->
  forall (xs : list Z) (P : list Color),
    (forall x, In x xs -> 0 <= x < w) -> Z.of_nat (length P) = w ->
    safe (colorLoop palette same y xs P).
Proof.
  intros Hlk. induction xs as [| x xs IH]; intros P Hxs HP; [apply safe_ret |].
  cbn [colorLoop].
  assert (Hx : 0 <= x < w) by (apply Hxs; left; reflexivity).
  destruct (linked_idx w same x Hlk Hx) as (sx & -> & Hsx).
  rewrite liftO_bind.
  destruct (lookup_lt_is_Some_2 P (Z.to_nat sx)) as [c Hc]; [lia |].
  replace (idx P sx) with (Done c)
    by (symmetry; apply idx_Done; split; [lia | exact Hc]).
  rewrite liftO_bind.
  assert (Hupd : forall (Q : list Color) (c' : Color),
             Z.of_nat (length Q) = w ->
             upd Q x c' = Done (<[Z.to_nat x := c']> Q)).
  { intros Q c' HQ. unfold upd.
    destruct (Z.leb_spec 0 x); [| lia].
    destruct (Z.ltb_spec x (Z.of_nat (length Q))); [reflexivity | lia]. }
  rewrite Hupd by exact HP. rewrite liftO_bind.
  assert (Hrest : forall Q : list Color,
             Z.of_nat (length Q) = w ->
             safe (px ← liftO (idx Q x);
                   SetPixel x y (Color_RGBA px) (colorLoop palette same y xs Q))).
  { intros Q HQ.
    destruct (lookup_lt_is_Some_2 Q (Z.to_nat x)) as [px Hpx]; [lia |].
    replace (idx Q x) with (Done px)
      by (symmetry; apply idx_Done; split; [lia | exact Hpx]).
    rewrite liftO_bind. apply safe_set. apply IH; [| exact HQ].
    intros x' Hin. apply Hxs. right. exact Hin. }
  destruct (sx =? x).
  - apply safe_bind2; [apply safe_getRandomPaletteColor |].
    intros c'. rewrite Hupd by (rewrite length_insert; exact HP).
    rewrite liftO_bind. apply Hrest. rewrite !length_insert. exact HP.
  - change (Ret (<[Z.to_nat x := c]> P) ≫= ?f) with (f (<[Z.to_nat x := c]> P)).
    apply Hrest. rewrite length_insert. exact HP.
Qed.

Lemma safe_rowWorker (zBuf : list (list F64.t)) (w : Z) (mu e : F64.t)
  (palette : list Color) (y : Z) :
  0 <= w <= 2 ^ 62 -> rowReady zBuf w mu e y ->
  safe (rowWorker zBuf w mu e palette y).
Proof.
  intros Hw Hrow. unfold rowWorker.
  destruct (rowLinks_Done zBuf w mu e y Hw Hrow) as (same & -> & Hlk).
  rewrite liftO_bind, make_Done by lia. rewrite liftO_bind.
  apply (safe_colorLoop palette same y w Hlk).
  - intros x Hin. apply list_elem_of_In in Hin. rewrite elem_of_reverse in Hin.
    apply list_elem_of_In in Hin. apply in_zrange. exact Hin.
  - rewrite length_replicate. lia.
Qed.

Section Completion.

Context {G : Type} (randIntn : G -> Z -> Z * G).

(** [rand.Intn(n)] is a number from 0 to [n - 1]. *)
Hypothesis randIntn_range :
  forall g n, 0 < n -> 0 <= fst (randIntn g n) < n.

Lemma steps_app (st st' st'' : state G) (tr tr' : list event) :
  steps randIntn st tr st' -> steps randIntn st' tr' st'' ->
  steps randIntn st (tr ++ tr') st''.
Proof.
  induction 1 as [st | st ev st1 tr st2 Hstep _ IH]; intros H2; [exact H2 |].
  cbn [app]. apply (steps_cons randIntn st ev st1); [exact Hstep | apply IH, H2].
Qed.

(** A safe worker can be served until it returns; the other workers
    wait. *)
Lemma safe_finish (p : prog unit) :
  safe p ->
  forall (st : state G) (i : nat),
    workers st !! i = Some p ->
    exists tr st',
      steps randIntn st tr st'
      /\ workers st' = <[i := Ret tt]> (workers st).
Proof.
  induction 1 as [a | n k Hn Hk IH | x y c k Hk IH]; intros st i Hi.
  - exists [], st. split; [constructor |].
    destruct a. symmetry. apply list_insert_id. exact Hi.
  - pose proof (randIntn_range (source st) n Hn) as Hv.
    pose proof (lookup_lt_Some _ _ _ Hi) as Hlt.
    destruct (IH _ Hv
                (mkState (<[i := k (fst (randIntn (source st) n))]> (workers st))
                   (snd (randIntn (source st) n)) (canvas st)) i)
      as (tr & st' & Hsteps & Hw).
    { cbn [workers]. apply list_lookup_insert_eq. exact Hlt. }
    eexists (_ :: tr), st'. split.
    + eapply steps_cons; [| exact Hsteps]. apply (step_rand randIntn st i n k Hi Hn).
    + rewrite Hw. cbn [workers]. apply list_insert_insert_eq.
  - pose proof (lookup_lt_Some _ _ _ Hi) as Hlt.
    destruct (IH (mkState (<[i := k]> (workers st)) (source st)
                    (SetRGBA (canvas st) x y c)) i)
      as (tr & st' & Hsteps & Hw).
    { cbn [workers]. apply list_lookup_insert_eq. exact Hlt. }
    eexists (_ :: tr), st'. split.
    + eapply steps_cons; [| exact Hsteps]. apply (step_set randIntn st i x y c k Hi).
    + rewrite Hw. cbn [workers]. apply list_insert_insert_eq.
Qed.

Lemma safe_finish_upto (n : nat) :
  forall st : state G,
    Forall safe (workers st) -> (n <= length (workers st))%nat ->
    exists tr st',
      steps randIntn st tr st'
      /\ length (workers st') = length (workers st)
      /\ (forall i, (i < n)%nat -> workers st' !! i = Some (Ret tt))
      /\ (forall i, (n <= i)%nat -> workers st' !! i = workers st !! i).
Proof.
  induction n as [| n IH]; intros st Hsafe Hn.
  - exists [], st. split; [constructor |]. split; [reflexivity |].
    split; [intros i Hi; lia | auto].
  - destruct (IH st Hsafe) as (tr1 & st1 & Hs1 & Hlen1 & Hdone1 & Hrest1); [lia |].
    destruct (lookup_lt_is_Some_2 (workers st) n) as [p Hp]; [lia |].
    assert (Hsp : safe p).
    { rewrite Forall_forall in Hsafe. apply Hsafe.
      eapply list_elem_of_lookup_2. exact Hp. }
    destruct (safe_finish p Hsp st1 n) as (tr2 & st2 & Hs2 & Hw2).
    { rewrite Hrest1 by lia. exact Hp. }
    exists (tr1 ++ tr2), st2. split; [exact (steps_app _ _ _ _ _ Hs1 Hs2) |].
    rewrite Hw2. split; [rewrite length_insert; exact Hlen1 |]. split.
    + intros i Hi. destruct (Nat.eq_dec i n) as [-> | Hne].
      * apply list_lookup_insert_eq. lia.
      * rewrite list_lookup_insert_ne by congruence. apply Hdone1. lia.
    + intros i Hi. rewrite list_lookup_insert_ne by lia. apply Hrest1. lia.
Qed.

Lemma safe_finish_all (st : state G) :
  Forall safe (workers st) ->
  exists tr st', steps randIntn st tr st' /\ finished st'.
Proof.
  intros Hsafe.
  destruct (safe_finish_upto (length (workers st)) st Hsafe)
    as (tr & st' & Hs & Hlen & Hdone & _); [lia |].
  exists tr, st'. split; [exact Hs |].
  unfold finished. apply Forall_lookup. intros i p Hp.
  pose proof (lookup_lt_Some _ _ _ Hp) as Hlt.
  rewrite Hdone in Hp by lia. congruence.
Qed.

(** Serving a request of a safe worker leaves it safe. *)
Lemma step_safe (st st' : state G) (ev : event) :
  step randIntn st ev st' ->
  Forall safe (workers st) -> Forall safe (workers st').
Proof.
  intros Hstep Hsafe.
  assert (Hat : forall i p, workers st !! i = Some p -> safe p).
  { intros i p Hp. rewrite Forall_forall in Hsafe. apply Hsafe.
    eapply list_elem_of_lookup_2. exact Hp. }
  inversion Hstep as [st0 i n k Hi Hn | st0 i n k Hi Hn | st0 i x y c k Hi]; subst;
    cbn [workers]; pose proof (Hat i _ Hi) as Hp.
  - apply Forall_insert; [exact Hsafe |].
    inversion Hp as [| n' k' _ Hk |]; subst. apply Hk.
    apply randIntn_range. exact Hn.
  - inversion Hp as [| n' k' Hn' _ |]; subst. lia.
  - apply Forall_insert; [exact Hsafe |].
    inversion Hp as [| | x' y' c' k' Hk]; subst. exact Hk.
Qed.

Lemma steps_safe (st st' : state G) (tr : list event) :
  steps randIntn st tr st' ->
  Forall safe (workers st) -> Forall safe (workers st').
Proof.
  induction 1 as [st | st ev st1 tr st2 Hstep _ IH]; intros Hsafe; [exact Hsafe |].
  apply IH. exact (step_safe _ _ _ Hstep Hsafe).
Qed.

Lemma drawAutoStereogram_safe (zBuf : list (list F64.t)) (w h : Z)
  (mu e : F64.t) (palette : list Color) (g : G) :
  0 <= w <= 2 ^ 62 -> 0 <= h ->
  (forall y, 0 <= y < h -> rowReady zBuf w mu e y) ->
  exists st,
    drawAutoStereogram zBuf w h mu e palette g = Done st
    /\ Forall safe (workers st).
Proof.
  intros Hw Hh Hrows. unfold drawAutoStereogram.
  destruct (Z.ltb_spec h 0) as [Hneg | _]; [lia |].
  eexists. split; [reflexivity |]. cbn [workers].
  apply Forall_forall. intros p Hp. apply list_elem_of_In in Hp.
  apply in_map_iff in Hp as (y & <- & Hy). apply in_zrange in Hy.
  apply safe_rowWorker; [exact Hw | apply Hrows; exact Hy].
Qed.

Lemma safe_runs {A : Type} (p : prog A) : safe p -> p <> Crash /\ p <> Hang.
Proof. intros Hp. split; intros ->; inversion Hp. Qed.

(** X16.  Rows that are drawn to their end.  In a depth buffer that has
    a depth for every pixel, with separations that are not negative and
    lines of sight that end within half a separation, no worker panics
    or hangs when [rand.Intn] keeps to its bounds: an image is returned,
    and whatever requests have been served, in whatever order, no worker
    has panicked and the execution goes on to an image that is
    returned. *)
Theorem drawAutoStereogram_returns (zBuf : list (list F64.t)) (w h : Z)
  (mu e : F64.t) (palette : list Color) (g : G) :
  0 <= w <= 2 ^ 62 -> 0 <= h ->
  (forall x y, 0 <= x < w -> 0 <= y < h ->
     exists z, zAt zBuf x y = Done z
               /\ 0 <= projSeparation z mu e < 2 ^ 62
               /\ sightEnds z mu e = true) ->
  exists st,
    drawAutoStereogram zBuf w h mu e palette g = Done st
    /\ (exists tr img, drawn randIntn (Done st) tr img)
    /\ forall tr st', steps randIntn st tr st' ->
         (forall i p, workers st' !! i = Some p -> p <> Crash /\ p <> Hang)
         /\ exists tr' img, drawn randIntn (Done st) (tr ++ tr') img.
Proof.
  intros Hw Hh Hready.
  destruct (drawAutoStereogram_safe zBuf w h mu e palette g Hw Hh)
    as (st & Hst & Hsafe).
  { intros y Hy x Hx. apply Hready; assumption. }
  exists st. split; [exact Hst |].
  assert (Hgo : forall tr st', steps randIntn st tr st' ->
            (forall i p, workers st' !! i = Some p -> p <> Crash /\ p <> Hang)
            /\ exists tr' img, drawn randIntn (Done st) (tr ++ tr') img).
  { intros tr st' Hs.
    pose proof (steps_safe _ _ _ Hs Hsafe) as Hsafe'. split.
    - intros i p Hp. apply safe_runs. rewrite Forall_forall in Hsafe'.
      apply Hsafe'. eapply list_elem_of_lookup_2. exact Hp.
    - destruct (safe_finish_all st' Hsafe') as (tr' & st'' & Hs' & Hfin).
      exists tr', (canvas st''). constructor; [| exact Hfin].
      exact (steps_app _ _ _ _ _ Hs Hs'). }
  split; [| exact Hgo].
  destruct (Hgo [] st (steps_nil randIntn st)) as (_ & tr' & img & Hd).
  exists tr', img. exact Hd.
Qed.




End Completion.

(** ** The default configuration *)



Section Default.

Context {G : Type} (randIntn : G -> Z -> Z * G).

Hypothesis randIntn_range :
  forall g n, 0 < n -> 0 <= fst (randIntn g n) < n.


End Default.

(** ** Rows apart *)

Lemma onRow_bind {A B : Type} (y : Z) (m : prog A) (f : A -> prog B) :
  onRow y m -> (forall a, onRow y (f a)) -> onRow y (m ≫= f).
Proof.
  intros Hm Hf. induction Hm as [a | | | n k _ IH | x c k _ IH].
  - apply Hf.
  - apply onRow_crash.
  - apply onRow_hang.
  - apply (onRow_rand y n (fun v => prog_bind f (k v))). exact IH.
  - apply (onRow_set y x c (prog_bind f k)). exact IH.
Qed.

Lemma onRow_liftO {A : Type} (y : Z) (o : outcome A) : onRow y (liftO o).
Proof. destruct o; constructor. Qed.

Lemma onRow_getRandomPaletteColor (y : Z) (palette : list Color) :
  onRow y (getRandomPaletteColor palette).
Proof.
  unfold getRandomPaletteColor. destruct (_ =? _)%nat.
  - repeat (apply onRow_rand; intros ?). apply onRow_ret.
  - apply onRow_rand. intros v. apply onRow_liftO.
Qed.

Lemma onRow_colorLoop (palette : list Color) (same : list Z) (y : Z) :
  forall (xs : list Z) (P : list Color), onRow y (colorLoop palette same y xs P).
Proof.
  induction xs as [| x xs IH]; intros P; [apply onRow_ret |].
  cbn [colorLoop].
  apply onRow_bind; [apply onRow_liftO | intros sx].
  apply onRow_bind; [apply onRow_liftO | intros c].
  apply onRow_bind; [apply onRow_liftO | intros P1].
  apply onRow_bind.
  - destruct (sx =? x); [| apply onRow_ret].
    apply onRow_bind; [apply onRow_getRandomPaletteColor | intros c'].
    apply onRow_liftO.
  - intros P2. apply onRow_bind; [apply onRow_liftO | intros px].
    apply onRow_set. apply IH.
Qed.

Lemma onRow_rowWorker (zBuf : list (list F64.t)) (w : Z) (mu e : F64.t)
  (palette : list Color) (y : Z) :
  onRow y (rowWorker zBuf w mu e palette y).
Proof.
  unfold rowWorker.
  apply onRow_bind; [apply onRow_liftO | intros same].
  apply onRow_bind; [apply onRow_liftO | intros P].
  apply onRow_colorLoop.
Qed.

Section Apart.

Context {G : Type} (randIntn : G -> Z -> Z * G).

Lemma step_rowsApart (st st' : state G) (ev : event) :
  step randIntn st ev st' -> rowsApart st ->
  rowsApart st'
  /\ forall x y c, requestOf ev = RqSet x y c -> y = Z.of_nat (who ev).
Proof.
  intros Hstep Hst.
  inversion Hstep as [st0 i n k Hi Hn | st0 i n k Hi Hn | st0 i x y c k Hi]; subst;
    pose proof (Hst i _ Hi) as Hp; (split; [| cbn; try discriminate]).
  - intros j p Hj. cbn [workers] in Hj.
    destruct (Nat.eq_dec j i) as [-> | Hne].
    + rewrite list_lookup_insert_eq in Hj by (eapply lookup_lt_Some; exact Hi).
      injection Hj as <-. inversion Hp as [| | | n' k' Hk |]; subst. apply Hk.
    + rewrite list_lookup_insert_ne in Hj by congruence. apply (Hst j p Hj).
  - intros j p Hj. cbn [workers] in Hj.
    destruct (Nat.eq_dec j i) as [-> | Hne].
    + rewrite list_lookup_insert_eq in Hj by (eapply lookup_lt_Some; exact Hi).
      injection Hj as <-. apply onRow_crash.
    + rewrite list_lookup_insert_ne in Hj by congruence. apply (Hst j p Hj).
  - intros j p Hj. cbn [workers] in Hj.
    destruct (Nat.eq_dec j i) as [-> | Hne].
    + rewrite list_lookup_insert_eq in Hj by (eapply lookup_lt_Some; exact Hi).
      injection Hj as <-. inversion Hp as [| | | | x' c' k' Hk]; subst. exact Hk.
    + rewrite list_lookup_insert_ne in Hj by congruence. apply (Hst j p Hj).
  - intros x0 y0 c0 [= <- <- <-].
    inversion Hp as [| | | | x' c' k' Hk]; subst. reflexivity.
Qed.

Lemma steps_rowsApart (st st' : state G) (tr : list event) :
  steps randIntn st tr st' -> rowsApart st ->
  forall ev x y c, In ev tr -> requestOf ev = RqSet x y c -> y = Z.of_nat (who ev).
Proof.
  induction 1 as [st | st ev st1 tr st2 Hstep _ IH]; intros Hst ev0 x y c Hin Hrq.
  - destruct Hin.
  - destruct (step_rowsApart _ _ _ Hstep Hst) as [Hst1 Hev].
    destruct Hin as [<- | Hin]; [exact (Hev x y c Hrq) |].
    exact (IH Hst1 ev0 x y c Hin Hrq).
Qed.

(** X19.  The goroutines do not meet in the image.  At every moment of
    every execution, finished or not and whatever the depth buffer and
    the configuration are, the pixels that the worker of a row has set
    are pixels of this row and of no other: two different workers never
    set the same pixel. *)
Theorem drawAutoStereogram_rows_apart (zBuf : list (list F64.t)) (w h : Z)
  (mu e : F64.t) (palette : list Color) (g : G)
  (st st' : state G) (tr : list event) :
  drawAutoStereogram zBuf w h mu e palette g = Done st ->
  steps randIntn st tr st' ->
  (forall ev x y c, In ev tr -> requestOf ev = RqSet x y c ->
     y = Z.of_nat (who ev) /\ 0 <= y < h)
  /\ forall ev1 ev2 x y c1 c2,
       In ev1 tr -> In ev2 tr ->
       requestOf ev1 = RqSet x y c1 -> requestOf ev2 = RqSet x y c2 ->
       who ev1 = who ev2.
Proof.
  intros Hst Hsteps. unfold drawAutoStereogram in Hst.
  destruct (Z.ltb_spec h 0) as [Hneg | Hpos]; [discriminate |].
  injection Hst as <-.
  assert (Hrows : rowsApart
            (mkState (map (rowWorker zBuf w mu e palette) (zrange h)) g
               (NewRGBA (Rect 0 0 w h)))).
  { intros i p Hp. cbn [workers] in Hp. unfold zrange in Hp.
    rewrite !list_lookup_fmap in Hp.
    destruct (seq 0 (Z.to_nat h) !! i) as [n |] eqn:Hn; [| discriminate].
    apply lookup_seq in Hn as [-> _]. injection Hp as <-. apply onRow_rowWorker. }
  pose proof (steps_rowsApart _ _ _ Hsteps Hrows) as Hall.
  assert (Hown : forall ev x y c, In ev tr -> requestOf ev = RqSet x y c ->
                                  y = Z.of_nat (who ev) /\ 0 <= y < h).
  { intros ev x y c Hin Hrq. pose proof (Hall ev x y c Hin Hrq) as ->.
    split; [reflexivity |].
    pose proof (steps_who randIntn _ _ _ Hsteps ev Hin) as Hlt.
    cbn [workers] in Hlt. unfold zrange in Hlt.
    rewrite !length_map, length_seq in Hlt. lia. }
  split; [exact Hown |].
  intros ev1 ev2 x y c1 c2 H1 H2 Hr1 Hr2.
  destruct (Hown ev1 x y c1 H1 Hr1) as [Hy1 _].
  destruct (Hown ev2 x y c2 H2 Hr2) as [Hy2 _]. lia.
Qed.

End Apart.

(** ** Rows of one depth *)

Lemma visibleLoop_flat (zBuf : list (list F64.t)) (mu e : F64.t)
  (x y : Z) (z : F64.t) :
  forall (n : nat) (t : Z) (fuel : nat),
    sightClear n z mu e t = true ->
    (forall t', t <= t' < t + Z.of_nat n ->
       zAt zBuf (x - t') y = Done z /\ zAt zBuf (x + t') y = Done z) ->
    zAt zBuf x y = Done z ->
    (n <= fuel)%nat ->
    visibleLoop fuel zBuf mu e x y t = Done true.
Proof.
  induction n as [| n IH]; intros t fuel Hclear Hrow Hz Hfuel; [discriminate |].
  destruct fuel as [| fuel]; [lia |].
  cbn [sightClear] in Hclear. apply andb_true_iff in Hclear as [Hlt Hnext].
  cbn [visibleLoop]. rewrite Hz. cbn [mbind outcome_bind].
  destruct (Hrow t) as [-> ->]; [lia |]. cbn [mbind outcome_bind].
  rewrite Hlt. cbn [mbind outcome_bind andb].
  destruct (F64.ltb (sightDepth z mu e t) F64.one); [| reflexivity].
  apply IH; [exact Hnext | | exact Hz | lia].
  intros t' Ht'. apply Hrow. lia.
Qed.

Section Flat.

Context {G : Type} (randIntn : G -> Z -> Z * G).

Lemma drawAutoStereogram_flat_row_aux (zBuf : list (list F64.t)) (w h : Z)
  (mu e : F64.t) (palette : list Color) (g : G) (tr : list event) (img : RGBA)
  (y : Z) (z : F64.t) :
  w <= 2 ^ 62 ->
  (forall x y z, 0 <= x < w -> 0 <= y < h -> zAt zBuf x y = Done z ->
                 0 <= projSeparation z mu e < 2 ^ 62) ->
  drawn randIntn (drawAutoStereogram zBuf w h mu e palette g) tr img ->
  0 <= y < h ->
  (forall x, 0 <= x < w -> zAt zBuf x y = Done z) ->
  flatVisible z mu e = true ->
  forall x, 0 <= x < w -> x + projSeparation z mu e < w ->
    RGBAAt img x y = RGBAAt img (x + projSeparation z mu e) y.
Proof.
  intros Hw Hsep Hd Hy Hflat Hvis x Hx Hright.
  pose proof (Hsep x y z Hx Hy (Hflat x Hx)) as Hs.
  set (s := projSeparation z mu e) in *.
  pose proof (land_1_bound (Z.land s y)) as Hp.
  set (q := Z.quot (s + Z.land (Z.land s y) 1) 2).
  assert (H62 : 2 ^ 62 = 4611686018427387904) by reflexivity.
  assert (Hq : s / 2 <= q <= s - s / 2).
  { unfold q. rewrite H62 in Hs. rewrite Z.quot_div_nonneg by lia.
    Z.div_mod_to_equations. lia. }
  assert (Hs2 : 0 <= s / 2) by (apply Z.div_pos; lia).
  apply (drawn_joined randIntn zBuf w h mu e palette g tr img Hw Hsep Hd
           (x + q) y x (x + s)); [lia | exact Hy | | lia | lia].
  exists z. split; [apply Hflat; lia |]. fold s. fold q.
  split; [lia |]. split; [reflexivity |].
  unfold isVisible.
  apply (visibleLoop_flat zBuf mu e (x + q) y z (Z.to_nat (s / 2))).
  - exact Hvis.
  - intros t' Ht'. split; apply Hflat; lia.
  - apply Hflat. lia.
  - lia.
Qed.

(** X20.  A row of one depth is drawn as a pattern that repeats: when
    every pixel of the row has the depth [z], and the line of sight of
    such a point ends within half a separation above the row, every
    pixel of the row has the colour of the pixel one separation to its
    right, in every image that is returned. *)
Theorem drawAutoStereogram_flat_row (zBuf : list (list F64.t)) (w h : Z)
  (mu e : F64.t) (palette : list Color) (g : G) (tr : list event) (img : RGBA)
  (y : Z) (z : F64.t) :
  w <= 2 ^ 62 ->
  (forall x y z, 0 <= x < w -> 0 <= y < h -> zAt zBuf x y = Done z ->
                 0 <= projSeparation z mu e < 2 ^ 62) ->
  drawn randIntn (drawAutoStereogram zBuf w h mu e palette g) tr img ->
  0 <= y < h ->
  (forall x, 0 <= x < w -> zAt zBuf x y = Done z) ->
  flatVisible z mu e = true ->
  forall x, 0 <= x < w -> x + projSeparation z mu e < w ->
    RGBAAt img x y = RGBAAt img (x + projSeparation z mu e) y.
Proof.
  exact (drawAutoStereogram_flat_row_aux zBuf w h mu e palette g tr img y z).
Qed.

End Flat.

(** ** More examples *)

Lemma replayIntn_range (g : list Z) (n : Z) :
  0 < n -> 0 <= fst (replayIntn g n) < n.
Proof.
  intros Hn. destruct g as [| r g]; cbn [replayIntn fst]; [lia |].
  apply Z.mod_pos_bound. exact Hn.
Qed.

Lemma Ex_depth_ready :
  forall x y, 0 <= x < 8 -> 0 <= y < 2 ->
    exists z, zAt Ex.depth x y = Done z
              /\ 0 <= projSeparation z (Mu defaultStereogramCfg) Ex.six < 2 ^ 62
              /\ sightEnds z (Mu defaultStereogramCfg) Ex.six = true.
Proof.
  intros x y Hx Hy.
  assert (Hxs : x = 0 \/ x = 1 \/ x = 2 \/ x = 3 \/ x = 4 \/ x = 5 \/ x = 6 \/ x = 7)
    by lia.
  assert (Hys : y = 0 \/ y = 1) by lia.
  destruct Hys as [-> | ->];
    repeat (destruct Hxs as [-> | Hxs];
            [eexists; split; [reflexivity |];
             split; [vm_compute; split; [discriminate | reflexivity]
                    | vm_compute; reflexivity] |]);
    subst x; eexists; (split; [reflexivity |]);
    (split; [vm_compute; split; [discriminate | reflexivity]
            | vm_compute; reflexivity]).
Defined.

Lemma drawAutoStereogram_flat_row_witness :
  RGBAAt (canvas (run replayIntn Ex.start Ex.order)) 2 1
  = RGBAAt (canvas (run replayIntn Ex.start Ex.order))
      (2 + projSeparation Ex.lo (Mu defaultStereogramCfg) Ex.six) 1.
Proof.
  apply (drawAutoStereogram_flat_row replayIntn Ex.depth 8 2
           (Mu defaultStereogramCfg) Ex.six Ex.palette Ex.numbers
           (runTrace replayIntn Ex.start Ex.order)
           (canvas (run replayIntn Ex.start Ex.order)) 1 Ex.lo
           ltac:(vm_compute; discriminate) Ex_depth_separations Ex_start_drawn).
  - lia.
  - intros x Hx.
    assert (Hxs : x = 0 \/ x = 1 \/ x = 2 \/ x = 3 \/ x = 4 \/ x = 5 \/ x = 6 \/ x = 7)
      by lia.
    repeat (destruct Hxs as [-> | Hxs]; [reflexivity |]). subst x. reflexivity.
  - vm_compute. reflexivity.
  - lia.
  - vm_compute. reflexivity.
Defined.

Lemma drawAutoStereogram_returns_witness :
  exists st,
    drawAutoStereogram Ex.depth 8 2 (Mu defaultStereogramCfg) Ex.six Ex.palette
      Ex.numbers = Done st
    /\ (exists tr img, drawn replayIntn (Done st) tr img)
    /\ forall tr st', steps replayIntn st tr st' ->
         (forall i p, workers st' !! i = Some p -> p <> Crash /\ p <> Hang)
         /\ exists tr' img, drawn replayIntn (Done st) (tr ++ tr') img.
Proof.
  apply (drawAutoStereogram_returns replayIntn replayIntn_range Ex.depth 8 2
           (Mu defaultStereogramCfg) Ex.six Ex.palette Ex.numbers).
  - split; [lia | vm_compute; discriminate].
  - lia.
  - exact Ex_depth_ready.
Defined.





Lemma drawAutoStereogram_rows_apart_witness :
  (forall ev x y c,
      In ev (runTrace replayIntn Ex.start [0; 1; 1; 0; 0]%nat) ->
      requestOf ev = RqSet x y c ->
      y = Z.of_nat (who ev) /\ 0 <= y < 2)
  /\ forall ev1 ev2 x y c1 c2,
       In ev1 (runTrace replayIntn Ex.start [0; 1; 1; 0; 0]%nat) ->
       In ev2 (runTrace replayIntn Ex.start [0; 1; 1; 0; 0]%nat) ->
       requestOf ev1 = RqSet x y c1 -> requestOf ev2 = RqSet x y c2 ->
       who ev1 = who ev2.
Proof.
  apply (drawAutoStereogram_rows_apart replayIntn Ex.depth 8 2
           (Mu defaultStereogramCfg) Ex.six Ex.palette Ex.numbers Ex.start
           (run replayIntn Ex.start [0; 1; 1; 0; 0]%nat)).
  - reflexivity.
  - apply run_steps.
Defined.

(** ** Masks without a shape *)


Section Blank.

Context {G : Type} (randIntn : G -> Z -> Z * G).


End Blank.



(** ** The numbers of a row *)

(** A worker that is given the same numbers makes the same requests. *)
Lemma path_answers {A : Type} (p : prog A) (r1 : list request) (a1 : A) :
  path p r1 (Ret a1) ->
  forall r2 a2, path p r2 (Ret a2) -> answers r1 = answers r2 -> r1 = r2.
Proof.
  intros H1. remember (Ret a1) as q1 eqn:Hq1. revert Hq1.
  induction H1 as [p | n k v rqs p' Hn H1 IH | n k rqs p' Hn H1 IH
                  | x y c k rqs p' H1 IH]; intros Hq1 r2 a2 H2 Hans.
  - subst p. apply path_Ret in H2 as [-> _]. reflexivity.
  - inversion H2 as [| n' k' v' rqs' p'' Hn' H2' | n' k' rqs' p'' Hn' H2' |]; subst.
    + cbn in Hans. injection Hans as <- Hans.
      f_equal. exact (IH eq_refl rqs' a2 H2' Hans).
    + lia.
  - subst p'. apply path_Crash in H1 as [_ H1]. discriminate H1.
  - apply path_SetPixel in H2 as (r & -> & H2).
    f_equal. apply (IH Hq1 r a2 H2). exact Hans.
Qed.

Section Numbers.

Context {G : Type} (randIntn : G -> Z -> Z * G).

(** X22.  The image is made by the numbers that the rows are given.
    Two executions on the same depth buffer and configuration, with any
    random sources and in any order of the goroutines, return the same
    pixels when each row is given the same numbers by [rand.Intn] in
    the one as in the other. *)
Theorem drawAutoStereogram_numbers (zBuf : list (list F64.t)) (w h : Z)
  (mu e : F64.t) (palette : list Color) (g1 g2 : G)
  (tr1 tr2 : list event) (img1 img2 : RGBA) :
  drawn randIntn (drawAutoStereogram zBuf w h mu e palette g1) tr1 img1 ->
  drawn randIntn (drawAutoStereogram zBuf w h mu e palette g2) tr2 img2 ->
  (forall i, answers (requestsOf i tr1) = answers (requestsOf i tr2)) ->
  (forall i, requestsOf i tr1 = requestsOf i tr2)
  /\ forall x y, 0 <= x < w -> 0 <= y < h -> RGBAAt img1 x y = RGBAAt img2 x y.
Proof.
  intros Hd1 Hd2 Hans.
  destruct (drawn_workers randIntn _ _ _ _ _ _ _ _ _ Hd1) as (Hh & _ & Hwho1 & Hp1).
  destruct (drawn_workers randIntn _ _ _ _ _ _ _ _ _ Hd2) as (_ & _ & Hwho2 & Hp2).
  assert (Hreq : forall i, requestsOf i tr1 = requestsOf i tr2).
  { intros i. destruct (Nat.lt_ge_cases i (Z.to_nat h)) as [Hi | Hi].
    - exact (path_answers _ _ _ (Hp1 i Hi) _ _ (Hp2 i Hi) (Hans i)).
    - assert (Hnone : forall tr, (forall ev, In ev tr -> (who ev < Z.to_nat h)%nat) ->
                                 requestsOf i tr = []).
      { intros tr Hwho. unfold requestsOf.
        replace (List.filter _ tr) with (@nil event); [reflexivity |].
        symmetry. induction tr as [| ev tr IH]; [reflexivity |].
        cbn [List.filter].
        destruct (Nat.eqb_spec (who ev) i) as [Heq | _].
        + specialize (Hwho ev (or_introl eq_refl)). lia.
        + apply IH. intros ev' Hin. apply Hwho. right. exact Hin. }
      rewrite (Hnone tr1 Hwho1), (Hnone tr2 Hwho2). reflexivity. }
  split; [exact Hreq |].
  intros x y Hx Hy.
  destruct (drawn_rows randIntn _ _ _ _ _ _ _ _ _ Hd1) as (_ & _ & Hrows1).
  destruct (drawn_rows randIntn _ _ _ _ _ _ _ _ _ Hd2) as (_ & _ & Hrows2).
  destruct (Hrows1 y Hy) as (_ & same1 & P1 & _ & Hpix1).
  destruct (Hrows2 y Hy) as (_ & same2 & P2 & _ & Hpix2).
  destruct (Hpix1 x Hx) as [Hs1 ->]. destruct (Hpix2 x Hx) as [Hs2 ->].
  assert (Heq : setsAt x y (allSets tr1) = setsAt x y (allSets tr2)).
  { replace y with (Z.of_nat (Z.to_nat y)) by lia.
    rewrite (setsAt_allSets tr1 (Z.to_nat y) x), (setsAt_allSets tr2 (Z.to_nat y) x).
    - rewrite Hreq. reflexivity.
    - intros ev x' y' c Hin Hrq.
      apply (drawn_sets_inside randIntn _ _ _ _ _ _ _ _ _ Hd2 ev x' y' c Hin Hrq).
    - intros ev x' y' c Hin Hrq.
      apply (drawn_sets_inside randIntn _ _ _ _ _ _ _ _ _ Hd1 ev x' y' c Hin Hrq). }
  rewrite Hs1, Hs2 in Heq. injection Heq as Heq. exact Heq.
Qed.

End Numbers.

Lemma drawAutoStereogram_numbers_witness :
  (forall i,
      requestsOf i (runTrace replayIntn (ExMask.start Ex.palette [0; 1; 0; 1])
                      [0; 0; 0; 0; 1; 1; 1; 1]%nat)
      = requestsOf i (runTrace replayIntn (ExMask.start Ex.palette [0; 0; 1; 1])
                        [0; 1; 0; 1; 0; 1; 0; 1]%nat))
  /\ forall x y, 0 <= x < 2 -> 0 <= y < 2 ->
       RGBAAt (canvas (run replayIntn (ExMask.start Ex.palette [0; 1; 0; 1])
                         [0; 0; 0; 0; 1; 1; 1; 1]%nat)) x y
       = RGBAAt (canvas (run replayIntn (ExMask.start Ex.palette [0; 0; 1; 1])
                           [0; 1; 0; 1; 0; 1; 0; 1]%nat)) x y.
Proof.
  apply (drawAutoStereogram_numbers replayIntn ExMask.depth 2 2
           (Mu defaultStereogramCfg) (eyeSeparation defaultStereogramCfg)
           Ex.palette [0; 1; 0; 1] [0; 0; 1; 1]).
  - apply (run_drawn replayIntn (ExMask.start Ex.palette [0; 1; 0; 1])).
    vm_compute. reflexivity.
  - apply (run_drawn replayIntn (ExMask.start Ex.palette [0; 0; 1; 1])).
    vm_compute. reflexivity.
  - intros i. destruct i as [| [| i]]; vm_compute; reflexivity.
Defined.

(** ** From the text to the colour and back *)

Lemma upper_digit (c : ascii) :
  isUpperHexDigit c = true ->
  exists d, 0 <= d < 16 /\ c = hexDigit d.
Proof.
  intros H.
  destruct (digitVal c) as [d |] eqn:Hd.
  - exists d. revert H Hd.
    destruct c as [[] [] [] [] [] [] [] []]; intros H Hd; try discriminate H;
      vm_compute in Hd; injection Hd as <-; (split; [lia | reflexivity]).
  - revert H Hd.
    destruct c as [[] [] [] [] [] [] [] []]; intros H Hd; try discriminate H;
      discriminate Hd.
Qed.

Lemma fmt02X_digits (d1 d2 : Z) (rest : string) :
  0 <= d1 < 16 -> 0 <= d2 < 16 ->
  String (hexDigit d1) (String (hexDigit d2) rest) = fmt02X (16 * d1 + d2) rest
  /\ 0 <= 16 * d1 + d2 < 256.
Proof.
  intros H1 H2. unfold fmt02X. split; [| lia].
  replace ((16 * d1 + d2) / 16) with d1 by (Z.div_mod_to_equations; lia).
  replace ((16 * d1 + d2) mod 16) with d2 by (Z.div_mod_to_equations; lia).
  reflexivity.
Qed.

(** The texts that [Hex] writes are all the texts of eight capital
    digits. *)
Lemma upper_digits_Hex (digits : string) :
  String.length digits = 8%nat -> allUpperHex digits = true ->
  exists c, wfColor c /\ Hex c = String "#" digits.
Proof.
  intros Hlen Hall.
  destruct digits as [| c1 [| c2 [| c3 [| c4 [| c5 [| c6 [| c7 [| c8 [| c9 s]]]]]]]]];
    try discriminate Hlen.
  cbn [allUpperHex] in Hall.
  repeat (apply andb_true_iff in Hall as [?H Hall]).
  destruct (upper_digit c1) as (d1 & Hd1 & ->); [assumption |].
  destruct (upper_digit c2) as (d2 & Hd2 & ->); [assumption |].
  destruct (upper_digit c3) as (d3 & Hd3 & ->); [assumption |].
  destruct (upper_digit c4) as (d4 & Hd4 & ->); [assumption |].
  destruct (upper_digit c5) as (d5 & Hd5 & ->); [assumption |].
  destruct (upper_digit c6) as (d6 & Hd6 & ->); [assumption |].
  destruct (upper_digit c7) as (d7 & Hd7 & ->); [assumption |].
  destruct (upper_digit c8) as (d8 & Hd8 & ->); [assumption |].
  destruct (fmt02X_digits d7 d8 EmptyString Hd7 Hd8) as [-> Ha].
  destruct (fmt02X_digits d5 d6 (fmt02X (16 * d7 + d8) EmptyString) Hd5 Hd6)
    as [-> Hb].
  destruct (fmt02X_digits d3 d4
              (fmt02X (16 * d5 + d6) (fmt02X (16 * d7 + d8) EmptyString)) Hd3 Hd4)
    as [-> Hg].
  destruct (fmt02X_digits d1 d2
              (fmt02X (16 * d3 + d4)
                 (fmt02X (16 * d5 + d6) (fmt02X (16 * d7 + d8) EmptyString)))
              Hd1 Hd2) as [-> Hr].
  exists (mkColor (16 * d1 + d2) (16 * d3 + d4) (16 * d5 + d6) (16 * d7 + d8)).
  split; [unfold wfColor; cbn; lia | reflexivity].
Qed.

(** X23.  From the text to the colour and back.  A text of the sign [#]
    and eight digits, decimal or capital letters from A to F, is read
    by [ColorFromHex] without an error, and [Hex] writes the colour it
    is read as in the same text. *)
Theorem Hex_ColorFromHex (digits : string) :
  String.length digits = 8%nat -> allUpperHex digits = true ->
  exists c,
    ColorFromHex (String "#" digits) = inl c
    /\ Hex c = String "#" digits.
Proof.
  intros Hlen Hall.
  destruct (upper_digits_Hex digits Hlen Hall) as (c & Hwf & Hc).
  exists c. split; [| exact Hc].
  rewrite <- Hc. apply ColorFromHex_Hex_back. exact Hwf.
Qed.

Lemma Hex_ColorFromHex_witness :
  exists c,
    ColorFromHex "#CFCFCF80" = inl c
    /\ Hex c = "#CFCFCF80"%string.
Proof. apply (Hex_ColorFromHex "CFCFCF80"); reflexivity. Defined.

(** ** The example programs *)





Section ExamplePrograms.

Context {G : Type} (randIntn : G -> Z -> Z * G).

Hypothesis randIntn_range :
  forall g n, 0 < n -> 0 <= fst (randIntn g n) < n.



End ExamplePrograms.

